(** * Kyma uninstallation: the phase supervisor, the two-phase orchestrator
      and the parallel namespace teardown of package [deployment].

    The Go code is embedded shallowly.  Everything the code asks of its
    environment (the engine's status stream, the timers, the cluster
    client, the goroutine scheduler) is supplied as explicit input, and
    everything it does to its environment (notifications, log lines, API
    calls) is returned as a list of effects in program order. *)

From Stdlib Require Import ZArith Lia.
From stdpp Require Import gmap strings list pretty.

Open Scope Z_scope.

(** ** Go values *)

(** Go's [int] on a 64-bit platform: increments wrap around. *)
Definition int_min : Z := - 2 ^ 63.
Definition int_max : Z := 2 ^ 63 - 1.
Definition int_wrap (z : Z) : Z := (z + 2 ^ 63) mod 2 ^ 64 - 2 ^ 63.

(** [time.Duration] and [time.Time] are counts of nanoseconds. *)
Definition Duration := Z.
Definition Time := Z.

(** Error values.  [errorString] is built by [fmt.Errorf] and [errors.New];
    [statusError] is what the cluster client returns, and [apierr.IsNotFound]
    reads its reason; [withMessage cause msg] is [errors.Wrap(cause, msg)]. *)
Inductive error : Type :=
| errorString (msg : string)
| statusError (notFound : bool) (msg : string)
| withMessage (cause : error) (msg : string).

(** [err.Error()] *)
Fixpoint Error (e : error) : string :=
  match e with
  | errorString m => m
  | statusError _ m => m
  | withMessage cause m => m +:+ ": " +:+ Error cause
  end.

(** [apierr.IsNotFound(err)] *)
Definition IsNotFound (e : error) : bool :=
  match e with
  | statusError nf _ => nf
  | _ => false
  end.

(** [errors.Wrap(err, message)] *)
Definition Wrap (err : error) (message : string) : error := withMessage err message.

#[global] Instance error_eq_dec : EqDecision error.
Proof. solve_decision. Defined.

(** ** Shared vocabulary of the package *)

Inductive InstallationPhase := UninstallComponents | UninstallPreRequisites.

Inductive ProcessEvent :=
| ProcessStart
| ProcessExecutionFailure
| ProcessTimeoutFailure
| ProcessForceQuitFailure
| ProcessFinished.

#[global] Instance InstallationPhase_eq_dec : EqDecision InstallationPhase.
Proof. solve_decision. Defined.
#[global] Instance ProcessEvent_eq_dec : EqDecision ProcessEvent.
Proof. solve_decision. Defined.

(** [components.KymaComponent], as far as the code reads it. *)
Record KymaComponent := { Name : string; Status : string }.

(** Modelled from the spec: the constant [components.StatusError] is declared
    outside the files at hand; the status set is Pending, InProgress,
    Success, Error. *)
Definition StatusError : string := "Error".

(** Arguments of a log line.  [ArgMinutes d] stands for the float
    [d.Minutes()], which is only ever printed. *)
Inductive LogArg := ArgString (s : string) | ArgMinutes (d : Duration).

Inductive LogLevel := Info | ErrorLevel.

(** Objects of the cluster, as far as the code reads or writes them. *)
Record Object := { objName : string; Finalizers : list string }.

(** The calls of the cluster clients ([kubeClient], [scclient], [dClient]). *)
Inductive ApiCall :=
| PodsList (ns : string)
| ClusterServiceBrokersList
| ClusterServiceBrokersUpdate (o : Object)
| ServiceBrokersList (ns : string)
| ServiceBrokersUpdate (ns : string) (o : Object)
| SecretsGet (ns name : string)
| SecretsUpdate (ns : string) (o : Object)
| ResourceList (group version resource ns : string)
| ResourceUpdate (group version resource ns : string) (o : Object)
| NamespacesDelete (ns : string).

(** What the code does to the outside, in program order. *)
Inductive Effect :=
| Log (level : LogLevel) (format : string) (args : list LogArg)
| TimeAfter (d : Duration)
| EngineUninstall (phase : InstallationPhase)
| processUpdate (phase : InstallationPhase) (event : ProcessEvent) (err : option error)
| processUpdateComponent (phase : InstallationPhase) (cmp : KymaComponent)
| logStatuses (statusMap : gmap string string)
| cancelFunc
| Api (call : ApiCall).

(** ** The supervisor: [uninstallComponents] *)

Module Supervisor.

(** One iteration of the [select] in [UninstallLoop]: which case the Go
    runtime picked, and what it delivered. *)
Inductive SelectCase :=
| statusChan (cmp : KymaComponent)   (* cmp, ok := <-statusChan, ok = true *)
| statusChanClosed                   (* ok = false *)
| cancelTimeoutChan
| quitTimeoutChan.

(** One engine run as the supervisor sees it: what [eng.Uninstall] returned
    and, if it returned a channel, the cases the [select] takes from then on. *)
Record EngineRun := {
  uninstallErr : option error;
  selects : list SelectCase
}.

(** Outcome of a call: its effects, its return value ([None] when the call
    is still waiting in the [select] after the last given case), and the
    cases it has not consumed. *)
Record Run := {
  effects : list Effect;
  returned : option (option error);
  unread : list SelectCase
}.

Definition emit (e : Effect) (r : Run) : Run :=
  {| effects := e :: effects r; returned := returned r; unread := unread r |}.

Definition ret (err : option error) (rest : list SelectCase) : Run :=
  {| effects := []; returned := Some err; unread := rest |}.

Definition waiting : Run := {| effects := []; returned := None; unread := [] |}.

Definition componentsFailed (errCount : Z) : error :=
  errorString ("Kyma uninstallation failed due to errors in " +:+ pretty errCount +:+ " component(s)").
Definition timeoutFailed : error :=
  errorString "Kyma uninstallation failed due to the timeout".
Definition forceQuit : error :=
  errorString "Force quit: Kyma uninstallation failed due to the timeout".

Fixpoint UninstallLoop (phase : InstallationPhase) (cancelTimeout : Duration)
    (sel : list SelectCase)
    (statusMap : gmap string string) (errCount : Z) (timeoutOccured : bool) : Run :=
  match sel with
  | [] => waiting
  | statusChan cmp :: sel' =>
      emit (processUpdateComponent phase cmp)
        (UninstallLoop phase cancelTimeout sel'
           (<[Name cmp := Status cmp]> statusMap)
           (if String.eqb (Status cmp) StatusError then int_wrap (errCount + 1) else errCount)
           timeoutOccured)
  | statusChanClosed :: sel' =>
      if errCount >? 0 then
        let err := componentsFailed errCount in
        emit (processUpdate phase ProcessExecutionFailure (Some err))
          (emit (logStatuses statusMap) (ret (Some err) sel'))
      else if timeoutOccured then
        let err := timeoutFailed in
        emit (processUpdate phase ProcessTimeoutFailure (Some err))
          (emit (logStatuses statusMap) (ret (Some err) sel'))
      else
        emit (processUpdate phase ProcessFinished None) (ret None sel')
  | cancelTimeoutChan :: sel' =>
      emit (Log ErrorLevel "Timeout occurred after %v minutes. Cancelling uninstallation"
              [ArgMinutes cancelTimeout])
        (emit cancelFunc
           (UninstallLoop phase cancelTimeout sel' statusMap errCount true))
  | quitTimeoutChan :: sel' =>
      let err := forceQuit in
      emit (processUpdate phase ProcessForceQuitFailure (Some err))
        (emit (Log ErrorLevel "Uninstallation doesn't stop after it's canceled. Enforcing quit" [])
           (ret (Some err) sel'))
  end.

Definition uninstallComponents (phase : InstallationPhase) (eng : EngineRun)
    (cancelTimeout quitTimeout : Duration) : Run :=
  emit (TimeAfter cancelTimeout)
    (emit (TimeAfter quitTimeout)
       (emit (EngineUninstall phase)
          match uninstallErr eng with
          | Some err => ret (Some err) (selects eng)
          | None =>
              emit (processUpdate phase ProcessStart None)
                (UninstallLoop phase cancelTimeout (selects eng) ∅ 0 false)
          end)).

End Supervisor.

(** ** The teardown coordinator: [deleteKymaNamespaces] *)

Module Teardown.

Record Pod := { podName : string; podPhase : string }.

(** Modelled from the spec: the constant [v1.PodRunning] of the Kubernetes
    API, "if any pod is in the Running phase". *)
Definition PodRunning : string := "Running".

(** A list call returns a pointer and an error; [items = None] is the nil
    pointer, whose [.Items] cannot be read. *)
Record ListResult (A : Type) := { items : option (list A); listErr : option error }.
Arguments items {A} _.
Arguments listErr {A} _.

Record GetResult := { object : option Object; getErr : option error }.

(** The answers of the cluster clients.  The first index is the position of
    the namespace in the list given to [deleteKymaNamespaces]; the second is
    the attempt of the pre-check, or the position of the item in the list
    being ranged over. *)
Record Cluster := {
  podsList : nat → nat → ListResult Pod;
  csbList : nat → ListResult Object;
  csbUpdate : nat → nat → option error;
  sbList : nat → ListResult Object;
  sbUpdate : nat → nat → option error;
  secretGet : nat → GetResult;
  secretUpdate : nat → option error;
  rulesList : nat → ListResult Object;
  rulesUpdate : nat → nat → option error;
  namespacesDelete : nat → option error
}.

(** *** The pre-check closure and [retry.Do] *)

Inductive ClosureResult :=
| returnsNil
| returnsErr (err : error)
| blocksSending (err : error)   (* errorCh <- err with nobody receiving *)
| nilDereference.

(** [fmt.Sprintf("Namespace %s could not be deleted because of the running Pod: %s. Trying again..", ...)] *)
Definition runningPodMessage (namespace pod : string) : string :=
  "Namespace " +:+ namespace +:+ " could not be deleted because of the running Pod: "
    +:+ pod +:+ ". Trying again..".

(** The [for _, pod := range pods.Items] of the closure. *)
Fixpoint firstRunning (namespace : string) (pods : list Pod) : ClosureResult :=
  match pods with
  | [] => returnsNil
  | pod :: pods' =>
      if String.eqb (podPhase pod) PodRunning
      then returnsErr (errorString (runningPodMessage namespace (podName pod)))
      else firstRunning namespace pods'
  end.

(** The function literal handed to [retry.Do], at attempt [n] for the
    namespace at position [i].  It runs in the goroutine of
    [deleteKymaNamespaces], the only one that ever receives from [errorCh]. *)
Definition closure (c : Cluster) (i : nat) (namespace : string) (n : nat)
    : list Effect * ClosureResult :=
  let pods := podsList c i n in
  ([Api (PodsList namespace)],
   match listErr pods with
   | Some err => blocksSending err
   | None =>
       match items pods with
       | None => nilDereference
       | Some ps => firstRunning namespace ps
       end
   end).

Inductive RetryResult :=
| passed
| exhausted
| blocked (err : error)
| panicked.

(** Modelled from the spec: [retry.Do] of the retry policy, "number of
    attempts": the function is called until it returns nil, at most
    [attempts] times; delays between attempts are not represented. *)
Fixpoint retryDo (f : nat → list Effect * ClosureResult) (remaining n : nat)
    : list Effect * RetryResult :=
  match remaining with
  | O => ([], exhausted)
  | S remaining' =>
      let '(effs, res) := f n in
      match res with
      | returnsNil => (effs, passed)
      | returnsErr _ =>
          let '(effs', r) := retryDo f remaining' (S n) in (effs ++ effs', r)
      | blocksSending err => (effs, blocked err)
      | nilDereference => (effs, panicked)
      end
  end.

(** *** The worker goroutine *)

Inductive Action :=
| Do (e : Effect)
| Send (err : error)    (* errorCh <- err *)
| Panic.                (* reading a field through a nil pointer *)

Definition sendErr (err : option error) : list Action :=
  match err with
  | Some e => [Send e]
  | None => []
  end.

(** [err != nil && !apierr.IsNotFound(err)] *)
Definition unlessNotFound (err : option error) : option error :=
  match err with
  | Some e => if IsNotFound e then None else Some e
  | None => None
  end.

Definition withoutFinalizers (o : Object) : Object :=
  {| objName := objName o; Finalizers := [] |}.

(** [for _, x := range list.Items { x.Finalizers = []string{}; Update(&x); ... }] *)
Definition clearEach (update : Object → ApiCall) (answer : nat → option error)
    (format : string) (objs : list Object) : list Action :=
  concat (imap (λ j o,
    Do (Api (update (withoutFinalizers o))) :: sendErr (answer j)
      ++ [Do (Log Info format [ArgString (objName o)])]) objs).

(** Ranging over [res.Items], then going on with [next]. *)
Definition ranging (res : ListResult Object) (body : list Object → list Action)
    (next : list Action) : list Action :=
  match items res with
  | None => [Panic]
  | Some objs => body objs ++ next
  end.

Definition removeNamespace (c : Cluster) (k : nat) (ns : string) : list Action :=
  Do (Api (NamespacesDelete ns)) :: sendErr (unlessNotFound (namespacesDelete c k))
    ++ [Do (Log Info "Namespace '%s' is removed" [ArgString ns])].

Definition clearSecret (c : Cluster) (k : nat) (ns : string) : list Action :=
  Do (Api (SecretsGet ns "serverless-registry-config-default"))
    :: sendErr (unlessNotFound (getErr (secretGet c k)))
    ++ match object (secretGet c k) with
       | Some secret =>
           Do (Api (SecretsUpdate ns (withoutFinalizers secret)))
             :: sendErr (secretUpdate c k)
             ++ [Do (Log Info "Deleted finalizer from Secret: %s" [ArgString (objName secret)])]
       | None => []
       end.

(** One list-based clearing step: list the resources, report a failure of
    the list call, then range over the items. *)
Definition clearList (fetch : ApiCall) (res : ListResult Object) (update : Object → ApiCall)
    (answer : nat → option error) (format : string) (next : list Action) : list Action :=
  Do (Api fetch) :: sendErr (listErr res) ++ ranging res (clearEach update answer format) next.

(** The body of [go func(ns string) { ... }(namespace)], for the namespace at
    position [k]; the deferred [wg.Done()] is taken when the list is used up. *)
Definition worker (c : Cluster) (k : nat) (ns : string) : list Action :=
  if String.eqb ns "kyma-system" then
    clearList ClusterServiceBrokersList (csbList c k)
      ClusterServiceBrokersUpdate (csbUpdate c k) "Deleted finalizer from CSB: %s"
    (clearList (ServiceBrokersList ns) (sbList c k)
      (ServiceBrokersUpdate ns) (sbUpdate c k) "Deleted finalizer from SB: %s"
    (clearSecret c k ns ++
     clearList (ResourceList "oathkeeper.ory.sh" "v1alpha1" "rules" ns) (rulesList c k)
      (ResourceUpdate "oathkeeper.ory.sh" "v1alpha1" "rules" ns) (rulesUpdate c k)
      "Deleted finalizer from Rule: %s"
    (removeNamespace c k ns)))
  else removeNamespace c k ns.

(** *** The goroutines of one call *)

Inductive Goroutine := callerG | workerG (k : nat).

Record Worker := {
  position : nat;          (* index of its namespace in the given list *)
  namespace : string;
  todo : list Action;      (* what is left of the body *)
  exited : bool            (* the deferred wg.Done() has run *)
}.

(** Where the goroutine that called [deleteKymaNamespaces] stands. *)
Inductive CallerPC :=
| rangeNamespaces (i : nat) (rest : list string)   (* the for loop over namespaces *)
| sendingInClosure (err : error)                   (* at errorCh <- err of the pre-check *)
| selecting (errWrapped : option error)            (* the for/select at the end *)
| returnedWith (errWrapped : option error).

(** Where [go func() { wg.Wait(); close(errorCh); close(finishedCh) }()] stands. *)
Inductive CloserPC := notStarted | wgWait | closedErrorCh | closedFinishedCh.

Record State := {
  caller : CallerPC;
  workers : list Worker;
  wg : Z;
  closer : CloserPC;
  crashed : bool;                       (* a goroutine panicked: the process is gone *)
  trace : list (Goroutine * Effect);    (* effects so far, oldest first *)
  received : list error                 (* history: non-nil errors taken from errorCh, oldest first *)
}.

Definition errorChClosed (s : State) : bool :=
  match closer s with
  | closedErrorCh | closedFinishedCh => true
  | _ => false
  end.

Definition finishedChClosed (s : State) : bool :=
  match closer s with
  | closedFinishedCh => true
  | _ => false
  end.

Definition setCaller (pc : CallerPC) (s : State) : State :=
  {| caller := pc; workers := workers s; wg := wg s; closer := closer s;
     crashed := crashed s; trace := trace s; received := received s |}.
Definition setWorkers (ws : list Worker) (s : State) : State :=
  {| caller := caller s; workers := ws; wg := wg s; closer := closer s;
     crashed := crashed s; trace := trace s; received := received s |}.
Definition setWg (n : Z) (s : State) : State :=
  {| caller := caller s; workers := workers s; wg := n; closer := closer s;
     crashed := crashed s; trace := trace s; received := received s |}.
Definition setCloser (pc : CloserPC) (s : State) : State :=
  {| caller := caller s; workers := workers s; wg := wg s; closer := pc;
     crashed := crashed s; trace := trace s; received := received s |}.
Definition crash (s : State) : State :=
  {| caller := caller s; workers := workers s; wg := wg s; closer := closer s;
     crashed := true; trace := trace s; received := received s |}.
Definition record (g : Goroutine) (effs : list Effect) (s : State) : State :=
  {| caller := caller s; workers := workers s; wg := wg s; closer := closer s;
     crashed := crashed s; trace := trace s ++ ((λ e, (g, e)) <$> effs);
     received := received s |}.
Definition receive (err : error) (s : State) : State :=
  {| caller := caller s; workers := workers s; wg := wg s; closer := closer s;
     crashed := crashed s; trace := trace s; received := received s ++ [err] |}.

(** A worker just spawned, one that has taken a step, one that has ended. *)
Definition spawn (c : Cluster) (i : nat) (ns : string) : Worker :=
  {| position := i; namespace := ns; todo := worker c i ns; exited := false |}.
Definition proceed (wk : Worker) (rest : list Action) : Worker :=
  {| position := position wk; namespace := namespace wk; todo := rest; exited := false |}.
Definition finish (wk : Worker) : Worker :=
  {| position := position wk; namespace := namespace wk; todo := []; exited := true |}.

(** The log line of a skipped namespace. *)
Definition skipLine (ns : string) : Effect :=
  Log Info "Namespace %s could not be deleted because of running Pod(s)" [ArgString ns].

(** [wg.Done()]; a counter below zero panics. *)
Definition wgDone (s : State) : State :=
  if wg s - 1 <? 0 then crash s else setWg (wg s - 1) s.

(** The body of [case err := <-errorCh] for a non-nil [err]. *)
Definition aggregate (errWrapped : option error) (err : error) : option error :=
  match errWrapped with
  | None => Some err
  | Some w => Some (Wrap err (Error w))
  end.

(** What the Go scheduler lets happen next. *)
Inductive Choice :=
| runCaller              (* the caller checks the next namespace, or leaves the for loop *)
| runWorker (w : nat)    (* the w-th spawned worker takes its next step that is not a send *)
| recvError (w : nat)    (* the select takes errorCh from the w-th worker, which is sending *)
| recvClosed             (* the select takes errorCh, which is closed, and gets nil *)
| recvFinished           (* the select takes finishedCh *)
| runCloser.

Definition stepCaller (c : Cluster) (attempts : nat) (s : State) : option State :=
  match caller s with
  | rangeNamespaces i (ns :: rest) =>
      let '(effs, r) := retryDo (closure c i ns) attempts 0 in
      let s := record callerG effs s in
      match r with
      | passed =>
          Some (setCaller (rangeNamespaces (S i) rest)
                  (setWorkers (workers s ++ [spawn c i ns]) s))
      | exhausted =>
          Some (setCaller (rangeNamespaces (S i) rest)
                  (wgDone (record callerG [skipLine ns] s)))
      | blocked err => Some (setCaller (sendingInClosure err) s)
      | panicked => Some (crash s)
      end
  | rangeNamespaces i [] => Some (setCaller (selecting None) (setCloser wgWait s))
  | _ => None
  end.

Definition stepWorker (w : nat) (s : State) : option State :=
  match workers s !! w with
  | Some wk =>
      if exited wk then None else
      match todo wk with
      | [] =>
          Some (wgDone (setWorkers (<[w := finish wk]> (workers s)) s))
      | Do e :: rest =>
          Some (record (workerG (position wk)) [e]
                  (setWorkers (<[w := proceed wk rest]> (workers s)) s))
      | Send _ :: _ => if errorChClosed s then Some (crash s) else None
      | Panic :: _ => Some (crash s)
      end
  | None => None
  end.

Definition stepRecvError (w : nat) (s : State) : option State :=
  match caller s, workers s !! w with
  | selecting errWrapped, Some wk =>
      match todo wk with
      | Send err :: rest =>
          if exited wk || errorChClosed s then None else
          Some (setCaller (selecting (aggregate errWrapped err))
                  (receive err (setWorkers (<[w := proceed wk rest]> (workers s)) s)))
      | _ => None
      end
  | _, _ => None
  end.

Definition stepCloser (s : State) : option State :=
  match closer s with
  | wgWait => if wg s =? 0 then Some (setCloser closedErrorCh s) else None
  | closedErrorCh => Some (setCloser closedFinishedCh s)
  | _ => None
  end.

(** One transition; [None] when the chosen goroutine cannot move. *)
Definition step (c : Cluster) (attempts : nat) (ch : Choice) (s : State) : option State :=
  if crashed s then None else
  match ch with
  | runCaller => stepCaller c attempts s
  | runWorker w => stepWorker w s
  | recvError w => stepRecvError w s
  | recvClosed =>
      match caller s with
      | selecting _ => if errorChClosed s then Some s else None
      | _ => None
      end
  | recvFinished =>
      match caller s with
      | selecting errWrapped =>
          if finishedChClosed s then Some (setCaller (returnedWith errWrapped) s) else None
      | _ => None
      end
  | runCloser => stepCloser s
  end.

(** The state right after [wg.Add(len(namespaces))] and the two [make]s. *)
Definition start (namespaces : list string) : State :=
  {| caller := rangeNamespaces 0 namespaces; workers := []; wg := Z.of_nat (length namespaces);
     closer := notStarted; crashed := false; trace := []; received := [] |}.

(** Running under a schedule; a choice that cannot move is passed over. *)
Definition run (c : Cluster) (attempts : nat) (sched : list Choice) (s : State) : State :=
  foldl (λ s ch, default s (step c attempts ch s)) s sched.

(** One call of [deleteKymaNamespaces] under a schedule: the state it leaves
    behind, and in it whether and with what the call returned. *)
Definition deleteKymaNamespaces (c : Cluster) (attempts : nat) (sched : list Choice)
    (namespaces : list string) : State :=
  run c attempts sched (start namespaces).

Definition result (s : State) : option (option error) :=
  match caller s with
  | returnedWith errWrapped => Some errWrapped
  | _ => None
  end.

(** A scheduler that never starves anybody: the caller first, then any
    worker that can move or hand over an error, then the closer, and the
    select takes finishedCh as soon as it is closed. *)
Definition canRun (wk : Worker) : bool :=
  negb (exited wk) && match todo wk with Send _ :: _ => false | _ => true end.
Definition isSending (wk : Worker) : bool :=
  negb (exited wk) && match todo wk with Send _ :: _ => true | _ => false end.

Fixpoint findIndex {A} (p : A → bool) (l : list A) : option nat :=
  match l with
  | [] => None
  | x :: l' => if p x then Some O else S <$> findIndex p l'
  end.

Definition nextChoice (s : State) : Choice :=
  match caller s with
  | rangeNamespaces _ _ => runCaller
  | selecting _ =>
      match findIndex canRun (workers s) with
      | Some w => runWorker w
      | None =>
          match findIndex isSending (workers s) with
          | Some w => recvError w
          | None => if finishedChClosed s then recvFinished else runCloser
          end
      end
  | _ => runCloser
  end.

Fixpoint fairSchedule (c : Cluster) (attempts : nat) (fuel : nat) (s : State) : list Choice :=
  match fuel with
  | O => []
  | S fuel' =>
      let ch := nextChoice s in
      ch :: fairSchedule c attempts fuel' (default s (step c attempts ch s))
  end.

End Teardown.

(** ** The orchestrator: [startKymaUninstallation] *)

Module Orchestrator.

(** Modelled from the spec: the helper [calculateDuration] is not among the
    files at hand; the budget left for the second phase is
    "max(0, original_budget - elapsed)". *)
Definition calculateDuration (startTime endTime : Time) (duration : Duration) : Duration :=
  Z.max 0 (duration - (endTime - startTime)).

(** The fields of [i.cfg] and of [Deletion] that the code reads. *)
Record Config := {
  CancelTimeout : Duration;
  QuitTimeout : Duration;
  retryAttempts : nat          (* what retryOptions asks of retry.Do *)
}.

(** Everything one run gets from outside. *)
Record World := {
  mpNamespaces : list string * option error;   (* i.mp.Namespaces() *)
  startTime : Time;                            (* first time.Now() *)
  endTime : Time;                              (* second time.Now() *)
  componentsEng : Supervisor.EngineRun;
  prerequisitesEng : Supervisor.EngineRun;
  cluster : Teardown.Cluster;
  schedule : list Teardown.Choice
}.

(** What a run did, call by call. *)
Inductive Step :=
| effect (e : Effect)
| uninstallComponentsCall (phase : InstallationPhase) (cancelTimeout quitTimeout : Duration)
    (r : Supervisor.Run)
| deleteKymaNamespacesCall (namespaces : list string) (final : Teardown.State).

Record Run := {
  steps : list Step;
  returned : option (option error)    (* None: the run never comes back *)
}.

(** Leaving the function: the deferred [cancel()] runs. *)
Definition leave (done : list Step) (err : option error) : Run :=
  {| steps := done ++ [effect cancelFunc]; returned := Some err |}.

Definition stuck (done : list Step) : Run :=
  {| steps := done; returned := None |}.

Definition startKymaUninstallation (cfg : Config) (w : World) : Run :=
  let done := [effect (Log Info "Kyma uninstallation started" [])] in
  match (mpNamespaces w).2 with
  | Some err => leave done (Some err)
  | None =>
      let namespaces := (mpNamespaces w).1 ++ ["kyma-installer"] in
      let r1 := Supervisor.uninstallComponents UninstallComponents (componentsEng w)
                  (CancelTimeout cfg) (QuitTimeout cfg) in
      let done := done ++ [uninstallComponentsCall UninstallComponents
                             (CancelTimeout cfg) (QuitTimeout cfg) r1] in
      match Supervisor.returned r1 with
      | None => stuck done
      | Some (Some err) => leave done (Some err)
      | Some None =>
          let done := done ++ [effect (Log Info "Kyma prerequisites uninstallation" [])] in
          let cancelTimeout := calculateDuration (startTime w) (endTime w) (CancelTimeout cfg) in
          let quitTimeout := calculateDuration (startTime w) (endTime w) (QuitTimeout cfg) in
          let r2 := Supervisor.uninstallComponents UninstallPreRequisites (prerequisitesEng w)
                      cancelTimeout quitTimeout in
          let done := done ++ [uninstallComponentsCall UninstallPreRequisites
                                 cancelTimeout quitTimeout r2] in
          match Supervisor.returned r2 with
          | None => stuck done
          | Some (Some err) => leave done (Some err)
          | Some None =>
              let final := Teardown.deleteKymaNamespaces (cluster w) (retryAttempts cfg)
                             (schedule w) namespaces in
              let done := done ++ [deleteKymaNamespacesCall namespaces final] in
              match Teardown.result final with
              | None => stuck done
              | Some err => leave done err
              end
          end
      end
  end.

End Orchestrator.

(** ** Vocabulary of the statements *)

Module SupervisorSpec.
Import Supervisor.

(** The cases after which the loop goes round again. *)
Definition keepsWaiting (c : SelectCase) : bool :=
  match c with
  | statusChan _ | cancelTimeoutChan => true
  | statusChanClosed | quitTimeoutChan => false
  end.

Definition isError (c : SelectCase) : bool :=
  match c with
  | statusChan cmp => String.eqb (Status cmp) StatusError
  | _ => false
  end.

Definition isCancel (c : SelectCase) : bool :=
  match c with
  | cancelTimeoutChan => true
  | _ => false
  end.

(** Number of received events with Error status. *)
Fixpoint errorsSeen (sel : list SelectCase) : Z :=
  match sel with
  | [] => 0
  | c :: sel' => (if isError c then 1 else 0) + errorsSeen sel'
  end.

(** Whether the soft-cancel timer was taken by the select. *)
Definition cancelSeen (sel : list SelectCase) : bool := existsb isCancel sel.

(** The lifecycle notifications among the effects, in order. *)
Definition lifecycle (effs : list Effect) : list (InstallationPhase * ProcessEvent * option error) :=
  omap (λ e, match e with
             | processUpdate phase event err => Some (phase, event, err)
             | _ => None
             end) effs.

Definition terminal (event : ProcessEvent) : bool :=
  match event with
  | ProcessStart => false
  | _ => true
  end.

Definition prepend (effs : list Effect) (r : Run) : Run := foldr emit r effs.

(** What the stream's end decides, from the Error statuses counted and the
    soft-cancel flag. *)
Definition atClose (errors : Z) (timedOut : bool) : ProcessEvent * option error :=
  if errors >? 0 then (ProcessExecutionFailure, Some (componentsFailed errors))
  else if timedOut then (ProcessTimeoutFailure, Some timeoutFailed)
  else (ProcessFinished, None).

(** Sample inputs. *)
Definition sampleError : KymaComponent := {| Name := "istio"; Status := "Error" |}.
Definition sampleSuccess : KymaComponent := {| Name := "dex"; Status := "Success" |}.
Definition engineDown : error := errorString "engine: cannot start workers".


End SupervisorSpec.

Module OrchestratorSpec.
Import Orchestrator.

Definition isPhaseCall (phase : InstallationPhase) (st : Step) : bool :=
  match st with
  | uninstallComponentsCall phase' _ _ _ => bool_decide (phase' = phase)
  | _ => false
  end.

Definition isTeardownCall (st : Step) : bool :=
  match st with
  | deleteKymaNamespacesCall _ _ => true
  | _ => false
  end.

(** The budgets each call of the supervisor for [phase] was given. *)
Definition budgetsOf (phase : InstallationPhase) (sts : list Step) : list (Duration * Duration) :=
  omap (λ st, match st with
              | uninstallComponentsCall phase' ct qt _ =>
                  if bool_decide (phase' = phase) then Some (ct, qt) else None
              | _ => None
              end) sts.

(** Sample worlds. *)
Definition quietCluster : Teardown.Cluster :=
  {| Teardown.podsList := λ _ _, {| Teardown.items := Some []; Teardown.listErr := None |};
     Teardown.csbList := λ _, {| Teardown.items := Some []; Teardown.listErr := None |};
     Teardown.csbUpdate := λ _ _, None;
     Teardown.sbList := λ _, {| Teardown.items := Some []; Teardown.listErr := None |};
     Teardown.sbUpdate := λ _ _, None;
     Teardown.secretGet := λ _, {| Teardown.object := None; Teardown.getErr := None |};
     Teardown.secretUpdate := λ _, None;
     Teardown.rulesList := λ _, {| Teardown.items := Some []; Teardown.listErr := None |};
     Teardown.rulesUpdate := λ _ _, None;
     Teardown.namespacesDelete := λ _, None |}.

Definition minute : Duration := 60 * 1000000000.

Definition tenMinutes : Config :=
  {| CancelTimeout := 10 * minute; QuitTimeout := 15 * minute; retryAttempts := 3 |}.

(** Components take twelve minutes and end cleanly. *)
Definition slowWorld : World :=
  {| mpNamespaces := (["kyma-system"; "kyma-integration"], None);
     startTime := 1000; endTime := 1000 + 12 * minute;
     componentsEng := {| Supervisor.uninstallErr := None;
                         Supervisor.selects := [Supervisor.statusChan SupervisorSpec.sampleSuccess;
                                                Supervisor.statusChanClosed] |};
     prerequisitesEng := {| Supervisor.uninstallErr := None;
                            Supervisor.selects := [Supervisor.statusChanClosed] |};
     cluster := quietCluster; schedule := [] |}.

(** One of three components reports Error. *)
Definition failingWorld : World :=
  {| mpNamespaces := (["kyma-system"; "kyma-integration"], None);
     startTime := 1000; endTime := 2000;
     componentsEng := {| Supervisor.uninstallErr := None;
                         Supervisor.selects := [Supervisor.statusChan SupervisorSpec.sampleSuccess;
                                                Supervisor.statusChan SupervisorSpec.sampleError;
                                                Supervisor.statusChan SupervisorSpec.sampleSuccess;
                                                Supervisor.statusChanClosed] |};
     prerequisitesEng := {| Supervisor.uninstallErr := None;
                            Supervisor.selects := [Supervisor.statusChanClosed] |};
     cluster := quietCluster; schedule := [] |}.

(** Components end cleanly, the prerequisites run into the hard-quit timer. *)
Definition lateWorld : World :=
  {| mpNamespaces := (["kyma-system"], None);
     startTime := 1000; endTime := 2000;
     componentsEng := {| Supervisor.uninstallErr := None;
                         Supervisor.selects := [Supervisor.statusChanClosed] |};
     prerequisitesEng := {| Supervisor.uninstallErr := None;
                            Supervisor.selects := [Supervisor.cancelTimeoutChan;
                                                   Supervisor.quitTimeoutChan] |};
     cluster := quietCluster; schedule := [] |}.

End OrchestratorSpec.

Module TeardownSpec.
Import Teardown.

(** The errors an action list sends, and the API calls it makes, in order. *)
Definition sends (acts : list Action) : list error :=
  omap (λ a, match a with Send err => Some err | _ => None end) acts.

Definition apiCalls (acts : list Action) : list ApiCall :=
  omap (λ a, match a with Do (Api call) => Some call | _ => None end) acts.

Definition panics (acts : list Action) : bool :=
  existsb (λ a, match a with Panic => true | _ => false end) acts.

(** Outcome of the pre-check of the namespace at position [i]. *)
Definition precheck (c : Cluster) (attempts i : nat) (ns : string) : RetryResult :=
  (retryDo (closure c i ns) attempts 0).2.

(** The namespaces of [nss], counted from [i], whose pre-check passes. *)
Fixpoint spawned (c : Cluster) (attempts i : nat) (nss : list string) : list (nat * string) :=
  match nss with
  | [] => []
  | ns :: rest =>
      match precheck c attempts i ns with
      | passed => (i, ns) :: spawned c attempts (S i) rest
      | _ => spawned c attempts (S i) rest
      end
  end.

Definition key (wk : Worker) : nat * string := (position wk, namespace wk).

(** Workers that have not yet run their [wg.Done()]. *)
Definition active (ws : list Worker) : nat :=
  sum_list_with (λ wk, if exited wk then 0 else 1)%nat ws.

(** Errors the spawned workers have yet to send, and all they ever send. *)
Definition pending (ws : list Worker) : list error := ws ≫= (λ wk, sends (todo wk)).

Definition allSends (c : Cluster) (ws : list Worker) : list error :=
  ws ≫= (λ wk, sends (worker c (position wk) (namespace wk))).

(** The value of [errWrapped] after the given errors were received. *)
Definition combined (errs : list error) : option error := foldl aggregate None errs.

(** [needle] occurs in [s]. *)
Definition mentions (s needle : string) : Prop := ∃ before after, s = before +:+ needle +:+ after.

(** Work left for the workers and the closer once the caller is selecting. *)
Definition workLeft (s : State) : nat :=
  (sum_list_with (λ wk, if exited wk then 0 else S (length (todo wk)))%nat (workers s)
   + match closer s with
     | notStarted => 3 | wgWait => 3 | closedErrorCh => 2 | closedFinishedCh => 1
     end
   + match caller s with
     | returnedWith _ => 0
     | _ => 1
     end)%nat.


(** The transitions of [step], one rule per case. *)
Inductive Transition (c : Cluster) (attempts : nat) (s : State) : State → Prop :=
| t_pass i ns rest effs :
    crashed s = false → caller s = rangeNamespaces i (ns :: rest) →
    retryDo (closure c i ns) attempts 0 = (effs, passed) →
    Transition c attempts s
      (setCaller (rangeNamespaces (S i) rest)
         (setWorkers (workers s ++ [spawn c i ns]) (record callerG effs s)))
| t_skip i ns rest effs :
    crashed s = false → caller s = rangeNamespaces i (ns :: rest) →
    retryDo (closure c i ns) attempts 0 = (effs, exhausted) →
    Transition c attempts s
      (setCaller (rangeNamespaces (S i) rest)
         (wgDone (record callerG [skipLine ns] (record callerG effs s))))
| t_block i ns rest effs err :
    crashed s = false → caller s = rangeNamespaces i (ns :: rest) →
    retryDo (closure c i ns) attempts 0 = (effs, blocked err) →
    Transition c attempts s (setCaller (sendingInClosure err) (record callerG effs s))
| t_nil i ns rest effs :
    crashed s = false → caller s = rangeNamespaces i (ns :: rest) →
    retryDo (closure c i ns) attempts 0 = (effs, panicked) →
    Transition c attempts s (crash (record callerG effs s))
| t_select i :
    crashed s = false → caller s = rangeNamespaces i [] →
    Transition c attempts s (setCaller (selecting None) (setCloser wgWait s))
| t_exit w wk :
    crashed s = false → workers s !! w = Some wk → exited wk = false → todo wk = [] →
    Transition c attempts s (wgDone (setWorkers (<[w := finish wk]> (workers s)) s))
| t_do w wk e rest :
    crashed s = false → workers s !! w = Some wk → exited wk = false → todo wk = Do e :: rest →
    Transition c attempts s
      (record (workerG (position wk)) [e] (setWorkers (<[w := proceed wk rest]> (workers s)) s))
| t_send_closed w wk err rest :
    crashed s = false → workers s !! w = Some wk → exited wk = false →
    todo wk = Send err :: rest → errorChClosed s = true →
    Transition c attempts s (crash s)
| t_panic w wk rest :
    crashed s = false → workers s !! w = Some wk → exited wk = false → todo wk = Panic :: rest →
    Transition c attempts s (crash s)
| t_recv w wk err rest errWrapped :
    crashed s = false → caller s = selecting errWrapped →
    workers s !! w = Some wk → exited wk = false → todo wk = Send err :: rest →
    errorChClosed s = false →
    Transition c attempts s
      (setCaller (selecting (aggregate errWrapped err))
         (receive err (setWorkers (<[w := proceed wk rest]> (workers s)) s)))
| t_recv_nil errWrapped :
    crashed s = false → caller s = selecting errWrapped → errorChClosed s = true →
    Transition c attempts s s
| t_finished errWrapped :
    crashed s = false → caller s = selecting errWrapped → closer s = closedFinishedCh →
    Transition c attempts s (setCaller (returnedWith errWrapped) s)
| t_close_errorCh :
    crashed s = false → closer s = wgWait → wg s = 0 →
    Transition c attempts s (setCloser closedErrorCh s)
| t_close_finishedCh :
    crashed s = false → closer s = closedErrorCh →
    Transition c attempts s (setCloser closedFinishedCh s).

(** What a schedule can lead to from the start. *)
Definition reachable (c : Cluster) (attempts : nat) (namespaces : list string) (s : State) : Prop :=
  ∃ sched, s = deleteKymaNamespaces c attempts sched namespaces.

(** Invariant: [errWrapped] combines what was received, and what was
    received together with what is yet to be sent is what the workers send. *)
Definition ErrInv (c : Cluster) (s : State) : Prop :=
  match caller s with
  | selecting errWrapped | returnedWith errWrapped => errWrapped = combined (received s)
  | _ => received s = []
  end ∧
  received s ++ pending (workers s) ≡ₚ allSends c (workers s).

(** Invariant: the wait group counts the namespaces still to be looked at and
    the workers still running; the closer exists once the caller selects;
    errorCh is closed only at count zero; a worker that has exited has
    nothing left to do. *)
Definition SyncInv (s : State) : Prop :=
  match caller s with
  | rangeNamespaces _ rest => wg s = Z.of_nat (length rest) + Z.of_nat (active (workers s))
  | sendingInClosure _ => wg s > Z.of_nat (active (workers s))
  | _ => wg s = Z.of_nat (active (workers s))
  end ∧
  match caller s with
  | rangeNamespaces _ _ | sendingInClosure _ => closer s = notStarted
  | selecting _ => closer s ≠ notStarted
  | returnedWith _ => closer s = closedFinishedCh
  end ∧
  (errorChClosed s = true → wg s = 0) ∧
  Forall (λ wk, exited wk = true → todo wk = []) (workers s).

(** Invariant: the workers are those of the namespaces looked at so far
    whose pre-check passed, in order. *)
Definition SpawnInv (c : Cluster) (attempts : nat) (nss : list string) (s : State) : Prop :=
  match caller s with
  | rangeNamespaces i rest =>
      ∃ seen, nss = seen ++ rest ∧ length seen = i ∧
              key <$> workers s = spawned c attempts 0 seen
  | sendingInClosure _ =>
      ∃ seen rest, nss = seen ++ rest ∧ key <$> workers s = spawned c attempts 0 seen
  | _ => key <$> workers s = spawned c attempts 0 nss
  end.

(** A run in which nothing goes wrong for good: no pre-check hits a failing
    or nil pod list, no worker reads through a nil list. *)
Definition Benign (c : Cluster) (attempts : nat) (nss : list string) : Prop :=
  ∀ i ns, nss !! i = Some ns →
    precheck c attempts i ns = passed ∧ panics (worker c i ns) = false ∨
    precheck c attempts i ns = exhausted.

(** Invariant of benign runs: nobody has panicked or will, and the caller is
    not stuck sending. *)
Definition Healthy (s : State) : Prop :=
  crashed s = false ∧
  Forall (λ wk, panics (todo wk) = false) (workers s) ∧
  ∀ err, caller s ≠ sendingInClosure err.

Definition Sound (c : Cluster) (attempts : nat) (nss : list string) (s : State) : Prop :=
  SyncInv s ∧ SpawnInv c attempts nss s ∧ Healthy s.

(** Whether the caller's loop has dealt with position [j]. *)
Definition dealtWith (j : nat) (pc : CallerPC) : Prop :=
  match pc with
  | rangeNamespaces i _ => (j < i)%nat
  | sendingInClosure _ => False
  | _ => True
  end.

(** Invariant: worker effects come from spawned workers, and each skipped
    namespace has its log line. *)
Definition TraceInv (c : Cluster) (attempts : nat) (nss : list string) (s : State) : Prop :=
  (∀ k e, (workerG k, e) ∈ trace s → k ∈ position <$> workers s) ∧
  (∀ j ns, nss !! j = Some ns → precheck c attempts j ns = exhausted →
           dealtWith j (caller s) → (callerG, skipLine ns) ∈ trace s).


(** The update calls of a list-based clearing step: one per item, each with
    the finalizers emptied. *)
Definition updatesOf (update : Object → ApiCall) (res : ListResult Object) : list ApiCall :=
  match items res with
  | Some objs => (λ o, update (withoutFinalizers o)) <$> objs
  | None => []
  end.

(** The finalizer clearing of the spec, in its fixed order: ClusterServiceBrokers,
    ServiceBrokers, the Secret serverless-registry-config-default, the
    oathkeeper.ory.sh Rules. *)
Definition clearingCalls (c : Cluster) (k : nat) (ns : string) : list ApiCall :=
  ClusterServiceBrokersList :: updatesOf ClusterServiceBrokersUpdate (csbList c k)
  ++ ServiceBrokersList ns :: updatesOf (ServiceBrokersUpdate ns) (sbList c k)
  ++ SecretsGet ns "serverless-registry-config-default"
     :: match object (secretGet c k) with
        | Some secret => [SecretsUpdate ns (withoutFinalizers secret)]
        | None => []
        end
  ++ ResourceList "oathkeeper.ory.sh" "v1alpha1" "rules" ns
     :: updatesOf (ResourceUpdate "oathkeeper.ory.sh" "v1alpha1" "rules" ns) (rulesList c k).

(** A fetch of one of the clearing steps, or an update that writes an empty
    finalizer list. *)
Definition isClearingCall (call : ApiCall) : bool :=
  match call with
  | ClusterServiceBrokersList | ServiceBrokersList _ | SecretsGet _ _ | ResourceList _ _ _ _ => true
  | ClusterServiceBrokersUpdate o | ServiceBrokersUpdate _ o | SecretsUpdate _ o
  | ResourceUpdate _ _ _ _ o => bool_decide (Finalizers o = [])
  | PodsList _ | NamespacesDelete _ => false
  end.


(** Invariant of a run whose pre-check at position [i] cannot get through:
    the caller is at or before [i], or stuck sending. *)
Definition HeldAt (i : nat) (s : State) : Prop :=
  match caller s with
  | rangeNamespaces j _ => (j ≤ i)%nat
  | sendingInClosure _ => True
  | _ => False
  end.

(** Sample cluster for the namespaces a, b, c: deleting b fails with X,
    deleting c fails with Y. *)
Definition clusterXY : Cluster :=
  {| podsList := λ _ _, {| items := Some []; listErr := None |};
     csbList := λ _, {| items := Some []; listErr := None |};
     csbUpdate := λ _ _, None;
     sbList := λ _, {| items := Some []; listErr := None |};
     sbUpdate := λ _ _, None;
     secretGet := λ _, {| object := None; getErr := None |};
     secretUpdate := λ _, None;
     rulesList := λ _, {| items := Some []; listErr := None |};
     rulesUpdate := λ _ _, None;
     namespacesDelete := λ k, match k with
                              | 1%nat => Some (statusError false "X")
                              | 2%nat => Some (statusError false "Y")
                              | _ => None
                              end |}.

Definition notFound : error :=
  statusError true "the server could not find the requested resource".
Definition connectionRefused : error :=
  errorString "dial tcp 10.0.0.1:443: connect: connection refused".

(** Everything is gone already; getting the Secret and deleting the namespace
    answer not-found. *)
Definition goneCluster : Cluster :=
  {| podsList := λ _ _, {| items := Some []; listErr := None |};
     csbList := λ _, {| items := Some []; listErr := None |};
     csbUpdate := λ _ _, None;
     sbList := λ _, {| items := Some []; listErr := None |};
     sbUpdate := λ _ _, None;
     secretGet := λ _, {| object := None; getErr := Some notFound |};
     secretUpdate := λ _, None;
     rulesList := λ _, {| items := Some []; listErr := None |};
     rulesUpdate := λ _ _, None;
     namespacesDelete := λ _, Some notFound |}.



(** Listing the pods fails outright. *)
Definition unreachableCluster : Cluster :=
  {| podsList := λ _ _, {| items := Some []; listErr := Some connectionRefused |};
     csbList := λ _, {| items := Some []; listErr := None |};
     csbUpdate := λ _ _, None;
     sbList := λ _, {| items := Some []; listErr := None |};
     sbUpdate := λ _ _, None;
     secretGet := λ _, {| object := None; getErr := None |};
     secretUpdate := λ _, None;
     rulesList := λ _, {| items := Some []; listErr := None |};
     rulesUpdate := λ _ _, None;
     namespacesDelete := λ _, None |}.

(** The namespace at position 1 keeps a Running pod; all else is quiet. *)
Definition livePodCluster : Cluster :=
  {| podsList := λ i _, {| items := Some (match i with
                                          | 1%nat => [{| podName := "worker-0"; podPhase := "Running" |}]
                                          | _ => []
                                          end);
                           listErr := None |};
     csbList := λ _, {| items := Some []; listErr := None |};
     csbUpdate := λ _ _, None;
     sbList := λ _, {| items := Some []; listErr := None |};
     sbUpdate := λ _ _, None;
     secretGet := λ _, {| object := None; getErr := None |};
     secretUpdate := λ _, None;
     rulesList := λ _, {| items := Some []; listErr := None |};
     rulesUpdate := λ _ _, None;
     namespacesDelete := λ _, None |}.

(** Sample namespaces and a fair schedule for them on [clusterXY]. *)
Definition abc : list string := ["a"; "b"; "c"].
Definition scheduleXY : list Choice := fairSchedule clusterXY 1 40 (start abc).

End TeardownSpec.

(** ** Further vocabulary: the supervisor and the orchestrator *)

Module SupervisorMore.
Import Supervisor SupervisorSpec.

(** The cases the loop takes before it stops: all up to and including the
    first that ends it. *)
Fixpoint consumed (sel : list SelectCase) : list SelectCase :=
  match sel with
  | [] => []
  | c :: sel' => if keepsWaiting c then c :: consumed sel' else [c]
  end.

(** The component events among the select cases. *)
Definition statusesOf (sel : list SelectCase) : list KymaComponent :=
  omap (λ c, match c with statusChan cmp => Some cmp | _ => None end) sel.

(** The component notifications, the calls of [cancelFunc] and the maps
    handed to [logStatuses] among the effects. *)
Definition componentUpdates (effs : list Effect) : list (InstallationPhase * KymaComponent) :=
  omap (λ e, match e with processUpdateComponent phase cmp => Some (phase, cmp) | _ => None end) effs.

Definition cancellations (effs : list Effect) : nat :=
  length (omap (λ e, match e with cancelFunc => Some () | _ => None end) effs).

Definition loggedStatuses (effs : list Effect) : list (gmap string string) :=
  omap (λ e, match e with logStatuses m => Some m | _ => None end) effs.

(** The status of the last event for [name], if there was one. *)
Fixpoint lastStatus (name : string) (sel : list SelectCase) : option string :=
  match sel with
  | [] => None
  | c :: sel' =>
      match lastStatus name sel' with
      | Some st => Some st
      | None =>
          match c with
          | statusChan cmp => if String.eqb (Name cmp) name then Some (Status cmp) else None
          | _ => None
          end
      end
  end.

(** The loop variables after the given cases, none of which ends the loop. *)
Definition statusMapAfter (statusMap : gmap string string) (sel : list SelectCase)
    : gmap string string :=
  foldl (λ m c, match c with
                | statusChan cmp => <[Name cmp := Status cmp]> m
                | _ => m
                end) statusMap sel.

Definition errCountAfter (errCount : Z) (sel : list SelectCase) : Z :=
  foldl (λ n c, if isError c then int_wrap (n + 1) else n) errCount sel.

Definition waitingEffects (phase : InstallationPhase) (cancelTimeout : Duration)
    (sel : list SelectCase) : list Effect :=
  sel ≫= (λ c, match c with
               | statusChan cmp => [processUpdateComponent phase cmp]
               | cancelTimeoutChan =>
                   [Log ErrorLevel "Timeout occurred after %v minutes. Cancelling uninstallation"
                      [ArgMinutes cancelTimeout]; cancelFunc]
               | _ => []
               end).

(** How often the soft-cancel timer is among the cases. *)
Fixpoint cancelCases (sel : list SelectCase) : nat :=
  match sel with
  | [] => 0
  | c :: sel' => ((if isCancel c then 1 else 0) + cancelCases sel')%nat
  end.

Definition sampleFixed : KymaComponent := {| Name := "istio"; Status := "Success" |}.

End SupervisorMore.

Module OrchestratorMore.
Import Orchestrator.

(** [StartKymaUninstallation]: [i.getConfig()] first, whose error ends the
    call before anything is started.  The helper itself is outside the files
    at hand; what it returned is given. *)
Definition StartKymaUninstallation (getConfigErr : option error) (cfg : Config) (w : World) : Run :=
  match getConfigErr with
  | Some err => {| steps := []; returned := Some (Some err) |}
  | None => startKymaUninstallation cfg w
  end.

Definition isCall (st : Step) : bool :=
  match st with
  | effect _ => false
  | _ => true
  end.

Definition isCancelStep (st : Step) : bool :=
  match st with
  | effect cancelFunc => true
  | _ => false
  end.

Definition metadataDown : error := errorString "helm: cannot list releases".

Definition noMetadataWorld : World :=
  {| mpNamespaces := ([], Some metadataDown);
     startTime := 0; endTime := 0;
     componentsEng := {| Supervisor.uninstallErr := None; Supervisor.selects := [] |};
     prerequisitesEng := {| Supervisor.uninstallErr := None; Supervisor.selects := [] |};
     cluster := OrchestratorSpec.quietCluster; schedule := [] |}.

(** Both phases end cleanly at once; the teardown runs under a fair schedule. *)
Definition cleanWorld : World :=
  {| mpNamespaces := (["kyma-system"; "kyma-integration"], None);
     startTime := 1000; endTime := 2000;
     componentsEng := {| Supervisor.uninstallErr := None;
                         Supervisor.selects := [Supervisor.statusChanClosed] |};
     prerequisitesEng := {| Supervisor.uninstallErr := None;
                            Supervisor.selects := [Supervisor.statusChanClosed] |};
     cluster := OrchestratorSpec.quietCluster;
     schedule := Teardown.fairSchedule OrchestratorSpec.quietCluster 3 60
                   (Teardown.start ["kyma-system"; "kyma-integration"; "kyma-installer"]) |}.

End OrchestratorMore.

(** ** Further vocabulary: the teardown coordinator *)

Module TeardownMore.
Import Teardown TeardownSpec.

(** The effects of an action list, and what of a trace belongs to the worker
    at position [k]. *)
Definition effectsOf (acts : list Action) : list Effect :=
  omap (λ a, match a with Do e => Some e | _ => None end) acts.

Definition ofWorker (k : nat) (tr : list (Goroutine * Effect)) : list Effect :=
  omap (λ ge, match ge.1 with
              | workerG k' => if decide (k' = k) then Some ge.2 else None
              | callerG => None
              end) tr.

(** No nil pointer anywhere: no pre-check reads a nil pod list, and no worker
    that is spawned ranges over a nil list. *)
Definition NoNil (c : Cluster) (attempts : nat) (nss : list string) : Prop :=
  ∀ i ns, nss !! i = Some ns →
    precheck c attempts i ns ≠ panicked ∧
    (precheck c attempts i ns = passed → panics (worker c i ns) = false).

(** Invariant: nobody has panicked, and no worker will. *)
Definition Unharmed (s : State) : Prop :=
  crashed s = false ∧ Forall (λ wk, panics (todo wk) = false) (workers s).

(** Invariant: what the trace holds of a worker, followed by the effects it
    has yet to bring about, is the effects of its body. *)
Definition WorkInv (c : Cluster) (s : State) : Prop :=
  Forall (λ wk, effectsOf (worker c (position wk) (namespace wk))
                = ofWorker (position wk) (trace s) ++ effectsOf (todo wk)) (workers s).

(** An attempt of the pre-check that lists the pods and finds none Running,
    and one that lists them and finds one Running. *)
Definition quietAt (c : Cluster) (i n : nat) : Prop :=
  listErr (podsList c i n) = None ∧
  ∃ ps, items (podsList c i n) = Some ps ∧ Forall (λ pod, podPhase pod ≠ PodRunning) ps.

Definition runningAt (c : Cluster) (i n : nat) : Prop :=
  listErr (podsList c i n) = None ∧
  ∃ ps, items (podsList c i n) = Some ps ∧ Exists (λ pod, podPhase pod = PodRunning) ps.

(** The pods of position 0 stop after two attempts; one of them is Pending
    throughout. *)
Definition settlingCluster : Cluster :=
  {| podsList := λ _ n, {| items := Some (match n with
                                          | 0%nat | 1%nat =>
                                              [{| podName := "job-1"; podPhase := "Pending" |};
                                               {| podName := "api-0"; podPhase := "Running" |}]
                                          | _ => [{| podName := "job-1"; podPhase := "Pending" |}]
                                          end);
                           listErr := None |};
     csbList := λ _, {| items := Some []; listErr := None |};
     csbUpdate := λ _ _, None;
     sbList := λ _, {| items := Some []; listErr := None |};
     sbUpdate := λ _ _, None;
     secretGet := λ _, {| object := None; getErr := None |};
     secretUpdate := λ _, None;
     rulesList := λ _, {| items := Some []; listErr := None |};
     rulesUpdate := λ _ _, None;
     namespacesDelete := λ _, None |}.

End TeardownMore.

(** ** [NewDeletion] *)

Module Construction.

(** The calls [NewDeletion] makes. *)
Inductive Call :=
| ValidateDeletion
| RestConfig
| KubernetesNewForConfig
| ClientsetNewForConfig
| DynamicNewForConfig
| registerOverridesInterceptors
| newCore
| NewKymaMetadataProvider.

#[global] Instance Call_eq_dec : EqDecision Call.
Proof. solve_decision. Defined.

(** What the fallible ones answer. *)
Record Answers := {
  validateDeletion : option error;
  restConfig : option error;
  kubeClient : option error;
  scclient : option error;
  dClient : option error;
  metadataProvider : option error
}.

(** The calls made, in order, and the error returned ([None]: a [Deletion]). *)
Definition NewDeletion (a : Answers) : list Call * option error :=
  match validateDeletion a with
  | Some err => ([ValidateDeletion], Some err)
  | None =>
  match restConfig a with
  | Some err => ([ValidateDeletion; RestConfig], Some err)
  | None =>
  match kubeClient a with
  | Some err => ([ValidateDeletion; RestConfig; KubernetesNewForConfig], Some err)
  | None =>
  match scclient a with
  | Some err =>
      ([ValidateDeletion; RestConfig; KubernetesNewForConfig; ClientsetNewForConfig], Some err)
  | None =>
  match dClient a with
  | Some err =>
      ([ValidateDeletion; RestConfig; KubernetesNewForConfig; ClientsetNewForConfig;
        DynamicNewForConfig], Some err)
  | None =>
      let made := [ValidateDeletion; RestConfig; KubernetesNewForConfig; ClientsetNewForConfig;
                   DynamicNewForConfig; registerOverridesInterceptors; newCore;
                   NewKymaMetadataProvider] in
      match metadataProvider a with
      | Some err => (made, Some err)
      | None => (made, None)
      end
  end end end end end.

(** The fallible calls in the order of the function body, with their answers. *)
Definition checks (a : Answers) : list (Call * option error) :=
  [(ValidateDeletion, validateDeletion a); (RestConfig, restConfig a);
   (KubernetesNewForConfig, kubeClient a); (ClientsetNewForConfig, scclient a);
   (DynamicNewForConfig, dClient a); (NewKymaMetadataProvider, metadataProvider a)].

(** All the calls of the function body, in its order. *)
Definition allCalls : list Call :=
  [ValidateDeletion; RestConfig; KubernetesNewForConfig; ClientsetNewForConfig;
   DynamicNewForConfig; registerOverridesInterceptors; newCore; NewKymaMetadataProvider].

(** The first failing check. *)
Fixpoint firstFailure (l : list (Call * option error)) : option (Call * error) :=
  match l with
  | [] => None
  | (call, Some err) :: _ => Some (call, err)
  | (_, None) :: l' => firstFailure l'
  end.

End Construction.

(** ** The Terraform client: [internal/terraform/client.go] *)

Module Terraform.

(** Providers, provisioners, variable values and Terraform states are only
    stored and handed on; they are told apart by what they refer to. *)
Inductive ResourceProvider := NullProvider | Provider (ref : nat).   (* NullProvider: null.Provider() *)
Inductive ResourceProvisioner := Provisioner (ref : nat).
Inductive Value := VString (s : string) | VNumber (z : Z) | VBool (b : bool) | VOther (ref : nat).
Inductive State := StateRef (ref : nat).
Inductive ExecutionPlan := PlanRef (ref : nat).   (* terraform.Plan *)

#[global] Instance ResourceProvider_eq_dec : EqDecision ResourceProvider.
Proof. solve_decision. Defined.
#[global] Instance ResourceProvisioner_eq_dec : EqDecision ResourceProvisioner.
Proof. solve_decision. Defined.

(** [Platform].  A Go map may be nil ([None]): it reads as empty, and writing
    to it panics. *)
Record Platform := {
  Code : string;
  Providers : option (gmap string ResourceProvider);
  Provisioners : option (gmap string ResourceProvisioner);
  Vars : option (gmap string Value)
}.

Definition defaultProviders : gmap string ResourceProvider := {[ "null" := NullProvider ]}.
Definition defaultProvisioners : gmap string ResourceProvisioner := ∅.

Definition NewPlatform (code : string) : Platform :=
  {| Code := code; Providers := Some defaultProviders;
     Provisioners := Some defaultProvisioners; Vars := None |}.

(** [p.Providers[name] = provider]; [None]: assignment to entry in nil map. *)
Definition AddProvider (name : string) (provider : ResourceProvider) (p : Platform)
    : option Platform :=
  match Providers p with
  | Some m => Some {| Code := Code p; Providers := Some (<[name := provider]> m);
                      Provisioners := Provisioners p; Vars := Vars p |}
  | None => None
  end.

Definition AddProvisioner (name : string) (provisioner : ResourceProvisioner) (p : Platform)
    : option Platform :=
  match Provisioners p with
  | Some m => Some {| Code := Code p; Providers := Providers p;
                      Provisioners := Some (<[name := provisioner]> m); Vars := Vars p |}
  | None => None
  end.

(** [Var]: a nil or empty map is replaced by a new one first. *)
Definition Var (name : string) (value : Value) (p : Platform) : Platform :=
  let vars := match Vars p with
              | Some m => if decide (size m = 0%nat) then ∅ else m
              | None => ∅
              end in
  {| Code := Code p; Providers := Providers p; Provisioners := Provisioners p;
     Vars := Some (<[name := value]> vars) |}.

(** [BindVars]: the range over [vars] visits its entries in an order the
    runtime chooses. *)
Definition BindVarsIn (order : list (string * Value)) (p : Platform) : Platform :=
  foldl (λ p nv, Var nv.1 nv.2 p) p order.

Definition BindVars (vars : option (gmap string Value)) (p : Platform) : Platform :=
  BindVarsIn (map_to_list (default ∅ vars)) p.

(** [getProvisioners].  Each factory is a function literal that returns the
    loop variable [provisioner]: it holds the variable, not its value at the
    time.  [closures] says which variable a factory holds, [cells] what the
    variables hold when the loop is over.  With [perIteration] every
    iteration has a variable of its own (Go from 1.22 on); without, the loop
    has one variable that every iteration assigns (Go before 1.22). *)
Record Factories := {
  closures : gmap string nat;
  cells : gmap nat ResourceProvisioner
}.

Fixpoint rangeProvisioners (perIteration : bool) (i : nat)
    (order : list (string * ResourceProvisioner)) (fs : Factories) : Factories :=
  match order with
  | [] => fs
  | (name, provisioner) :: order' =>
      let cell := if perIteration then i else O in
      rangeProvisioners perIteration (S i) order'
        {| closures := <[name := cell]> (closures fs);
           cells := <[cell := provisioner]> (cells fs) |}
  end.

Definition getProvisionersIn (perIteration : bool) (order : list (string * ResourceProvisioner))
    : Factories :=
  rangeProvisioners perIteration 0 order {| closures := ∅; cells := ∅ |}.

Definition getProvisioners (perIteration : bool) (p : Platform) : Factories :=
  getProvisionersIn perIteration (map_to_list (default ∅ (Provisioners p))).

(** Calling the factory registered under [name]. *)
Definition callFactory (fs : Factories) (name : string) : option ResourceProvisioner :=
  closures fs !! name ≫= λ cell, cells fs !! cell.

(** [getProviderResolver]: every provider is passed by value to
    [ResourceProviderFactoryFixed], so the factory for a name yields the
    provider registered under it. *)
Definition getProviderResolver (p : Platform) : gmap string ResourceProvider :=
  default ∅ (Providers p).

(** *** [module], [newContext], [Apply], [Plan] *)

(** What the functions do to the file system and to Terraform. *)
Inductive Call :=
| TempDir (dir pattern : string)
| Create (path : string)
| Copy (path content : string)
| Close (path : string)
| RemoveAll (path : string)
| NewTreeModule (name dir : string)
| Load (storageDir : string)
| Validate
| NewContext (destroy : bool) (state : State) (variables : option (gmap string Value))
    (providers : gmap string ResourceProvider) (provisioners : Factories)
| Refresh
| PlanCall
| ApplyCall
| StateCall.

(** What the outside answers. *)
Record World := {
  tempDir : string * option error;      (* ioutil.TempDir *)
  create : option error;                (* os.Create *)
  copy : option error;                  (* io.Copy *)
  newTreeModule : option error;
  load : option error;                  (* mod.Load *)
  validate : option error;              (* mod.Validate().Err() *)
  newContextErr : option error;         (* terraform.NewContext *)
  refresh : option error;
  plan : ExecutionPlan * option error;
  apply : option error;
  stateAfter : State;                   (* ctx.State() *)
  perIteration : bool                   (* the Go version's loop variables *)
}.

(** [filepath.Join] of a clean directory path and a name. *)
Definition Join (dir name : string) : string := dir +:+ "/" +:+ name.

(** [module]: the calls made, deferred ones included, and the error
    ([None]: the module tree). *)
Definition module (p : Platform) (w : World) : list Call * option error :=
  if Nat.eqb (String.length (Code p)) 0 then ([], Some (errorString "no code to apply")) else
  let cfgPath := (tempDir w).1 in
  match (tempDir w).2 with
  | Some err => ([TempDir "" ".hydroform"], Some err)
  | None =>
      (* defer os.RemoveAll(cfgPath) *)
      let cfgFileName := Join cfgPath "main.tf" in
      match create w with
      | Some err => ([TempDir "" ".hydroform"; Create cfgFileName; RemoveAll cfgPath], Some err)
      | None =>
          (* defer cfgFile.Close() *)
          let body :=
            match copy w with
            | Some err => ([Copy cfgFileName (Code p)], Some err)
            | None =>
                match newTreeModule w with
                | Some err =>
                    ([Copy cfgFileName (Code p); NewTreeModule "testModule" cfgPath], Some err)
                | None =>
                    match load w with
                    | Some err =>
                        ([Copy cfgFileName (Code p); NewTreeModule "testModule" cfgPath;
                          Load (Join cfgPath "modules")],
                         Some (errorString ("failed to load the modules. " +:+ Error err)))
                    | None =>
                        ([Copy cfgFileName (Code p); NewTreeModule "testModule" cfgPath;
                          Load (Join cfgPath "modules"); Validate],
                         match validate w with
                         | Some err =>
                             Some (errorString ("failed Terraform code validation. " +:+ Error err))
                         | None => None
                         end)
                    end
                end
            end in
          (TempDir "" ".hydroform" :: Create cfgFileName :: body.1
             ++ [Close cfgFileName; RemoveAll cfgPath], body.2)
      end
  end.

(** [newContext]: [None] as error means a context was made. *)
Definition newContext (p : Platform) (state : State) (destroy : bool) (w : World)
    : list Call * option error :=
  let '(calls, err) := module p w in
  match err with
  | Some e => (calls, Some e)
  | None =>
      (calls ++ [NewContext destroy state (Vars p) (getProviderResolver p)
                   (getProvisioners (perIteration w) p)],
       newContextErr w)
  end.

Definition Apply (p : Platform) (state : State) (destroy : bool) (w : World)
    : list Call * (State * option error) :=
  let '(calls, err) := newContext p state destroy w in
  match err with
  | Some e => (calls, (state, Some e))
  | None =>
      match refresh w with
      | Some e => (calls ++ [Refresh], (state, Some e))
      | None =>
          match (plan w).2 with
          | Some e => (calls ++ [Refresh; PlanCall], (state, Some e))
          | None => (calls ++ [Refresh; PlanCall; ApplyCall; StateCall], (stateAfter w, apply w))
          end
      end
  end.

Definition Plan (p : Platform) (state : State) (destroy : bool) (w : World)
    : list Call * (option ExecutionPlan * option error) :=
  let '(calls, err) := newContext p state destroy w in
  match err with
  | Some e => (calls, (None, Some e))
  | None =>
      match refresh w with
      | Some e => (calls ++ [Refresh], (None, Some e))
      | None =>
          match (plan w).2 with
          | Some e => (calls ++ [Refresh; PlanCall], (None, Some e))
          | None => (calls ++ [Refresh; PlanCall], (Some (plan w).1, None))
          end
      end
  end.

End Terraform.

Module TerraformSpec.
Import Terraform.

(** The operations with which a platform is built up. *)
Inductive Build :=
| addProvider (name : string) (provider : ResourceProvider)
| addProvisioner (name : string) (provisioner : ResourceProvisioner)
| setVar (name : string) (value : Value)
| bindVars (order : list (string * Value)).

Definition build (b : Build) (p : Platform) : option Platform :=
  match b with
  | addProvider name provider => AddProvider name provider p
  | addProvisioner name provisioner => AddProvisioner name provisioner p
  | setVar name value => Some (Var name value p)
  | bindVars order => Some (BindVarsIn order p)
  end.

Definition buildAll (bs : list Build) (p : Platform) : option Platform :=
  foldl (λ o b, o ≫= build b) (Some p) bs.

Definition addsProvider (name : string) (b : Build) : bool :=
  match b with
  | addProvider name' _ => bool_decide (name' = name)
  | _ => false
  end.

Definition addsAProvider (b : Build) : bool :=
  match b with
  | addProvider _ _ => true
  | _ => false
  end.

Definition addsAProvisioner (b : Build) : bool :=
  match b with
  | addProvisioner _ _ => true
  | _ => false
  end.

Definition isCtxCall (call : Call) : bool :=
  match call with
  | NewContext _ _ _ _ _ | Refresh | PlanCall | ApplyCall | StateCall => true
  | _ => false
  end.

Definition isApply (call : Call) : bool :=
  match call with
  | ApplyCall => true
  | _ => false
  end.

Definition removals (calls : list Call) : list string :=
  omap (λ call, match call with RemoveAll path => Some path | _ => None end) calls.

Definition closings (calls : list Call) : list string :=
  omap (λ call, match call with Close path => Some path | _ => None end) calls.

(** Sample platform and world. *)
Definition samplePlatform : Platform :=
  Var "region" (VString "europe-west3") (NewPlatform "resource null_resource a {}").

Definition quietWorld : World :=
  {| tempDir := ("/tmp/.hydroform123", None); create := None; copy := None;
     newTreeModule := None; load := None; validate := None; newContextErr := None;
     refresh := None; plan := (PlanRef 1, None); apply := None; stateAfter := StateRef 2;
     perIteration := false |}.

End TerraformSpec.

(** ** The supervisor *)

Section SupervisorFacts.
Import Supervisor SupervisorSpec.

Lemma int_wrap_id z : int_min ≤ z ≤ int_max → int_wrap z = z.
Proof.
  unfold int_min, int_max, int_wrap. intros H.
  rewrite Z.mod_small; lia.
Qed.

Lemma errorsSeen_nonneg sel : 0 ≤ errorsSeen sel.
Proof. induction sel as [|c sel IH]; simpl; [lia|]. destruct (isError c); lia. Qed.

Lemma errorsSeen_app l1 l2 : errorsSeen (l1 ++ l2) = errorsSeen l1 + errorsSeen l2.
Proof. induction l1 as [|c l1 IH]; simpl; [done|]. rewrite IH. lia. Qed.

Lemma prepend_effects effs r : effects (prepend effs r) = effs ++ effects r.
Proof. induction effs as [|e effs IH]; simpl; [done|]. by rewrite IH. Qed.

Lemma prepend_returned effs r : returned (prepend effs r) = returned r.
Proof. induction effs as [|e effs IH]; simpl; done. Qed.

Lemma prepend_unread effs r : unread (prepend effs r) = unread r.
Proof. induction effs as [|e effs IH]; simpl; done. Qed.

Lemma lifecycle_app l1 l2 : lifecycle (l1 ++ l2) = lifecycle l1 ++ lifecycle l2.
Proof. apply omap_app. Qed.

(** While only status events and the soft-cancel timer are taken, the loop
    goes on: it emits no lifecycle notification, counts the Error statuses
    and remembers the timeout. *)
Lemma UninstallLoop_waiting phase ct pre tail :
  Forall (λ c, keepsWaiting c = true) pre →
  ∀ sm n t, 0 ≤ n → n + errorsSeen pre ≤ int_max →
  ∃ effs sm',
    lifecycle effs = [] ∧
    UninstallLoop phase ct (pre ++ tail) sm n t
    = prepend effs (UninstallLoop phase ct tail sm' (n + errorsSeen pre) (t || cancelSeen pre)).
Proof.
  induction 1 as [|c pre Hc Hpre IH]; intros sm n t Hn Hmax.
  - exists [], sm. simpl. by rewrite Z.add_0_r, orb_false_r.
  - pose proof (errorsSeen_nonneg pre) as Hpos.
    destruct c as [cmp| | |]; try discriminate Hc; simpl in *.
    + destruct (String.eqb (Status cmp) StatusError) eqn:E.
      * destruct (IH (<[Name cmp:=Status cmp]> sm) (n + 1) t) as (effs & sm' & Hl & Heq); [lia..|].
        exists (processUpdateComponent phase cmp :: effs), sm'. split; [done|].
        rewrite int_wrap_id by (unfold int_min, int_max in *; lia).
        simpl. rewrite Heq. do 3 f_equal. lia.
      * destruct (IH (<[Name cmp:=Status cmp]> sm) n t) as (effs & sm' & Hl & Heq); [lia..|].
        exists (processUpdateComponent phase cmp :: effs), sm'. split; [done|].
        simpl. by rewrite Heq.
    + destruct (IH sm n true) as (effs & sm' & Hl & Heq); [lia..|].
      exists (Log ErrorLevel "Timeout occurred after %v minutes. Cancelling uninstallation"
                [ArgMinutes ct] :: cancelFunc :: effs), sm'.
      split; [exact Hl|].
      simpl. rewrite Heq. rewrite Z.add_0_l. by rewrite orb_true_r.
Qed.

Lemma uninstallComponents_started phase eng ct qt :
  uninstallErr eng = None →
  let r := uninstallComponents phase eng ct qt in
  let loop := UninstallLoop phase ct (selects eng) ∅ 0 false in
  effects r = [TimeAfter ct; TimeAfter qt; EngineUninstall phase; processUpdate phase ProcessStart None]
              ++ effects loop ∧
  returned r = returned loop ∧ unread r = unread loop.
Proof. intros H. unfold uninstallComponents. rewrite H. done. Qed.

End SupervisorFacts.

Section SupervisorClaims.
Import Supervisor SupervisorSpec.

Lemma string_app_length (s t : string) :
  String.length (s +:+ t) = (String.length s + String.length t)%nat.
Proof. induction s as [|a s IH]; simpl; [done|]. by rewrite IH. Qed.

Lemma string_app_inv_tail (s1 s2 t : string) : s1 +:+ t = s2 +:+ t → s1 = s2.
Proof.
  revert s2. induction s1 as [|a s1 IH]; intros [|b s2] H; simpl in H.
  - done.
  - apply (f_equal String.length) in H. rewrite ?string_app_length in H. simpl in H.
    rewrite ?string_app_length in H. lia.
  - apply (f_equal String.length) in H. rewrite ?string_app_length in H. simpl in H.
    rewrite ?string_app_length in H. lia.
  - injection H as -> H. f_equal. by apply IH.
Qed.

(** The message of a component failure tells the count. *)
Lemma componentsFailed_inj n m : componentsFailed n = componentsFailed m → n = m.
Proof.
  unfold componentsFailed. intros H. injection H as H.
  change ("" +:+ ?x) with x in H.
  apply string_app_inv_tail in H.
  by apply (inj pretty) in H.
Qed.

(** C1. When the select comes to see the status stream closed (after status
    events and possibly the soft-cancel timer, the engine having handed out a
    stream): with at least one Error status received the call returns the
    component-failure error, whose message carries exactly the number of Error
    statuses received; otherwise, with the soft-cancel timer taken before, it
    returns the timeout error; otherwise it returns nil.  The notifications
    are Start followed by the matching terminal one.  The count is a Go int,
    so the number of Error statuses is taken to fit one. *)
Theorem uninstallComponents_at_stream_close phase eng ct qt pre rest :
  uninstallErr eng = None →
  selects eng = pre ++ statusChanClosed :: rest →
  Forall (λ c, keepsWaiting c = true) pre →
  errorsSeen pre ≤ int_max →
  let r := uninstallComponents phase eng ct qt in
  let outcome := atClose (errorsSeen pre) (cancelSeen pre) in
  returned r = Some outcome.2 ∧
  lifecycle (effects r) = [(phase, ProcessStart, None); (phase, outcome.1, outcome.2)] ∧
  (errorsSeen pre > 0 →
     outcome = (ProcessExecutionFailure, Some (componentsFailed (errorsSeen pre))) ∧
     ∀ n, componentsFailed n = componentsFailed (errorsSeen pre) → n = errorsSeen pre) ∧
  (errorsSeen pre = 0 → cancelSeen pre = true →
     outcome = (ProcessTimeoutFailure, Some timeoutFailed)) ∧
  (errorsSeen pre = 0 → cancelSeen pre = false → outcome = (ProcessFinished, None)).
Proof.
  intros Herr Hsel Hpre Hmax r outcome.
  assert (Hrun : returned r = Some outcome.2 ∧
                 lifecycle (effects r) = [(phase, ProcessStart, None); (phase, outcome.1, outcome.2)]).
  { subst r outcome.
    destruct (uninstallComponents_started phase eng ct qt Herr) as (-> & -> & _).
    rewrite Hsel.
    destruct (UninstallLoop_waiting phase ct pre (statusChanClosed :: rest) Hpre ∅ 0 false)
      as (effs & sm' & Hl & ->); [lia | lia |].
    rewrite prepend_returned, prepend_effects, !lifecycle_app, Hl.
    rewrite Z.add_0_l, orb_false_l.
    unfold atClose. simpl.
    destruct (errorsSeen pre >? 0); [done|]. by destruct (cancelSeen pre). }
  destruct Hrun as [Hret Hlife]. split; [done|]. split; [done|].
  subst outcome. unfold atClose. repeat split.
  - destruct (errorsSeen pre >? 0) eqn:E; [done|lia].
  - intros n. apply componentsFailed_inj.
  - intros -> ->. done.
  - intros -> ->. done.
Qed.

Lemma uninstallComponents_at_stream_close_witness :
  let eng := {| uninstallErr := None;
                selects := [statusChan sampleSuccess; statusChan sampleError; cancelTimeoutChan;
                            statusChan sampleError; statusChan sampleSuccess; statusChanClosed] |} in
  let r := uninstallComponents UninstallComponents eng 600 1200 in
  returned r = Some (Some (componentsFailed 2)) ∧
  lifecycle (effects r)
  = [(UninstallComponents, ProcessStart, None);
     (UninstallComponents, ProcessExecutionFailure, Some (componentsFailed 2))].
Proof.
  pose proof (uninstallComponents_at_stream_close UninstallComponents
    {| uninstallErr := None;
       selects := [statusChan sampleSuccess; statusChan sampleError; cancelTimeoutChan;
                   statusChan sampleError; statusChan sampleSuccess; statusChanClosed] |}
    600 1200
    [statusChan sampleSuccess; statusChan sampleError; cancelTimeoutChan;
     statusChan sampleError; statusChan sampleSuccess] []
    eq_refl eq_refl) as H.
  destruct H as (H1 & H2 & _).
  - repeat constructor.
  - vm_compute. discriminate.
  - split; [exact H1 | exact H2].
Defined.

Lemma UninstallLoop_quit_rest phase ct pre rest rest' :
  Forall (λ c, keepsWaiting c = true) pre →
  ∀ sm n t,
    effects (UninstallLoop phase ct (pre ++ quitTimeoutChan :: rest') sm n t)
    = effects (UninstallLoop phase ct (pre ++ quitTimeoutChan :: rest) sm n t) ∧
    returned (UninstallLoop phase ct (pre ++ quitTimeoutChan :: rest') sm n t)
    = returned (UninstallLoop phase ct (pre ++ quitTimeoutChan :: rest) sm n t).
Proof.
  induction 1 as [|c pre Hc Hpre IH]; intros sm n t; [done|].
  destruct c as [cmp| | |]; try discriminate Hc; simpl.
  - destruct (IH (<[Name cmp:=Status cmp]> sm)
               (if String.eqb (Status cmp) StatusError then int_wrap (n + 1) else n) t) as [-> ->].
    done.
  - destruct (IH sm n true) as [-> ->]. done.
Qed.

Lemma UninstallLoop_quit phase ct pre rest :
  Forall (λ c, keepsWaiting c = true) pre →
  ∀ sm n t,
    let loop := UninstallLoop phase ct (pre ++ quitTimeoutChan :: rest) sm n t in
    returned loop = Some (Some forceQuit) ∧ unread loop = rest ∧
    lifecycle (effects loop) = [(phase, ProcessForceQuitFailure, Some forceQuit)].
Proof.
  induction 1 as [|c pre Hc Hpre IH]; intros sm n t; [done|].
  destruct c as [cmp| | |]; try discriminate Hc; simpl.
  - apply IH.
  - apply IH.
Qed.

(** C5. When the select takes the hard-quit timer while the loop is waiting,
    the call returns the force-quit error at once: the terminal notification
    is ForceQuitFailure, and whatever the select could have taken afterwards
    is left untouched and changes nothing. *)
Theorem uninstallComponents_force_quit phase eng ct qt pre rest :
  uninstallErr eng = None →
  selects eng = pre ++ quitTimeoutChan :: rest →
  Forall (λ c, keepsWaiting c = true) pre →
  let r := uninstallComponents phase eng ct qt in
  returned r = Some (Some forceQuit) ∧
  unread r = rest ∧
  lifecycle (effects r)
  = [(phase, ProcessStart, None); (phase, ProcessForceQuitFailure, Some forceQuit)] ∧
  ∀ rest',
    let r' := uninstallComponents phase
                {| uninstallErr := None; selects := pre ++ quitTimeoutChan :: rest' |} ct qt in
    effects r' = effects r ∧ returned r' = returned r.
Proof.
  intros Herr Hsel Hpre r. subst r.
  destruct (uninstallComponents_started phase eng ct qt Herr) as (-> & -> & ->).
  rewrite Hsel.
  destruct (UninstallLoop_quit phase ct pre rest Hpre ∅ 0 false) as (-> & -> & Hl).
  split; [done|]. split; [done|]. split.
  - by rewrite lifecycle_app, Hl.
  - intros rest' r'. subst r'.
    destruct (uninstallComponents_started phase
      {| uninstallErr := None; selects := pre ++ quitTimeoutChan :: rest' |} ct qt eq_refl)
      as (-> & -> & _).
    cbn [selects].
    destruct (UninstallLoop_quit_rest phase ct pre rest rest' Hpre ∅ 0 false) as [-> ->].
    split; [done|].
    by destruct (UninstallLoop_quit phase ct pre rest Hpre ∅ 0 false) as (-> & _).
Qed.

Lemma uninstallComponents_force_quit_witness :
  let eng := {| uninstallErr := None;
                selects := [statusChan sampleSuccess; cancelTimeoutChan; quitTimeoutChan;
                            statusChan sampleError; statusChanClosed] |} in
  let r := uninstallComponents UninstallPreRequisites eng 0 60 in
  returned r = Some (Some forceQuit) ∧ unread r = [statusChan sampleError; statusChanClosed].
Proof.
  pose proof (uninstallComponents_force_quit UninstallPreRequisites
    {| uninstallErr := None;
       selects := [statusChan sampleSuccess; cancelTimeoutChan; quitTimeoutChan;
                   statusChan sampleError; statusChanClosed] |}
    0 60 [statusChan sampleSuccess; cancelTimeoutChan] [statusChan sampleError; statusChanClosed]
    eq_refl eq_refl) as H.
  destruct H as (H1 & H2 & _).
  - repeat constructor.
  - split; [exact H1 | exact H2].
Defined.

(** The loop alone: no notification while it waits, one terminal
    notification when it returns, Finished exactly for a nil result. *)
Lemma UninstallLoop_lifecycle phase ct sel :
  ∀ sm n t,
    let loop := UninstallLoop phase ct sel sm n t in
    match returned loop with
    | Some res =>
        ∃ event, terminal event = true ∧ (event = ProcessFinished ↔ res = None) ∧
                 lifecycle (effects loop) = [(phase, event, res)]
    | None => lifecycle (effects loop) = []
    end.
Proof.
  induction sel as [|c sel IH]; intros sm n t; [done|].
  destruct c as [cmp| | |]; simpl.
  - apply IH.
  - destruct (n >? 0); [|destruct t]; simpl.
    + exists ProcessExecutionFailure. by repeat split.
    + exists ProcessTimeoutFailure. by repeat split.
    + exists ProcessFinished. by repeat split.
  - apply IH.
  - exists ProcessForceQuitFailure. by repeat split.
Qed.

(** C6, on the code.  When [eng.Uninstall] hands out a stream, the call emits
    Start first and, if it returns, exactly one terminal notification
    (Finished for nil, a failure otherwise) and nothing else of the kind;
    as long as it waits, Start is all there is.  When [eng.Uninstall] itself
    fails, the call returns that error and emits no notification at all. *)
Theorem uninstallComponents_lifecycle phase eng ct qt :
  let r := uninstallComponents phase eng ct qt in
  match uninstallErr eng with
  | Some err => returned r = Some (Some err) ∧ lifecycle (effects r) = []
  | None =>
      match returned r with
      | Some res =>
          ∃ event, terminal event = true ∧ (event = ProcessFinished ↔ res = None) ∧
                   lifecycle (effects r) = [(phase, ProcessStart, None); (phase, event, res)]
      | None => lifecycle (effects r) = [(phase, ProcessStart, None)]
      end
  end.
Proof.
  intros r. subst r. destruct (uninstallErr eng) as [err|] eqn:Herr.
  - unfold uninstallComponents. by rewrite Herr.
  - destruct (uninstallComponents_started phase eng ct qt Herr) as (-> & -> & _).
    pose proof (UninstallLoop_lifecycle phase ct (selects eng) ∅ 0 false) as H.
    simpl in H. destruct (returned _) as [res|].
    + destruct H as (event & Ht & Hf & Hl). exists event.
      by rewrite lifecycle_app, Hl.
    + by rewrite lifecycle_app, H.
Qed.

(** C6 as stated fails: with an engine that cannot start, the call returns
    without a Start and without a terminal notification. *)
Lemma uninstallComponents_silent_on_engine_error :
  let r := uninstallComponents UninstallComponents
             {| uninstallErr := Some engineDown; selects := [] |} 600 1200 in
  returned r = Some (Some engineDown) ∧
  lifecycle (effects r) = [] ∧
  processUpdate UninstallComponents ProcessStart None ∉ effects r.
Proof.
  split; [done|]. split; [done|].
  vm_compute. intros H. repeat (apply elem_of_cons in H as [H|H]; [discriminate H|]).
  by apply elem_of_nil in H.
Qed.

End SupervisorClaims.

(** ** The orchestrator *)

Section OrchestratorClaims.
Import Orchestrator OrchestratorSpec.

Lemma calculateDuration_nonneg startTime endTime duration :
  0 ≤ calculateDuration startTime endTime duration.
Proof. unfold calculateDuration. lia. Qed.

(** C2. Whenever the components phase ends cleanly, the supervisor is called
    for the prerequisites exactly once, with a cancel and a quit budget of
    max(0, configured budget - elapsed) each, where elapsed is the time
    between the two clock readings around the components phase; neither
    budget is negative, whatever the elapsed time. *)
Theorem prerequisites_budgets cfg w :
  (mpNamespaces w).2 = None →
  Supervisor.returned (Supervisor.uninstallComponents UninstallComponents (componentsEng w)
                         (CancelTimeout cfg) (QuitTimeout cfg)) = Some None →
  let elapsed := endTime w - startTime w in
  let run := startKymaUninstallation cfg w in
  budgetsOf UninstallPreRequisites (steps run)
  = [(Z.max 0 (CancelTimeout cfg - elapsed), Z.max 0 (QuitTimeout cfg - elapsed))] ∧
  budgetsOf UninstallComponents (steps run) = [(CancelTimeout cfg, QuitTimeout cfg)] ∧
  uninstallComponentsCall UninstallPreRequisites
    (Z.max 0 (CancelTimeout cfg - elapsed)) (Z.max 0 (QuitTimeout cfg - elapsed))
    (Supervisor.uninstallComponents UninstallPreRequisites (prerequisitesEng w)
       (Z.max 0 (CancelTimeout cfg - elapsed)) (Z.max 0 (QuitTimeout cfg - elapsed)))
    ∈ steps run ∧
  0 ≤ Z.max 0 (CancelTimeout cfg - elapsed) ∧ 0 ≤ Z.max 0 (QuitTimeout cfg - elapsed).
Proof.
  intros Hns H1 elapsed run. subst run elapsed.
  unfold startKymaUninstallation. rewrite Hns, H1. unfold calculateDuration.
  clear H1. repeat split; try lia.
  - destruct (Supervisor.returned _) as [[err|]|]; [reflexivity| |reflexivity].
    by destruct (Teardown.result _).
  - destruct (Supervisor.returned _) as [[err|]|]; [reflexivity| |reflexivity].
    by destruct (Teardown.result _).
  - destruct (Supervisor.returned _) as [[err|]|]; cbn [leave stuck steps];
      [set_solver| |set_solver].
    destruct (Teardown.result _); cbn [leave stuck steps]; set_solver.
Qed.

Lemma prerequisites_budgets_witness :
  budgetsOf UninstallPreRequisites (steps (startKymaUninstallation tenMinutes slowWorld))
  = [(0, 3 * minute)].
Proof.
  pose proof (prerequisites_budgets tenMinutes slowWorld eq_refl eq_refl) as H.
  destruct H as (H & _). exact H.
Defined.

(** C3. When the components phase returns an error, the orchestrator returns
    that very error, and the supervisor call for the components is the only
    call it has made: no supervisor call for the prerequisites, no teardown.
    When the components phase ends cleanly and the prerequisites phase
    returns an error, that error is returned and no teardown has been
    called. *)
Theorem phase_failure_aborts cfg w :
  (mpNamespaces w).2 = None →
  let r1 := Supervisor.uninstallComponents UninstallComponents (componentsEng w)
              (CancelTimeout cfg) (QuitTimeout cfg) in
  let r2 := Supervisor.uninstallComponents UninstallPreRequisites (prerequisitesEng w)
              (calculateDuration (startTime w) (endTime w) (CancelTimeout cfg))
              (calculateDuration (startTime w) (endTime w) (QuitTimeout cfg)) in
  let run := startKymaUninstallation cfg w in
  (∀ err, Supervisor.returned r1 = Some (Some err) →
     returned run = Some (Some err) ∧
     steps run = [effect (Log Info "Kyma uninstallation started" []);
                  uninstallComponentsCall UninstallComponents (CancelTimeout cfg) (QuitTimeout cfg) r1;
                  effect cancelFunc] ∧
     existsb (isPhaseCall UninstallPreRequisites) (steps run) = false ∧
     existsb isTeardownCall (steps run) = false) ∧
  (∀ err, Supervisor.returned r1 = Some None → Supervisor.returned r2 = Some (Some err) →
     returned run = Some (Some err) ∧
     existsb isTeardownCall (steps run) = false).
Proof.
  intros Hns r1 r2 run. subst run. unfold startKymaUninstallation. rewrite Hns.
  fold r1. split.
  - intros err H1. rewrite H1. cbn. done.
  - intros err H1 H2. rewrite H1. fold r2. rewrite H2. done.
Qed.

Lemma phase_failure_aborts_witness :
  returned (startKymaUninstallation tenMinutes failingWorld)
  = Some (Some (Supervisor.componentsFailed 1)) ∧
  existsb isTeardownCall (steps (startKymaUninstallation tenMinutes failingWorld)) = false ∧
  returned (startKymaUninstallation tenMinutes lateWorld) = Some (Some Supervisor.forceQuit).
Proof.
  pose proof (phase_failure_aborts tenMinutes failingWorld eq_refl) as [H _].
  pose proof (phase_failure_aborts tenMinutes lateWorld eq_refl) as [_ H'].
  destruct (H (Supervisor.componentsFailed 1) eq_refl) as (H1 & _ & _ & H2).
  destruct (H' Supervisor.forceQuit eq_refl eq_refl) as (H3 & _).
  split; [exact H1|]. split; [exact H2 | exact H3].
Defined.

End OrchestratorClaims.

(** ** The teardown coordinator *)

Section TeardownFacts.
Import Teardown TeardownSpec TeardownMore.

Variable c : Cluster.
Variable attempts : nat.

Lemma lookup_middle (ws : list Worker) w wk :
  ws !! w = Some wk →
  ∃ l1 l2, ws = l1 ++ wk :: l2 ∧ ∀ wk', <[w := wk']> ws = l1 ++ wk' :: l2.
Proof.
  intros H. apply list_elem_of_split_length in H as (l1 & l2 & -> & ->).
  exists l1, l2. split; [done|]. intros wk'.
  rewrite insert_app_r_alt by lia. by rewrite Nat.sub_diag.
Qed.

Lemma wgDone_cases s :
  wgDone s = crash s ∧ wg s - 1 < 0 ∨ wgDone s = setWg (wg s - 1) s ∧ 0 ≤ wg s - 1.
Proof. unfold wgDone. destruct (wg s - 1 <? 0) eqn:E; [left|right]; split; auto; lia. Qed.

Lemma wgDone_fields s :
  caller (wgDone s) = caller s ∧ workers (wgDone s) = workers s ∧
  closer (wgDone s) = closer s ∧ trace (wgDone s) = trace s ∧ received (wgDone s) = received s.
Proof. unfold wgDone. by destruct (wg s - 1 <? 0). Qed.

Lemma pending_app l1 l2 : pending (l1 ++ l2) = pending l1 ++ pending l2.
Proof. apply bind_app. Qed.

Lemma allSends_app l1 l2 : allSends c (l1 ++ l2) = allSends c l1 ++ allSends c l2.
Proof. apply bind_app. Qed.

Lemma step_Transition ch s s' : step c attempts ch s = Some s' → Transition c attempts s s'.
Proof.
  unfold step. destruct (crashed s) eqn:Hc; [done|]. destruct ch.
  - unfold stepCaller. destruct (caller s) as [i [|ns rest]| | |] eqn:Hpc; try done.
    + intros [= <-]. by eapply t_select.
    + destruct (retryDo (closure c i ns) attempts 0) as [effs r] eqn:Hr.
      destruct r; intros [= <-].
      * by eapply t_pass.
      * by eapply t_skip.
      * by eapply t_block.
      * by eapply t_nil.
  - unfold stepWorker. destruct (workers s !! w) as [wk|] eqn:Hw; [|done].
    destruct (exited wk) eqn:He; [done|].
    destruct (todo wk) as [|[e|err|] rest] eqn:Ht.
    + intros [= <-]. by eapply t_exit.
    + intros [= <-]. by eapply t_do.
    + destruct (errorChClosed s) eqn:Hcl; [|done]. intros [= <-]. by eapply t_send_closed.
    + intros [= <-]. by eapply t_panic.
  - unfold stepRecvError. destruct (caller s) as [| |errWrapped|] eqn:Hpc; try done.
    destruct (workers s !! w) as [wk|] eqn:Hw; [|done].
    destruct (todo wk) as [|[e|err|] rest] eqn:Ht; try done.
    destruct (exited wk) eqn:He; [done|]. destruct (errorChClosed s) eqn:Hcl; [done|].
    intros [= <-]. by eapply t_recv.
  - destruct (caller s) as [| |errWrapped|] eqn:Hpc; try done.
    destruct (errorChClosed s) eqn:Hcl; [|done]. intros [= <-]. by eapply t_recv_nil.
  - destruct (caller s) as [| |errWrapped|] eqn:Hpc; try done.
    unfold finishedChClosed. destruct (closer s) eqn:Hcl; try done.
    intros [= <-]. by eapply t_finished.
  - unfold stepCloser. destruct (closer s) eqn:Hcl; try done.
    + destruct (wg s =? 0) eqn:E; [|done]. intros [= <-]. eapply t_close_errorCh; auto. lia.
    + intros [= <-]. by eapply t_close_finishedCh.
Qed.

(** A property kept by every transition holds after every schedule. *)
Lemma run_invariant (P : State → Prop) sched s :
  (∀ s s', Transition c attempts s s' → P s → P s') → P s → P (run c attempts sched s).
Proof.
  intros Hstep. revert s. induction sched as [|ch sched IH]; intros s Hs; [done|].
  simpl. apply IH. destruct (step c attempts ch s) as [s'|] eqn:E; [|done].
  simpl. eapply Hstep; [by eapply step_Transition|done].
Qed.

Lemma wgDone_caller s : caller (wgDone s) = caller s.
Proof. apply wgDone_fields. Qed.
Lemma wgDone_workers s : workers (wgDone s) = workers s.
Proof. apply wgDone_fields. Qed.
Lemma wgDone_closer s : closer (wgDone s) = closer s.
Proof. apply wgDone_fields. Qed.
Lemma wgDone_trace s : trace (wgDone s) = trace s.
Proof. apply wgDone_fields. Qed.
Lemma wgDone_received s : received (wgDone s) = received s.
Proof. apply wgDone_fields. Qed.

(** Reading the fields of a state written as updates of another. *)
Ltac fields_step :=
  cbn [caller workers wg closer crashed trace received
       setCaller setWorkers setWg setCloser crash record receive
       position namespace todo exited spawn proceed finish].
Ltac fields :=
  fields_step;
  repeat (progress (rewrite ?wgDone_caller, ?wgDone_workers, ?wgDone_closer,
                      ?wgDone_trace, ?wgDone_received); fields_step).

Lemma pending_cons wk l : pending (wk :: l) = sends (todo wk) ++ pending l.
Proof. done. Qed.

Lemma allSends_cons wk l :
  allSends c (wk :: l) = sends (worker c (position wk) (namespace wk)) ++ allSends c l.
Proof. done. Qed.

Lemma pending_insert_same ws w wk wk' :
  ws !! w = Some wk → sends (todo wk') = sends (todo wk) →
  pending (<[w:=wk']> ws) = pending ws.
Proof.
  intros (l1 & l2 & -> & Hins)%lookup_middle Heq. rewrite Hins.
  by rewrite !pending_app, !pending_cons, Heq.
Qed.

Lemma pending_insert_recv ws w wk wk' err :
  ws !! w = Some wk → sends (todo wk) = err :: sends (todo wk') →
  pending ws ≡ₚ err :: pending (<[w:=wk']> ws).
Proof.
  intros (l1 & l2 & -> & Hins)%lookup_middle Heq. rewrite Hins.
  rewrite !pending_app, !pending_cons, Heq.
  rewrite <- app_comm_cons. symmetry. apply Permutation_middle.
Qed.

Lemma allSends_insert ws w wk wk' :
  ws !! w = Some wk → key wk' = key wk →
  allSends c (<[w:=wk']> ws) = allSends c ws.
Proof.
  intros (l1 & l2 & -> & Hins)%lookup_middle [= Hp Hn]. rewrite Hins.
  by rewrite !allSends_app, !allSends_cons, Hp, Hn.
Qed.

(** *** What was received is what was sent *)

Lemma Transition_ErrInv s s' : Transition c attempts s s' → ErrInv c s → ErrInv c s'.
Proof.
  intros H [Hagg Hperm]. unfold ErrInv.
  destruct H; fields; try done.
  - rewrite H0 in Hagg. rewrite Hagg in *. split; [done|].
    rewrite pending_app, allSends_app. simpl in *. by apply Permutation_app.
  - by rewrite H0 in *.
  - by rewrite H0 in *.
  - rewrite H0 in Hagg. by rewrite Hagg in *.
  - erewrite pending_insert_same, allSends_insert; [done|done|done|done|].
    simpl. by rewrite H2.
  - erewrite pending_insert_same, allSends_insert; [done|done|done|done|].
    simpl. by rewrite H2.
  - rewrite H0 in Hagg. split.
    + unfold combined. by rewrite foldl_snoc, Hagg.
    + erewrite allSends_insert; [|done..]. rewrite <- Hperm.
      rewrite (pending_insert_recv (workers s) w wk (proceed wk rest) err); [|done|].
      * rewrite <- app_assoc. simpl. done.
      * simpl. by rewrite H3.
  - by rewrite H0 in *.
Qed.

Lemma start_ErrInv nss : ErrInv c (start nss).
Proof. done. Qed.

Lemma reachable_ErrInv nss s : reachable c attempts nss s → ErrInv c s.
Proof.
  intros [sched ->]. unfold deleteKymaNamespaces.
  apply (run_invariant (ErrInv c)); [apply Transition_ErrInv | apply start_ErrInv].
Qed.

(** *** The wait group and the two channels *)

Lemma active_app l1 l2 : active (l1 ++ l2) = (active l1 + active l2)%nat.
Proof. apply sum_list_with_app. Qed.

Lemma active_insert_finish ws w wk :
  ws !! w = Some wk → exited wk = false → active ws = S (active (<[w:=finish wk]> ws)).
Proof.
  intros (l1 & l2 & -> & Hins)%lookup_middle He. rewrite Hins, !active_app.
  unfold active at 2 4. simpl. rewrite He. lia.
Qed.

Lemma active_insert_proceed ws w wk rest :
  ws !! w = Some wk → exited wk = false → active (<[w:=proceed wk rest]> ws) = active ws.
Proof.
  intros (l1 & l2 & -> & Hins)%lookup_middle He. rewrite Hins, !active_app.
  unfold active at 2 4. simpl. by rewrite He.
Qed.

Lemma active_pos ws w wk : ws !! w = Some wk → exited wk = false → (0 < active ws)%nat.
Proof. intros Hw He. rewrite (active_insert_finish ws w wk Hw He). lia. Qed.

Lemma active_zero ws : active ws = O → Forall (λ wk, exited wk = true) ws.
Proof.
  intros H. apply Forall_lookup. intros w wk Hw.
  destruct (exited wk) eqn:He; [done|]. pose proof (active_pos ws w wk Hw He). lia.
Qed.

Lemma Transition_SyncInv s s' : Transition c attempts s s' → SyncInv s → SyncInv s'.
Proof.
  intros H (Hwg & Hcl & Hclosed & Hex). unfold SyncInv, errorChClosed in *.
  destruct H.
  - (* a namespace passes: one worker more, one namespace less *)
    rewrite H0 in *. fields. rewrite active_app, Hcl. cbn. repeat split; try done.
    + rewrite Hwg. cbn [length]. lia.
    + apply Forall_app. split; [done|]. by repeat constructor.
  - (* a namespace is skipped: wg.Done() by the caller *)
    rewrite H0 in *. cbn [length] in Hwg.
    destruct (wgDone_cases (record callerG [skipLine ns] (record callerG effs s)))
      as [[_ Hneg]|[Hdone _]]; [cbn in Hneg; lia|].
    rewrite Hdone. fields. rewrite Hcl. repeat split; try done. lia.
  - rewrite H0 in *. fields. rewrite Hcl. repeat split; try done.
    cbn [length] in Hwg. lia.
  - done.
  - rewrite H0 in *. fields. cbn [length] in Hwg. repeat split; try done; lia.
  - (* a worker exits: wg.Done() by the worker *)
    pose proof (active_insert_finish _ _ _ H0 H1) as Hact.
    assert (Hpos : 1 ≤ wg s).
    { destruct (caller s); lia. }
    destruct (wgDone_cases (setWorkers (<[w:=finish wk]> (workers s)) s))
      as [[_ Hneg]|[Hdone _]]; [cbn in Hneg; lia|].
    rewrite Hdone. fields. repeat split.
    + destruct (caller s); lia.
    + done.
    + intros Hc. specialize (Hclosed Hc). lia.
    + apply Forall_insert; [done|]. done.
  - fields. rewrite (active_insert_proceed _ _ _ rest H0 H1).
    repeat split; try done. apply Forall_insert; [done|]. done.
  - done.
  - done.
  - rewrite H0 in *. fields. rewrite (active_insert_proceed _ _ _ rest H1 H2).
    repeat split; try done. apply Forall_insert; [done|]. done.
  - done.
  - rewrite H0 in *. fields. done.
  - fields. rewrite H0 in *.
    repeat split; try done; destruct (caller s); done.
  - fields. rewrite H0 in *.
    repeat split; try done; try (by intros _; apply Hclosed); destruct (caller s); done.
Qed.

Lemma start_SyncInv nss : SyncInv (start nss).
Proof. unfold SyncInv. cbn. repeat split; try done. lia. Qed.

Lemma reachable_SyncInv nss s : reachable c attempts nss s → SyncInv s.
Proof.
  intros [sched ->]. unfold deleteKymaNamespaces.
  apply (run_invariant SyncInv); [apply Transition_SyncInv | apply start_SyncInv].
Qed.

(** *** Which workers there are *)

Lemma spawned_app i l1 l2 :
  spawned c attempts i (l1 ++ l2)
  = spawned c attempts i l1 ++ spawned c attempts (i + length l1) l2.
Proof.
  revert i. induction l1 as [|ns l1 IH]; intros i; simpl.
  - by rewrite Nat.add_0_r.
  - rewrite IH. replace (S i + length l1)%nat with (i + S (length l1))%nat by lia.
    by destruct (precheck c attempts i ns).
Qed.

Lemma keys_insert (ws : list Worker) (w : nat) wk wk' :
  ws !! w = Some wk → key wk' = key wk → key <$> <[w:=wk']> ws = key <$> ws.
Proof.
  intros Hw Hk. rewrite list_fmap_insert, Hk. apply list_insert_id.
  by rewrite list_lookup_fmap, Hw.
Qed.

Lemma Transition_SpawnInv nss s s' :
  Transition c attempts s s' → SpawnInv c attempts nss s → SpawnInv c attempts nss s'.
Proof.
  intros H Hinv. unfold SpawnInv in *.
  destruct H; fields; try done.
  - rewrite H0 in Hinv. destruct Hinv as (seen & -> & <- & Hk).
    exists (seen ++ [ns]). rewrite <- app_assoc, length_app, fmap_app, spawned_app, Hk.
    cbn [length fmap list_fmap spawned Nat.add]. unfold precheck. rewrite H1. cbn.
    repeat split; try done; lia.
  - rewrite H0 in Hinv. destruct Hinv as (seen & -> & <- & Hk).
    exists (seen ++ [ns]). rewrite <- app_assoc, length_app, spawned_app, Hk.
    cbn [length spawned Nat.add]. unfold precheck. rewrite H1. cbn. rewrite app_nil_r.
    repeat split; try done; lia.
  - rewrite H0 in Hinv. destruct Hinv as (seen & -> & <- & Hk). by exists seen, (ns :: rest).
  - rewrite H0 in Hinv. destruct Hinv as (seen & -> & <- & Hk). by rewrite app_nil_r.
  - destruct (caller s); by erewrite keys_insert.
  - destruct (caller s); by erewrite keys_insert.
  - rewrite H0 in Hinv. by erewrite keys_insert.
  - by rewrite H0 in Hinv.
Qed.

Lemma reachable_SpawnInv nss s : reachable c attempts nss s → SpawnInv c attempts nss s.
Proof.
  intros [sched ->]. unfold deleteKymaNamespaces.
  apply (run_invariant (SpawnInv c attempts nss)); [apply Transition_SpawnInv|].
  by exists [].
Qed.

(** *** The combined error *)

Lemma string_cons_app a (s t : string) : String a s +:+ t = String a (s +:+ t).
Proof. reflexivity. Qed.

Lemma string_app_assoc (s1 s2 s3 : string) : (s1 +:+ s2) +:+ s3 = s1 +:+ (s2 +:+ s3).
Proof. induction s1 as [|a s1 IH]; [done|]. rewrite !string_cons_app. by f_equal. Qed.

Lemma string_app_nil_r (s : string) : s +:+ "" = s.
Proof. induction s as [|a s IH]; [done|]. rewrite string_cons_app. by f_equal. Qed.

Lemma mentions_refl s : mentions s s.
Proof. exists "", "". simpl. by rewrite string_app_nil_r. Qed.

Lemma mentions_app_l s t needle : mentions s needle → mentions (s +:+ t) needle.
Proof.
  intros (before & after & ->). exists before, (after +:+ t).
  by rewrite !string_app_assoc.
Qed.

Lemma mentions_app_r s t needle : mentions t needle → mentions (s +:+ t) needle.
Proof.
  intros (before & after & ->). exists (s +:+ before), after.
  by rewrite !string_app_assoc.
Qed.

Lemma combined_snoc errs err : combined (errs ++ [err]) = aggregate (combined errs) err.
Proof. unfold combined. by rewrite foldl_snoc. Qed.

Lemma combined_None errs : combined errs = None ↔ errs = [].
Proof.
  split; [|by intros ->].
  destruct errs as [|e errs _] using rev_ind; [done|].
  rewrite combined_snoc. by destruct (combined errs).
Qed.

Lemma combined_mentions errs err :
  err ∈ errs → ∃ w, combined errs = Some w ∧ mentions (Error w) (Error err).
Proof.
  induction errs as [|e errs IH] using rev_ind; [by intros ?%elem_of_nil|].
  rewrite combined_snoc. intros [Hin| ->%list_elem_of_singleton]%elem_of_app.
  - destruct (IH Hin) as (w & -> & Hm). eexists. split; [done|].
    simpl. by apply mentions_app_l.
  - destruct (combined errs) as [w|]; eexists; (split; [done|]); simpl.
    + apply mentions_app_r, mentions_app_r, mentions_refl.
    + apply mentions_refl.
Qed.

(** *** Returning *)

Lemma pending_nil ws : Forall (λ wk, todo wk = []) ws → pending ws = [].
Proof.
  induction 1 as [|wk ws Hwk _ IH]; [done|]. by rewrite pending_cons, Hwk, IH.
Qed.

Lemma returned_all_finished nss s errWrapped :
  reachable c attempts nss s → result s = Some errWrapped →
  Forall (λ wk, exited wk = true ∧ todo wk = []) (workers s).
Proof.
  intros Hr Hres. destruct (reachable_SyncInv nss s Hr) as (Hwg & Hcl & Hclosed & Hex).
  unfold result in Hres. destruct (caller s) eqn:Hpc; try done.
  unfold errorChClosed in Hclosed. rewrite Hcl in Hclosed. specialize (Hclosed eq_refl).
  rewrite Hclosed in Hwg. assert (Hact : active (workers s) = O) by lia.
  apply active_zero in Hact. rewrite Forall_forall in *. intros wk Hin. auto.
Qed.

Lemma returned_received nss s errWrapped :
  reachable c attempts nss s → result s = Some errWrapped →
  key <$> workers s = spawned c attempts 0 nss ∧
  received s ≡ₚ allSends c (workers s) ∧
  errWrapped = combined (received s).
Proof.
  intros Hr Hres.
  pose proof (returned_all_finished nss s errWrapped Hr Hres) as Hfin.
  destruct (reachable_ErrInv nss s Hr) as [Hagg Hperm].
  pose proof (reachable_SpawnInv nss s Hr) as Hsp.
  unfold result in Hres. unfold SpawnInv in Hsp.
  destruct (caller s) eqn:Hpc; try done. injection Hres as ->.
  rewrite pending_nil, app_nil_r in Hperm
    by (eapply Forall_impl; [exact Hfin|]; by intros wk [_ ?]).
  done.
Qed.

(** *** Benign runs go on *)

Lemma run_app sched1 sched2 s :
  run c attempts (sched1 ++ sched2) s = run c attempts sched2 (run c attempts sched1 s).
Proof. unfold run. by rewrite foldl_app. Qed.

Lemma SpawnInv_lookup nss s i ns rest :
  SpawnInv c attempts nss s → caller s = rangeNamespaces i (ns :: rest) → nss !! i = Some ns.
Proof.
  unfold SpawnInv. intros Hsp Hpc. rewrite Hpc in Hsp.
  destruct Hsp as (seen & -> & <- & _). by rewrite list_lookup_middle.
Qed.

Lemma wgDone_crashed s : 1 ≤ wg s → crashed (wgDone s) = crashed s.
Proof. intros H. unfold wgDone. destruct (wg s - 1 <? 0) eqn:E; [lia|done]. Qed.

Lemma SyncInv_active_open s w wk :
  SyncInv s → workers s !! w = Some wk → exited wk = false →
  1 ≤ wg s ∧ errorChClosed s = false.
Proof.
  intros (Hwg & Hcl & Hclosed & Hex) Hw He.
  pose proof (active_pos _ _ _ Hw He) as Hpos.
  assert (1 ≤ wg s) by (destruct (caller s); lia).
  split; [done|]. destruct (errorChClosed s); [|done]. specialize (Hclosed eq_refl). lia.
Qed.

Lemma Transition_Healthy nss s s' :
  Benign c attempts nss → SyncInv s → SpawnInv c attempts nss s →
  Transition c attempts s s' → Healthy s → Healthy s'.
Proof.
  intros Hb Hsync Hsp H (Hc & Hp & Hnb). unfold Healthy.
  destruct H; fields; try done.
  - destruct (Hb i ns (SpawnInv_lookup _ _ _ _ _ Hsp H0)) as [[_ Hnp]|Hpre];
      [|unfold precheck in Hpre; by rewrite H1 in Hpre].
    repeat split; try done. apply Forall_app. split; [done|]. by repeat constructor.
  - destruct Hsync as (Hwg & _). rewrite H0 in Hwg. cbn [length] in Hwg.
    rewrite wgDone_crashed by (cbn; lia). done.
  - destruct (Hb i ns (SpawnInv_lookup _ _ _ _ _ Hsp H0)) as [[Hpre _]|Hpre];
      unfold precheck in Hpre; rewrite H1 in Hpre; done.
  - destruct (Hb i ns (SpawnInv_lookup _ _ _ _ _ Hsp H0)) as [[Hpre _]|Hpre];
      unfold precheck in Hpre; rewrite H1 in Hpre; done.
  - destruct (SyncInv_active_open s w wk Hsync H0 H1) as [Hpos _].
    rewrite wgDone_crashed by (cbn; lia). fields.
    repeat split; try done. apply Forall_insert; [done|]. done.
  - repeat split; try done. apply Forall_insert; [done|]. cbn.
    rewrite Forall_lookup in Hp. specialize (Hp w wk H0). by rewrite H2 in Hp.
  - destruct (SyncInv_active_open s w wk Hsync H0 H1) as [_ Hopen]. congruence.
  - rewrite Forall_lookup in Hp. specialize (Hp w wk H0). by rewrite H2 in Hp.
  - repeat split; try done. apply Forall_insert; [done|]. cbn.
    rewrite Forall_lookup in Hp. specialize (Hp w wk H1). by rewrite H3 in Hp.
Qed.

Lemma Transition_Sound nss s s' :
  Benign c attempts nss → Transition c attempts s s' →
  Sound c attempts nss s → Sound c attempts nss s'.
Proof.
  intros Hb H (Hsync & Hsp & Hh). split; [|split].
  - by apply (Transition_SyncInv s).
  - by apply (Transition_SpawnInv nss s).
  - by apply (Transition_Healthy nss s).
Qed.

Lemma start_Sound nss : Sound c attempts nss (start nss).
Proof.
  split; [apply start_SyncInv|]. split; [by exists []|]. by repeat split.
Qed.

Lemma run_Sound nss sched s :
  Benign c attempts nss → Sound c attempts nss s → Sound c attempts nss (run c attempts sched s).
Proof.
  intros Hb. apply (run_invariant (Sound c attempts nss)).
  intros s1 s2. by apply Transition_Sound.
Qed.

Lemma findIndex_Some {A} (p : A → bool) (l : list A) w :
  findIndex p l = Some w → ∃ x, l !! w = Some x ∧ p x = true.
Proof.
  revert w. induction l as [|x l IH]; intros w; simpl; [done|].
  destruct (p x) eqn:E.
  - intros [= <-]. by exists x.
  - destruct (findIndex p l) as [w'|]; [|done]. intros [= <-]. by apply IH.
Qed.

Lemma findIndex_None {A} (p : A → bool) (l : list A) :
  findIndex p l = None → Forall (λ x, p x = false) l.
Proof.
  induction l as [|x l IH]; simpl; [done|].
  destruct (p x) eqn:E; [done|].
  destruct (findIndex p l); [done|]. intros _. constructor; auto.
Qed.

Lemma workers_left_insert (ws : list Worker) w wk wk' :
  ws !! w = Some wk →
  ((if exited wk' then 0 else S (length (todo wk'))) < (if exited wk then 0 else S (length (todo wk))))%nat →
  (sum_list_with (λ wk, if exited wk then 0 else S (length (todo wk)))%nat (<[w:=wk']> ws)
   < sum_list_with (λ wk, if exited wk then 0 else S (length (todo wk)))%nat ws)%nat.
Proof.
  intros (l1 & l2 & -> & Hins)%lookup_middle Hlt. rewrite Hins.
  rewrite !sum_list_with_app. simpl. lia.
Qed.

(** Once the caller selects, the fair choice can always move, and it leaves
    less to do. *)
Lemma selecting_progress s errWrapped :
  SyncInv s → Healthy s → caller s = selecting errWrapped →
  ∃ s', step c attempts (nextChoice s) s = Some s' ∧ (workLeft s' < workLeft s)%nat ∧
        (∃ errWrapped', caller s' = selecting errWrapped' ∨ caller s' = returnedWith errWrapped').
Proof.
  intros Hsync (Hc & Hp & Hnb) Hpc.
  unfold nextChoice, step. rewrite Hpc, Hc.
  destruct (findIndex canRun (workers s)) as [w|] eqn:Hrun.
  - apply findIndex_Some in Hrun as (wk & Hw & Hcan).
    unfold canRun in Hcan. apply andb_true_iff in Hcan as [He Hnosend].
    apply negb_true_iff in He.
    destruct (SyncInv_active_open s w wk Hsync Hw He) as [Hpos _].
    rewrite Forall_lookup in Hp. specialize (Hp w wk Hw).
    unfold stepWorker. rewrite Hw, He.
    destruct (todo wk) as [|[e|err|] rest] eqn:Ht; try done.
    + eexists. split; [done|].
      destruct (wgDone_cases (setWorkers (<[w:=finish wk]> (workers s)) s))
        as [[_ Hneg]|[-> _]]; [cbn in Hneg; lia|].
      unfold workLeft. fields. rewrite Hpc. split; [|eauto].
      pose proof (workers_left_insert (workers s) w wk (finish wk) Hw) as Hlt.
      rewrite He, Ht in Hlt. cbn in Hlt. specialize (Hlt ltac:(lia)). lia.
    + eexists. split; [done|]. unfold workLeft. fields. rewrite Hpc. split; [|eauto].
      pose proof (workers_left_insert (workers s) w wk (proceed wk rest) Hw) as Hlt.
      rewrite He, Ht in Hlt. cbn in Hlt. specialize (Hlt ltac:(lia)). lia.
  - destruct (findIndex isSending (workers s)) as [w|] eqn:Hsend.
    + apply findIndex_Some in Hsend as (wk & Hw & Hsnd).
      unfold isSending in Hsnd. apply andb_true_iff in Hsnd as [He Hs].
      apply negb_true_iff in He.
      destruct (SyncInv_active_open s w wk Hsync Hw He) as [_ Hopen].
      unfold stepRecvError. rewrite Hpc, Hw.
      destruct (todo wk) as [|[e|err|] rest] eqn:Ht; try done.
      rewrite He, Hopen. cbn. eexists. split; [done|].
      unfold workLeft. fields. rewrite Hpc. split; [|eauto].
      pose proof (workers_left_insert (workers s) w wk (proceed wk rest) Hw) as Hlt.
      rewrite He, Ht in Hlt. cbn in Hlt. specialize (Hlt ltac:(lia)). lia.
    + (* every worker has exited: the closer and then the select move *)
      assert (Hall : Forall (λ wk, exited wk = true) (workers s)).
      { apply findIndex_None in Hrun, Hsend. rewrite Forall_forall in *.
        intros wk Hin. specialize (Hrun wk Hin). specialize (Hsend wk Hin).
        unfold canRun, isSending in *. destruct (exited wk); [done|].
        by destruct (todo wk) as [|[]]. }
      assert (Hact : active (workers s) = O).
      { unfold active. clear -Hall. induction Hall as [|wk ws Hwk _ IH]; [done|].
        simpl. by rewrite Hwk, IH. }
      destruct Hsync as (Hwg & Hcl & _). rewrite Hpc in Hwg, Hcl. rewrite Hact in Hwg.
      unfold finishedChClosed, stepCloser.
      destruct (closer s) eqn:Hclo; try done.
      * rewrite Hwg. cbn. eexists. split; [done|]. unfold workLeft. fields.
        rewrite Hclo, Hpc. split; [lia|eauto].
      * eexists. split; [done|]. unfold workLeft. fields.
        rewrite Hclo, Hpc. split; [lia|eauto].
      * eexists. split; [done|]. unfold workLeft. fields.
        rewrite Hclo, Hpc. split; [lia|eauto].
Qed.

Lemma selecting_returns nss :
  Benign c attempts nss →
  ∀ n s, (workLeft s ≤ n)%nat → Sound c attempts nss s →
    (∃ errWrapped, caller s = selecting errWrapped ∨ caller s = returnedWith errWrapped) →
    ∃ sched, result (run c attempts sched s) ≠ None.
Proof.
  intros Hb. induction n as [|n IH]; intros s Hn Hs [errWrapped [Hpc|Hpc]].
  - destruct Hs as (Hsync & _ & Hh).
    destruct (selecting_progress s errWrapped Hsync Hh Hpc) as (s' & _ & Hlt & _). lia.
  - exists []. unfold result. simpl. by rewrite Hpc.
  - pose proof Hs as (Hsync & _ & Hh).
    destruct (selecting_progress s errWrapped Hsync Hh Hpc) as (s' & Hstep & Hlt & Hpc').
    destruct (IH s') as [sched Hres]; [lia| |done|].
    + eapply Transition_Sound; [done| |done]. by eapply step_Transition.
    + exists (nextChoice s :: sched). simpl. by rewrite Hstep.
  - exists []. unfold result. simpl. by rewrite Hpc.
Qed.

Lemma ranging_reaches_select nss :
  Benign c attempts nss →
  ∀ rest i s, caller s = rangeNamespaces i rest → Sound c attempts nss s →
    ∃ sched, (∃ errWrapped, caller (run c attempts sched s) = selecting errWrapped) ∧
             Sound c attempts nss (run c attempts sched s).
Proof.
  intros Hb. induction rest as [|ns rest IH]; intros i s Hpc Hs.
  - exists [runCaller]. split; [|by apply run_Sound].
    destruct Hs as (_ & _ & Hc & _). simpl. unfold step, stepCaller. rewrite Hc, Hpc.
    simpl. eauto.
  - assert (Hstep : ∃ s', step c attempts runCaller s = Some s' ∧
                          caller s' = rangeNamespaces (S i) rest).
    { pose proof Hs as (_ & Hsp & Hc & _).
      assert (Hpre : precheck c attempts i ns = passed ∨ precheck c attempts i ns = exhausted)
        by (destruct (Hb i ns (SpawnInv_lookup _ _ _ _ _ Hsp Hpc)) as [[? _]|?]; auto).
      unfold step, stepCaller. rewrite Hc, Hpc. unfold precheck in Hpre.
      destruct (retryDo (closure c i ns) attempts 0) as [effs r].
      simpl in Hpre. destruct Hpre as [-> | ->]; eexists; (split; [done|]); by fields. }
    destruct Hstep as (s' & Hstep & Hpc').
    destruct (IH (S i) s' Hpc') as (sched & Hsel & Hsound).
    + eapply Transition_Sound; [done| |done]. by eapply step_Transition.
    + exists (runCaller :: sched). simpl. by rewrite Hstep.
Qed.

(** From wherever a benign run stands, some continuation makes the call
    return. *)
Lemma benign_returns nss sched :
  Benign c attempts nss →
  ∃ sched', result (deleteKymaNamespaces c attempts (sched ++ sched') nss) ≠ None.
Proof.
  intros Hb. unfold deleteKymaNamespaces.
  pose proof (run_Sound nss sched (start nss) Hb (start_Sound nss)) as Hs.
  set (s := run c attempts sched (start nss)) in *.
  destruct (caller s) as [i rest|err|errWrapped|errWrapped] eqn:Hpc.
  - destruct (ranging_reaches_select nss Hb rest i s Hpc Hs) as (sched1 & [ew Hsel] & Hs1).
    destruct (selecting_returns nss Hb _ _ (le_n _) Hs1) as [sched2 Hres]; [eauto|].
    exists (sched1 ++ sched2). by rewrite !run_app.
  - destruct Hs as (_ & _ & _ & _ & Hnb). by destruct (Hnb err).
  - destruct (selecting_returns nss Hb _ _ (le_n _) Hs) as [sched2 Hres]; [eauto|].
    exists sched2. by rewrite run_app.
  - destruct (selecting_returns nss Hb _ _ (le_n _) Hs) as [sched2 Hres]; [eauto|].
    exists sched2. by rewrite run_app.
Qed.

(** C4. Whenever a call has returned, every worker it spawned has run to its
    end (deferred wg.Done() included); the workers are those of the namespaces
    that passed the pre-check; the errors received are, up to order, exactly
    the errors the workers send; the returned error combines them by
    errors.Wrap, so it is nil exactly when no worker sends an error, and its
    message contains the message of each worker error.  And a run in which no
    pre-check and no worker gets stuck for good can always go on to return. *)
Theorem deleteKymaNamespaces_aggregates nss sched :
  let s := deleteKymaNamespaces c attempts sched nss in
  (∀ errWrapped, result s = Some errWrapped →
     Forall (λ wk, exited wk = true ∧ todo wk = []) (workers s) ∧
     key <$> workers s = spawned c attempts 0 nss ∧
     received s ≡ₚ allSends c (workers s) ∧
     errWrapped = combined (received s) ∧
     (errWrapped = None ↔ allSends c (workers s) = []) ∧
     (∀ err, err ∈ allSends c (workers s) →
        ∃ w, errWrapped = Some w ∧ mentions (Error w) (Error err))) ∧
  (Benign c attempts nss →
     ∃ sched', result (deleteKymaNamespaces c attempts (sched ++ sched') nss) ≠ None).
Proof.
  intros s. split; [|by apply benign_returns].
  intros errWrapped Hres.
  assert (Hr : reachable c attempts nss s) by by exists sched.
  pose proof (returned_all_finished nss s errWrapped Hr Hres) as Hfin.
  destruct (returned_received nss s errWrapped Hr Hres) as (Hsp & Hperm & Hagg).
  repeat split; try done.
  - rewrite Hagg, combined_None. intros E. rewrite E in Hperm.
    by apply Permutation_nil_l in Hperm.
  - rewrite Hagg, combined_None. intros E. rewrite E in Hperm.
    by apply Permutation_nil_r in Hperm.
  - intros err Hin. rewrite Hagg. apply combined_mentions. by rewrite Hperm.
Qed.

(** *** The trace *)

Lemma positions_insert (ws : list Worker) (w : nat) wk wk' :
  ws !! w = Some wk → position wk' = position wk →
  position <$> <[w:=wk']> ws = position <$> ws.
Proof.
  intros Hw Hk. rewrite list_fmap_insert, Hk. apply list_insert_id.
  by rewrite list_lookup_fmap, Hw.
Qed.

Lemma caller_effect_not_worker k e (effs : list Effect) :
  (workerG k, e) ∉ (λ e, (callerG, e)) <$> effs.
Proof. intros (e' & [=] & _)%list_elem_of_fmap. Qed.

Lemma Transition_TraceInv nss s s' :
  Transition c attempts s s' → SpawnInv c attempts nss s →
  TraceInv c attempts nss s → TraceInv c attempts nss s'.
Proof.
  intros H Hsp [Hw Hskip]. unfold TraceInv.
  destruct H; fields.
  - split.
    + intros k e [Hin|Hin]%elem_of_app; [|by apply caller_effect_not_worker in Hin].
      rewrite fmap_app. apply elem_of_app. left. eauto.
    + intros j ns' Hj Hpre Hlt. cbn in Hlt. apply elem_of_app. left.
      destruct (decide (j = i)) as [->|Hne].
      * rewrite (SpawnInv_lookup _ _ _ _ _ Hsp H0) in Hj. injection Hj as <-.
        unfold precheck in Hpre. by rewrite H1 in Hpre.
      * apply (Hskip j ns'); [done..|]. rewrite H0. cbn. lia.
  - split.
    + intros k e [[Hin|Hin]%elem_of_app|Hin]%elem_of_app;
        [|by apply caller_effect_not_worker in Hin..]. eauto.
    + intros j ns' Hj Hpre Hlt. cbn in Hlt.
      destruct (decide (j = i)) as [->|Hne].
      * rewrite (SpawnInv_lookup _ _ _ _ _ Hsp H0) in Hj. injection Hj as <-.
        apply elem_of_app. right. cbn. apply list_elem_of_singleton. done.
      * apply elem_of_app. left. apply elem_of_app. left.
        apply (Hskip j ns'); [done..|]. rewrite H0. cbn. lia.
  - split; [|done].
    intros k e [Hin|Hin]%elem_of_app; [|by apply caller_effect_not_worker in Hin]. eauto.
  - split.
    + intros k e [Hin|Hin]%elem_of_app; [|by apply caller_effect_not_worker in Hin]. eauto.
    + intros j ns' Hj Hpre Hlt. apply elem_of_app. left. by apply (Hskip j ns').
  - split; [done|]. intros j ns' Hj Hpre _. apply (Hskip j ns'); [done..|].
    unfold SpawnInv in Hsp. rewrite H0 in *. destruct Hsp as (seen & -> & <- & _).
    rewrite app_nil_r in Hj. cbn. by eapply lookup_lt_Some.
  - by erewrite positions_insert.
  - erewrite positions_insert; [|done..]. split.
    + intros k e' [Hin|Hin]%elem_of_app; [eauto|].
      cbn in Hin. apply list_elem_of_singleton in Hin. injection Hin as -> ->.
      apply list_elem_of_fmap. exists wk. split; [done|]. by eapply list_elem_of_lookup_2.
    + intros j ns' Hj Hpre Hlt. apply elem_of_app. left. by apply (Hskip j ns').
  - done.
  - done.
  - erewrite positions_insert; [|done..]. split; [done|].
    intros j ns' Hj Hpre _. apply (Hskip j ns'); [done..|]. by rewrite H0.
  - done.
  - split; [done|]. intros j ns' Hj Hpre _. apply (Hskip j ns'); [done..|]. by rewrite H0.
  - done.
  - done.
Qed.

Lemma reachable_TraceInv nss s : reachable c attempts nss s → TraceInv c attempts nss s.
Proof.
  intros [sched ->]. unfold deleteKymaNamespaces.
  cut (SpawnInv c attempts nss (run c attempts sched (start nss)) ∧
       TraceInv c attempts nss (run c attempts sched (start nss))); [tauto|].
  apply (run_invariant (λ s, SpawnInv c attempts nss s ∧ TraceInv c attempts nss s)).
  - intros s1 s2 Ht [Hsp Htr]. split;
      [by eapply Transition_SpawnInv | by eapply Transition_TraceInv].
  - split; [by exists []|]. split.
    + by intros k e ?%elem_of_nil.
    + intros j ns _ _ Hlt. cbn in Hlt. lia.
Qed.

(** *** A namespace whose pods keep running *)




Lemma spawned_passed i0 l k ns :
  (k, ns) ∈ spawned c attempts i0 l →
  ∃ j, k = (i0 + j)%nat ∧ l !! j = Some ns ∧ precheck c attempts k ns = passed.
Proof.
  revert i0. induction l as [|ns0 l IH]; intros i0; simpl; [by intros ?%elem_of_nil|].
  intros Hin.
  assert (Hcases : (k, ns) = (i0, ns0) ∧ precheck c attempts i0 ns0 = passed ∨
                   (k, ns) ∈ spawned c attempts (S i0) l).
  { destruct (precheck c attempts i0 ns0) eqn:E; auto.
    apply elem_of_cons in Hin as [?|?]; auto. }
  destruct Hcases as [[[= -> ->] Hp]|Hin'].
  - exists O. by rewrite Nat.add_0_r.
  - destruct (IH _ Hin') as (j & -> & Hj & Hp). exists (S j). split; [lia|]. done.
Qed.

Lemma reachable_worker_passed nss s wk :
  reachable c attempts nss s → wk ∈ workers s →
  nss !! position wk = Some (namespace wk) ∧
  precheck c attempts (position wk) (namespace wk) = passed.
Proof.
  intros Hr Hin. pose proof (reachable_SpawnInv nss s Hr) as Hsp.
  assert (Hkey : key wk ∈ key <$> workers s) by (apply list_elem_of_fmap; eauto).
  assert (Hpre : ∃ seen rest, nss = seen ++ rest ∧ key <$> workers s = spawned c attempts 0 seen).
  { unfold SpawnInv in Hsp. destruct (caller s).
    - destruct Hsp as (seen & ? & _ & ?). eauto.
    - done.
    - exists nss, []. by rewrite app_nil_r.
    - exists nss, []. by rewrite app_nil_r. }
  destruct Hpre as (seen & rest & -> & Hk). rewrite Hk in Hkey.
  apply spawned_passed in Hkey as (j & Hj & Hl & Hp). simpl in Hj. subst j.
  split; [|done]. by apply lookup_app_l_Some.
Qed.


(** *** What a worker does *)

Lemma apiCalls_app l1 l2 : apiCalls (l1 ++ l2) = apiCalls l1 ++ apiCalls l2.
Proof. apply omap_app. Qed.


Lemma apiCalls_sendErr err : apiCalls (sendErr err) = [].
Proof. by destruct err. Qed.


Lemma apiCalls_api call l : apiCalls (Do (Api call) :: l) = call :: apiCalls l.
Proof. done. Qed.

Lemma apiCalls_log level format args l : apiCalls (Do (Log level format args) :: l) = apiCalls l.
Proof. done. Qed.

Lemma apiCalls_clearEach update answer format objs :
  apiCalls (clearEach update answer format objs) = (λ o, update (withoutFinalizers o)) <$> objs.
Proof.
  unfold clearEach. revert answer. induction objs as [|o objs IH]; intros answer; [done|].
  rewrite imap_cons. cbn [concat].
  rewrite apiCalls_app, apiCalls_api, apiCalls_app, apiCalls_sendErr, apiCalls_log.
  rewrite fmap_cons. cbn [app apiCalls omap]. f_equal. apply (IH (answer ∘ S)).
Qed.

Lemma apiCalls_clearList fetch res update answer format next :
  apiCalls (clearList fetch res update answer format next)
  = fetch :: match items res with
             | Some _ => updatesOf update res ++ apiCalls next
             | None => []
             end.
Proof.
  unfold clearList, ranging, updatesOf.
  rewrite apiCalls_api, apiCalls_app, apiCalls_sendErr. cbn [app]. f_equal.
  destruct (items res); [|done]. by rewrite apiCalls_app, apiCalls_clearEach.
Qed.

Lemma apiCalls_clearSecret k ns :
  apiCalls (clearSecret c k ns)
  = SecretsGet ns "serverless-registry-config-default"
    :: match object (secretGet c k) with
       | Some secret => [SecretsUpdate ns (withoutFinalizers secret)]
       | None => []
       end.
Proof.
  unfold clearSecret.
  rewrite apiCalls_api, apiCalls_app, apiCalls_sendErr. cbn [app]. f_equal.
  destruct (object (secretGet c k)); [|done].
  by rewrite apiCalls_api, apiCalls_app, apiCalls_sendErr, apiCalls_log.
Qed.

Lemma apiCalls_removeNamespace k ns : apiCalls (removeNamespace c k ns) = [NamespacesDelete ns].
Proof.
  unfold removeNamespace.
  by rewrite apiCalls_api, apiCalls_app, apiCalls_sendErr, apiCalls_log.
Qed.

Lemma updatesOf_clearing update res :
  (∀ o, isClearingCall (update (withoutFinalizers o)) = true) →
  Forall (λ call, isClearingCall call = true) (updatesOf update res).
Proof.
  intros H. unfold updatesOf. destruct (items res); [|done].
  apply Forall_fmap, Forall_forall. intros o _. apply H.
Qed.

Lemma panics_app l1 l2 : panics (l1 ++ l2) = panics l1 || panics l2.
Proof. apply existsb_app. Qed.

Lemma panics_clearList_nil fetch res update answer format next :
  items res = None → panics (clearList fetch res update answer format next) = true.
Proof.
  intros H. unfold clearList, ranging. rewrite H.
  change (Do (Api fetch) :: sendErr (listErr res) ++ [Panic])
    with ([Do (Api fetch)] ++ sendErr (listErr res) ++ [Panic]).
  rewrite !panics_app. cbn. by rewrite orb_true_r.
Qed.

Lemma panics_clearList_next fetch res update answer format next :
  panics next = true → panics (clearList fetch res update answer format next) = true.
Proof.
  intros H. unfold clearList, ranging.
  change (Do (Api fetch) :: ?l) with ([Do (Api fetch)] ++ l).
  destruct (items res); rewrite !panics_app; [|by rewrite !orb_true_r].
  by rewrite H, !orb_true_r.
Qed.

Lemma clearingCalls_clearing k ns :
  Forall (λ call, isClearingCall call = true) (clearingCalls c k ns).
Proof.
  unfold clearingCalls.
  repeat first
    [ apply Forall_cons; split; [done|]
    | apply Forall_app; split
    | by apply updatesOf_clearing
    | by destruct (object (secretGet c k)); repeat constructor ].
Qed.

Lemma clearingCalls_then k ns (last : list ApiCall) :
  clearingCalls c k ns ++ last
  = ClusterServiceBrokersList :: updatesOf ClusterServiceBrokersUpdate (csbList c k)
    ++ ServiceBrokersList ns :: updatesOf (ServiceBrokersUpdate ns) (sbList c k)
    ++ SecretsGet ns "serverless-registry-config-default"
       :: match object (secretGet c k) with
          | Some secret => [SecretsUpdate ns (withoutFinalizers secret)]
          | None => []
          end
    ++ ResourceList "oathkeeper.ory.sh" "v1alpha1" "rules" ns
       :: updatesOf (ResourceUpdate "oathkeeper.ory.sh" "v1alpha1" "rules" ns) (rulesList c k)
    ++ last.
Proof.
  unfold clearingCalls. repeat (rewrite <- app_comm_cons || rewrite <- app_assoc). done.
Qed.

Lemma clearList_prefix fetch res update (made planned : list ApiCall) :
  made `prefix_of` planned →
  (fetch :: match items res with
            | Some _ => updatesOf update res ++ made
            | None => []
            end) `prefix_of` (fetch :: updatesOf update res ++ planned).
Proof.
  intros H. apply prefix_cons. destruct (items res); [|apply prefix_nil]. by apply prefix_app.
Qed.

Lemma worker_kyma_system k :
  apiCalls (worker c k "kyma-system")
  = ClusterServiceBrokersList
    :: match items (csbList c k) with
       | Some _ =>
         updatesOf ClusterServiceBrokersUpdate (csbList c k) ++
         ServiceBrokersList "kyma-system"
         :: match items (sbList c k) with
            | Some _ =>
              updatesOf (ServiceBrokersUpdate "kyma-system") (sbList c k) ++
              (SecretsGet "kyma-system" "serverless-registry-config-default"
               :: match object (secretGet c k) with
                  | Some secret => [SecretsUpdate "kyma-system" (withoutFinalizers secret)]
                  | None => []
                  end) ++
              ResourceList "oathkeeper.ory.sh" "v1alpha1" "rules" "kyma-system"
              :: match items (rulesList c k) with
                 | Some _ =>
                   updatesOf (ResourceUpdate "oathkeeper.ory.sh" "v1alpha1" "rules" "kyma-system")
                     (rulesList c k) ++ [NamespacesDelete "kyma-system"]
                 | None => []
                 end
            | None => []
            end
       | None => []
       end.
Proof.
  unfold worker. cbn [String.eqb Ascii.eqb Bool.eqb].
  by rewrite !apiCalls_clearList, apiCalls_app, apiCalls_clearSecret, apiCalls_clearList,
    apiCalls_removeNamespace.
Qed.

Lemma worker_kyma_system_panics k :
  panics (worker c k "kyma-system") = false →
  is_Some (items (csbList c k)) ∧ is_Some (items (sbList c k)) ∧ is_Some (items (rulesList c k)).
Proof.
  unfold worker. cbn [String.eqb Ascii.eqb Bool.eqb]. intros Hp.
  destruct (items (csbList c k)) eqn:E1;
    [|by rewrite panics_clearList_nil in Hp].
  destruct (items (sbList c k)) eqn:E2;
    [|by rewrite panics_clearList_next in Hp by by apply panics_clearList_nil].
  destruct (items (rulesList c k)) eqn:E3; [done|].
  rewrite panics_clearList_next in Hp; [done|]. apply panics_clearList_next.
  rewrite panics_app. rewrite (panics_clearList_nil _ _ _ _ _ _ E3).
  by rewrite orb_true_r.
Qed.

(** C10. A worker for a namespace other than kyma-system is the namespace
    delete and nothing else: its only API call is that delete.  The worker
    of kyma-system makes the clearing calls of ClusterServiceBrokers, then
    ServiceBrokers, then the Secret serverless-registry-config-default, then
    the oathkeeper.ory.sh Rules, each an own fetch followed by updates with
    emptied finalizers, and after them, last, the namespace delete; if it
    stops early on a nil list it has made an initial part of these calls. *)
Theorem finalizers_only_for_kyma_system k ns :
  (ns ≠ "kyma-system" →
     worker c k ns = removeNamespace c k ns ∧
     apiCalls (worker c k ns) = [NamespacesDelete ns]) ∧
  (ns = "kyma-system" →
     apiCalls (worker c k ns) `prefix_of` clearingCalls c k ns ++ [NamespacesDelete ns] ∧
     (panics (worker c k ns) = false →
        apiCalls (worker c k ns) = clearingCalls c k ns ++ [NamespacesDelete ns]) ∧
     Forall (λ call, isClearingCall call = true) (clearingCalls c k ns) ∧
     isClearingCall (NamespacesDelete ns) = false).
Proof.
  split.
  - intros Hne. unfold worker.
    destruct (String.eqb ns "kyma-system") eqn:E; [by apply String.eqb_eq in E|].
    split; [done|]. apply apiCalls_removeNamespace.
  - intros ->. split; [|split; [|split; [apply clearingCalls_clearing|done]]].
    + rewrite worker_kyma_system, clearingCalls_then.
      apply clearList_prefix, clearList_prefix.
      rewrite <- app_comm_cons. apply prefix_cons, prefix_app, clearList_prefix. done.
    + intros (Hcsb & Hsb & Hrules)%worker_kyma_system_panics.
      rewrite worker_kyma_system, clearingCalls_then.
      destruct Hcsb as [? ->], Hsb as [? ->], Hrules as [? ->].
      by rewrite <- app_comm_cons.
Qed.





(** *** A pod list that fails *)

Lemma retryDo_blocked (f : nat → list Effect * ClosureResult) remaining :
  ∀ n0 n err, (n0 ≤ n < n0 + remaining)%nat →
    (∀ m, (n0 ≤ m < n)%nat → ∃ e, (f m).2 = returnsErr e) →
    (f n).2 = blocksSending err →
    (retryDo f remaining n0).2 = blocked err.
Proof.
  induction remaining as [|remaining IH]; intros n0 n err Hn Hbefore Hblock; [lia|].
  simpl. destruct (decide (n0 = n)) as [->|Hne].
  - destruct (f n) as [effs res]. simpl in Hblock. by subst res.
  - destruct (Hbefore n0 ltac:(lia)) as [e He].
    destruct (f n0) as [effs res]. simpl in He. subst res.
    specialize (IH (S n0) n err).
    destruct (retryDo f remaining (S n0)) as [effs' r]. simpl in *.
    apply IH; [lia| |done]. intros m Hm. apply Hbefore. lia.
Qed.

Lemma retryDo_only_lists i ns remaining :
  ∀ n, Forall (λ e, e = Api (PodsList ns)) (retryDo (closure c i ns) remaining n).1.
Proof.
  induction remaining as [|remaining IH]; intros n; [done|].
  simpl. specialize (IH (S n)).
  destruct (retryDo (closure c i ns) remaining (S n)) as [effs' r].
  destruct (match listErr (podsList c i n) with
            | Some err => blocksSending err
            | None => match items (podsList c i n) with
                      | Some ps => firstRunning ns ps
                      | None => nilDereference
                      end
            end); simpl; repeat constructor; done.
Qed.

Lemma Transition_HeldAt nss i ns s s' :
  nss !! i = Some ns →
  precheck c attempts i ns ≠ passed → precheck c attempts i ns ≠ exhausted →
  SpawnInv c attempts nss s → Transition c attempts s s' → HeldAt i s → HeldAt i s'.
Proof.
  intros Hi Hnp Hne Hsp H Hheld. unfold HeldAt in *.
  destruct H; fields; try done; try (by rewrite H0 in Hheld).
  - rewrite H0 in Hheld. destruct (decide (i0 = i)) as [->|]; [|lia].
    rewrite (SpawnInv_lookup _ _ _ _ _ Hsp H0) in Hi. injection Hi as ->.
    unfold precheck in Hnp. by rewrite H1 in Hnp.
  - rewrite H0 in Hheld. destruct (decide (i0 = i)) as [->|]; [|lia].
    rewrite (SpawnInv_lookup _ _ _ _ _ Hsp H0) in Hi. injection Hi as ->.
    unfold precheck in Hne. by rewrite H1 in Hne.
  - rewrite H0 in Hheld. unfold SpawnInv in Hsp. rewrite H0 in Hsp.
    destruct Hsp as (seen & -> & <- & _). rewrite app_nil_r in Hi.
    apply lookup_lt_Some in Hi. lia.
Qed.

Lemma held_never_returns nss i ns sched :
  nss !! i = Some ns →
  precheck c attempts i ns ≠ passed → precheck c attempts i ns ≠ exhausted →
  result (deleteKymaNamespaces c attempts sched nss) = None.
Proof.
  intros Hi Hnp Hne. unfold deleteKymaNamespaces.
  assert (H : SpawnInv c attempts nss (run c attempts sched (start nss)) ∧
              HeldAt i (run c attempts sched (start nss))).
  { apply (run_invariant (λ s, SpawnInv c attempts nss s ∧ HeldAt i s)).
    - intros s1 s2 Ht [Hsp Hh]. split;
        [by eapply Transition_SpawnInv | by eapply Transition_HeldAt].
    - split; [by exists []|]. cbn. lia. }
  destruct H as [_ H]. unfold HeldAt in H. unfold result.
  by destruct (caller _).
Qed.

(** When an attempt of the pre-check meets a failing pod list (the attempts
    before it having found Running pods), the closure does not return: it
    hands the error to errorCh, in the goroutine of the caller.  No worker is
    spawned for the namespace, the wait group is left alone, and nothing is
    logged for it: the caller's effects are the pod list calls. *)
Lemma pod_list_error_is_sent i ns n err s rest :
  (n < attempts)%nat →
  (∀ m, (m < n)%nat → ∃ e, (closure c i ns m).2 = returnsErr e) →
  listErr (podsList c i n) = Some err →
  crashed s = false →
  caller s = rangeNamespaces i (ns :: rest) →
  precheck c attempts i ns = blocked err ∧
  ∃ s' effs,
    step c attempts runCaller s = Some s' ∧
    caller s' = sendingInClosure err ∧
    workers s' = workers s ∧ wg s' = wg s ∧
    trace s' = trace s ++ ((λ e, (callerG, e)) <$> effs) ∧
    Forall (λ e, e = Api (PodsList ns)) effs.
Proof.
  intros Hn Hbefore Herr Hc Hpc.
  assert (Hpre : precheck c attempts i ns = blocked err).
  { unfold precheck. apply (retryDo_blocked _ attempts 0 n err); [lia| |].
    - intros m Hm. apply Hbefore. lia.
    - unfold closure. simpl. by rewrite Herr. }
  split; [done|].
  pose proof (retryDo_only_lists i ns attempts 0) as Hlists.
  unfold step, stepCaller. rewrite Hc, Hpc. unfold precheck in Hpre.
  destruct (retryDo (closure c i ns) attempts 0) as [effs r]. simpl in Hpre, Hlists. subst r.
  eexists _, effs. split; [done|]. by fields.
Qed.

(** *** What is done in the name of a namespace *)

Lemma ofWorker_app k t1 t2 : ofWorker k (t1 ++ t2) = ofWorker k t1 ++ ofWorker k t2.
Proof. apply omap_app. Qed.

Lemma ofWorker_caller k (effs : list Effect) : ofWorker k ((λ e, (callerG, e)) <$> effs) = [].
Proof. induction effs as [|e effs IH]; [done|]. exact IH. Qed.

Lemma ofWorker_cons k g e tr :
  ofWorker k ((g, e) :: tr)
  = match g with
    | workerG k' => if decide (k' = k) then [e] else []
    | callerG => []
    end ++ ofWorker k tr.
Proof.
  unfold ofWorker. simpl. destruct g as [|k']; [done|]. by destruct (decide (k' = k)).
Qed.

Lemma ofWorker_absent k tr : (∀ e, (workerG k, e) ∉ tr) → ofWorker k tr = [].
Proof.
  induction tr as [|[g e] tr IH]; intros H; [done|].
  rewrite ofWorker_cons, IH by (intros e' Hin; apply (H e'); by right).
  destruct g as [|k']; [done|]. destruct (decide (k' = k)) as [->|]; [|done].
  destruct (H e). by left.
Qed.


Lemma spawned_from i l k ns : (k, ns) ∈ spawned c attempts i l → (i ≤ k)%nat.
Proof. intros (j & -> & _)%spawned_passed. lia. Qed.

Lemma spawned_NoDup i l : NoDup (spawned c attempts i l).*1.
Proof.
  revert i. induction l as [|ns l IH]; intros i; simpl; [constructor|].
  destruct (precheck c attempts i ns); try apply IH.
  rewrite fmap_cons. constructor; [|apply IH].
  intros ([k ns'] & Hk & Hin)%list_elem_of_fmap. simpl in Hk. subst k.
  apply spawned_from in Hin. lia.
Qed.

Lemma spawned_elem l : ∀ i j ns,
  l !! j = Some ns → precheck c attempts (i + j) ns = passed →
  ((i + j)%nat, ns) ∈ spawned c attempts i l.
Proof.
  induction l as [|ns0 l IH]; intros i j ns Hj Hp; [done|].
  destruct j as [|j]; simpl in *.
  - injection Hj as ->. rewrite Nat.add_0_r in *. rewrite Hp. by left.
  - assert (Hin : ((S i + j)%nat, ns) ∈ spawned c attempts (S i) l).
    { apply IH; [done|]. by replace (S i + j)%nat with (i + S j)%nat by lia. }
    replace (i + S j)%nat with (S i + j)%nat by lia.
    destruct (precheck c attempts i ns0); try done. by right.
Qed.

Lemma SpawnInv_seen nss s :
  SpawnInv c attempts nss s →
  ∃ seen rest, nss = seen ++ rest ∧ key <$> workers s = spawned c attempts 0 seen ∧
               (∀ i rest', caller s = rangeNamespaces i rest' → length seen = i).
Proof.
  unfold SpawnInv. destruct (caller s) as [i rest| | |] eqn:Hpc.
  - intros (seen & -> & <- & Hk). exists seen, rest. repeat split; [done|].
    by intros ? ? [= <- _].
  - intros (seen & rest & -> & Hk). by exists seen, rest.
  - intros Hk. exists nss, []. by rewrite app_nil_r.
  - intros Hk. exists nss, []. by rewrite app_nil_r.
Qed.

Lemma SpawnInv_positions_NoDup nss s :
  SpawnInv c attempts nss s → NoDup (position <$> workers s).
Proof.
  intros (seen & rest & _ & Hk & _)%SpawnInv_seen.
  replace (position <$> workers s) with ((key <$> workers s).*1)
    by (rewrite <- list_fmap_compose; done).
  rewrite Hk. apply spawned_NoDup.
Qed.

Lemma SpawnInv_positions_lt nss s i rest wk :
  SpawnInv c attempts nss s → caller s = rangeNamespaces i rest → wk ∈ workers s →
  (position wk < i)%nat.
Proof.
  intros (seen & rest' & _ & Hk & Hlen)%SpawnInv_seen Hpc Hin.
  assert (Hkey : key wk ∈ key <$> workers s) by (apply list_elem_of_fmap; eauto).
  rewrite Hk in Hkey. apply spawned_passed in Hkey as (j & Hj & Hl & _).
  apply lookup_lt_Some in Hl. rewrite (Hlen i rest Hpc) in Hl. simpl in Hj. lia.
Qed.

Lemma Transition_WorkInv nss s s' :
  SpawnInv c attempts nss s → TraceInv c attempts nss s →
  Transition c attempts s s' → WorkInv c s → WorkInv c s'.
Proof.
  intros Hsp [Htr _] H Hinv. unfold WorkInv in *.
  assert (Hcaller : ∀ effs,
    Forall (λ wk, effectsOf (worker c (position wk) (namespace wk))
                  = ofWorker (position wk) (trace s ++ ((λ e, (callerG, e)) <$> effs))
                    ++ effectsOf (todo wk)) (workers s)).
  { intros effs. eapply Forall_impl; [exact Hinv|]. intros wk Hwk.
    by rewrite ofWorker_app, ofWorker_caller, app_nil_r. }
  destruct H; fields; try done.
  - apply Forall_app. split; [apply Hcaller|]. repeat constructor. cbn.
    rewrite ofWorker_app, ofWorker_caller, app_nil_r.
    rewrite ofWorker_absent; [done|]. intros e Hin.
    apply Htr in Hin as (wk & Hpos & Hwk)%list_elem_of_fmap.
    pose proof (SpawnInv_positions_lt nss s i (ns :: rest) wk Hsp H0 Hwk). lia.
  - rewrite <- app_assoc, <- fmap_app. apply Hcaller.
  - apply Forall_insert; [done|]. cbn.
    rewrite Forall_lookup in Hinv. specialize (Hinv w wk H0). by rewrite H2 in Hinv.
  - change ((λ e0, (workerG (position wk), e0)) <$> [e]) with [(workerG (position wk), e)].
    apply Forall_lookup. intros w' wk' Hw'.
    rewrite Forall_lookup in Hinv.
    destruct (decide (w' = w)) as [->|Hne].
    + rewrite list_lookup_insert_eq in Hw' by by eapply lookup_lt_Some.
      injection Hw' as <-. cbn.
      rewrite ofWorker_app. specialize (Hinv w wk H0). rewrite H2 in Hinv.
      rewrite Hinv, (ofWorker_cons _ _ _ []), decide_True by done.
      by rewrite <- app_assoc.
    + rewrite list_lookup_insert_ne in Hw' by done.
      rewrite ofWorker_app, (ofWorker_cons _ _ _ []).
      rewrite decide_False; [rewrite !app_nil_r; by apply (Hinv w')|].
      intros Heq. apply Hne.
      eapply (NoDup_lookup (position <$> workers s)).
      * by eapply SpawnInv_positions_NoDup.
      * by rewrite list_lookup_fmap, Hw'.
      * rewrite list_lookup_fmap, H0. simpl. by rewrite Heq.
  - apply Forall_insert; [done|]. cbn.
    rewrite Forall_lookup in Hinv. specialize (Hinv w wk H1). by rewrite H3 in Hinv.
Qed.

Lemma reachable_WorkInv nss s : reachable c attempts nss s → WorkInv c s.
Proof.
  intros [sched ->]. unfold deleteKymaNamespaces.
  cut (SpawnInv c attempts nss (run c attempts sched (start nss)) ∧
       TraceInv c attempts nss (run c attempts sched (start nss)) ∧
       WorkInv c (run c attempts sched (start nss))); [tauto|].
  apply (run_invariant
           (λ s, SpawnInv c attempts nss s ∧ TraceInv c attempts nss s ∧ WorkInv c s)).
  - intros s1 s2 Ht (Hsp & Htr & Hw). split; [|split].
    + by eapply Transition_SpawnInv.
    + by eapply Transition_TraceInv.
    + by eapply Transition_WorkInv.
  - split; [by exists []|]. split; [|by constructor]. split.
    + by intros k e ?%elem_of_nil.
    + intros j ns _ _ Hlt. cbn in Hlt. lia.
Qed.









End TeardownFacts.


(** ** The coordinator on sample clusters *)

Section TeardownSamples.
Import Teardown TeardownSpec.

Lemma clusterXY_Benign : Benign clusterXY 1 abc.
Proof.
  intros i ns Hi. left.
  destruct i as [|[|[|i]]]; try done; injection Hi as <-; split; reflexivity.
Defined.

Lemma deleteKymaNamespaces_aggregates_witness :
  let s := deleteKymaNamespaces clusterXY 1 scheduleXY abc in
  result s = Some (Some (Wrap (statusError false "Y") "X")) ∧
  Error (Wrap (statusError false "Y") "X") = "X: Y" ∧
  received s ≡ₚ allSends clusterXY (workers s) ∧
  (∀ err, err ∈ allSends clusterXY (workers s) →
     ∃ w, Some (Wrap (statusError false "Y") "X") = Some w ∧ mentions (Error w) (Error err)) ∧
  ∃ sched', result (deleteKymaNamespaces clusterXY 1 ([runCaller] ++ sched') abc) ≠ None.
Proof.
  assert (H : result (deleteKymaNamespaces clusterXY 1 scheduleXY abc)
              = Some (Some (Wrap (statusError false "Y") "X"))) by (vm_compute; reflexivity).
  destruct (deleteKymaNamespaces_aggregates clusterXY 1 abc scheduleXY) as [Hsafe _].
  destruct (deleteKymaNamespaces_aggregates clusterXY 1 abc [runCaller]) as [_ Hlive].
  destruct (Hsafe _ H) as (_ & _ & Hperm & _ & _ & Hm).
  split; [exact H|]. split; [reflexivity|]. split; [exact Hperm|].
  split; [exact Hm | exact (Hlive clusterXY_Benign)].
Defined.


Lemma livePod_others j ns :
  j ≠ 1%nat → abc !! j = Some ns →
  precheck livePodCluster 3 j ns = passed ∧ panics (worker livePodCluster j ns) = false ∧
  sends (worker livePodCluster j ns) = [].
Proof.
  destruct j as [|[|[|j]]]; intros Hne Hj; try done; injection Hj as <-;
    repeat split; reflexivity.
Defined.


(** The same run under the fair schedule: it returns nil, has logged the
    skip, and has deleted a and c but not b. *)
Example live_pods_fair_run :
  let s := deleteKymaNamespaces livePodCluster 3 (fairSchedule livePodCluster 3 40 (start abc)) abc in
  result s = Some None ∧
  (callerG, skipLine "b") ∈ trace s ∧
  omap (λ '(g, e), match e with Api (NamespacesDelete ns) => Some ns | _ => None end) (trace s)
  = ["a"; "c"].
Proof.
  split; [vm_compute; reflexivity|]. split; [|vm_compute; reflexivity].
  apply (list_elem_of_lookup_2 _ 4). vm_compute. reflexivity.
Qed.




(** C9, on the code.  The pod list of kyma-installer fails with a transport
    error.  The pre-check neither logs nor skips: the caller's first step
    takes it to the send [errorCh <- err] inside the closure, with the list
    call as the only effect so far and no worker spawned.  Nobody receives
    from errorCh there, so no goroutine can move any more, and under no
    schedule does the call return. *)
Theorem pod_list_error_deadlocks :
  let stuck := deleteKymaNamespaces unreachableCluster 3 [runCaller] ["kyma-installer"] in
  listErr (podsList unreachableCluster 0 0) = Some connectionRefused ∧
  precheck unreachableCluster 3 0 "kyma-installer" = blocked connectionRefused ∧
  caller stuck = sendingInClosure connectionRefused ∧
  trace stuck = [(callerG, Api (PodsList "kyma-installer"))] ∧
  workers stuck = [] ∧
  crashed stuck = false ∧
  (∀ ch, step unreachableCluster 3 ch stuck = None) ∧
  ∀ sched,
    result (deleteKymaNamespaces unreachableCluster 3 sched ["kyma-installer"]) = None.
Proof.
  intros stuck.
  split; [reflexivity|]. split; [vm_compute; reflexivity|].
  split; [vm_compute; reflexivity|]. split; [vm_compute; reflexivity|].
  split; [vm_compute; reflexivity|]. split; [vm_compute; reflexivity|]. split.
  - intros ch. destruct ch as [|w|w| | |]; vm_compute; reflexivity.
  - intros sched.
    apply (held_never_returns unreachableCluster 3 ["kyma-installer"] 0 "kyma-installer" sched);
      [reflexivity|..]; vm_compute; discriminate.
Qed.

Lemma finalizers_only_for_kyma_system_witness :
  apiCalls (worker goneCluster 0 "kyma-installer") = [NamespacesDelete "kyma-installer"] ∧
  apiCalls (worker goneCluster 1 "kyma-system")
  = clearingCalls goneCluster 1 "kyma-system" ++ [NamespacesDelete "kyma-system"].
Proof.
  destruct (finalizers_only_for_kyma_system goneCluster 0 "kyma-installer") as [H _].
  destruct (finalizers_only_for_kyma_system goneCluster 1 "kyma-system") as [_ H'].
  split.
  - apply H. discriminate.
  - destruct (H' eq_refl) as (_ & Heq & _). apply Heq. reflexivity.
Defined.

End TeardownSamples.

(** ** More on the supervisor *)

Section SupervisorMoreFacts.
Import Supervisor SupervisorSpec SupervisorMore.

Lemma componentUpdates_app l1 l2 :
  componentUpdates (l1 ++ l2) = componentUpdates l1 ++ componentUpdates l2.
Proof. apply omap_app. Qed.

Lemma loggedStatuses_app l1 l2 : loggedStatuses (l1 ++ l2) = loggedStatuses l1 ++ loggedStatuses l2.
Proof. apply omap_app. Qed.

Lemma cancellations_app l1 l2 : cancellations (l1 ++ l2) = (cancellations l1 + cancellations l2)%nat.
Proof. unfold cancellations. by rewrite omap_app, length_app. Qed.

(** The loop over cases that keep it waiting, with its variables spelled out. *)
Lemma UninstallLoop_prefix phase ct pre tail :
  Forall (λ c, keepsWaiting c = true) pre →
  ∀ sm n t,
    UninstallLoop phase ct (pre ++ tail) sm n t
    = prepend (waitingEffects phase ct pre)
        (UninstallLoop phase ct tail (statusMapAfter sm pre) (errCountAfter n pre)
           (t || cancelSeen pre)).
Proof.
  induction 1 as [|c pre Hc Hpre IH]; intros sm n t.
  - simpl. by rewrite orb_false_r.
  - destruct c as [cmp| | |]; try discriminate Hc; simpl.
    + by rewrite IH.
    + rewrite IH. by rewrite orb_true_r.
Qed.

Lemma waitingEffects_quiet phase ct pre :
  lifecycle (waitingEffects phase ct pre) = [] ∧ loggedStatuses (waitingEffects phase ct pre) = [].
Proof.
  induction pre as [|c pre [IH1 IH2]]; [done|].
  unfold waitingEffects. rewrite bind_cons. fold (waitingEffects phase ct pre).
  rewrite lifecycle_app, loggedStatuses_app, IH1, IH2. by destruct c.
Qed.

Lemma consumed_split sel : ∃ rest, sel = consumed sel ++ rest.
Proof.
  induction sel as [|c sel [rest IH]]; [by exists []|].
  simpl. destruct (keepsWaiting c).
  - exists rest. by rewrite <- app_comm_cons, <- IH.
  - by exists sel.
Qed.

Lemma UninstallLoop_componentUpdates phase ct sel :
  ∀ sm n t,
    componentUpdates (effects (UninstallLoop phase ct sel sm n t))
    = (λ cmp, (phase, cmp)) <$> statusesOf (consumed sel).
Proof.
  induction sel as [|c sel IH]; intros sm n t; [done|].
  destruct c as [cmp| | |]; simpl.
  - f_equal. apply IH.
  - destruct (n >? 0); [|destruct t]; done.
  - apply IH.
  - done.
Qed.

Lemma UninstallLoop_unread phase ct sel :
  ∀ sm n t, sel = consumed sel ++ unread (UninstallLoop phase ct sel sm n t).
Proof.
  induction sel as [|c sel IH]; intros sm n t; [done|].
  destruct c as [cmp| | |]; simpl.
  - f_equal. apply IH.
  - destruct (n >? 0); [|destruct t]; done.
  - f_equal. apply IH.
  - done.
Qed.

Lemma UninstallLoop_cancellations phase ct sel :
  ∀ sm n t,
    cancellations (effects (UninstallLoop phase ct sel sm n t)) = cancelCases (consumed sel).
Proof.
  induction sel as [|c sel IH]; intros sm n t; [done|].
  destruct c as [cmp| | |]; simpl.
  - apply IH.
  - destruct (n >? 0); [|destruct t]; done.
  - rewrite <- (IH sm n true). done.
  - done.
Qed.

(** X1. Every component event the loop takes is passed on to the progress
    sink, in the order taken and with the phase of the call, and nothing else
    is: the component notifications of a call are exactly the status events
    among the cases it consumed, which are the cases up to and including the
    first close or hard-quit; the cases after it stay unread.  Error events
    and the soft-cancel timer do not interrupt the forwarding.  When
    [eng.Uninstall] fails no case is consumed at all. *)
Theorem status_events_forwarded phase eng ct qt :
  let r := uninstallComponents phase eng ct qt in
  match uninstallErr eng with
  | Some _ => componentUpdates (effects r) = [] ∧ unread r = selects eng
  | None =>
      componentUpdates (effects r)
      = (λ cmp, (phase, cmp)) <$> statusesOf (consumed (selects eng)) ∧
      selects eng = consumed (selects eng) ++ unread r
  end.
Proof.
  intros r. subst r. destruct (uninstallErr eng) as [err|] eqn:Herr.
  - unfold uninstallComponents. by rewrite Herr.
  - destruct (uninstallComponents_started phase eng ct qt Herr) as (-> & _ & ->).
    rewrite componentUpdates_app, UninstallLoop_componentUpdates.
    split; [done|]. apply UninstallLoop_unread.
Qed.

(** X2. The supervisor cancels the shared context once for each time the
    select takes the soft-cancel timer, and never otherwise: not when the
    engine fails to start, not on component errors, and not on the hard quit
    either, so a call that is force-quit without the soft-cancel case having
    been taken leaves the context uncancelled. *)
Theorem cancel_only_on_soft_timeout phase eng ct qt :
  let r := uninstallComponents phase eng ct qt in
  cancellations (effects r)
  = match uninstallErr eng with
    | Some _ => O
    | None => cancelCases (consumed (selects eng))
    end.
Proof.
  intros r. subst r. destruct (uninstallErr eng) as [err|] eqn:Herr.
  - unfold uninstallComponents. by rewrite Herr.
  - destruct (uninstallComponents_started phase eng ct qt Herr) as (-> & _ & _).
    by rewrite cancellations_app, UninstallLoop_cancellations.
Qed.

Lemma statusMapAfter_lookup pre :
  ∀ sm name,
    statusMapAfter sm pre !! name
    = match lastStatus name pre with
      | Some st => Some st
      | None => sm !! name
      end.
Proof.
  induction pre as [|c pre IH]; intros sm name; [done|].
  unfold statusMapAfter. simpl. fold (statusMapAfter
    (match c with statusChan cmp => <[Name cmp:=Status cmp]> sm | _ => sm end) pre).
  rewrite IH. destruct (lastStatus name pre); [done|].
  destruct c as [cmp| | |]; try done.
  destruct (String.eqb (Name cmp) name) eqn:E.
  - apply String.eqb_eq in E as <-. by rewrite lookup_insert_eq.
  - apply String.eqb_neq in E. by rewrite lookup_insert_ne.
Qed.

(** X3. The end-of-run diagnostics: when the stream's close ends the call with
    an error (component failure or timeout), [logStatuses] is called exactly
    once, with a map that holds for every component seen the status of its
    last event and nothing for components never seen; when the close ends it
    cleanly, and when the hard-quit timer ends it, [logStatuses] is not
    called. *)
Theorem statuses_logged_on_failure phase eng ct qt pre last rest :
  uninstallErr eng = None →
  selects eng = pre ++ last :: rest →
  Forall (λ c, keepsWaiting c = true) pre →
  keepsWaiting last = false →
  let r := uninstallComponents phase eng ct qt in
  loggedStatuses (effects r)
  = match last, returned r with
    | statusChanClosed, Some (Some _) => [statusMapAfter ∅ pre]
    | _, _ => []
    end ∧
  ∀ name, statusMapAfter ∅ pre !! name = lastStatus name pre.
Proof.
  intros Herr Hsel Hpre Hlast r. subst r. split.
  - destruct (uninstallComponents_started phase eng ct qt Herr) as (-> & -> & _).
    rewrite Hsel, (UninstallLoop_prefix phase ct pre (last :: rest) Hpre).
    rewrite prepend_effects, prepend_returned, !loggedStatuses_app.
    rewrite (proj2 (waitingEffects_quiet phase ct pre)).
    destruct last; try discriminate Hlast; simpl; [|done].
    destruct (errCountAfter 0 pre >? 0); [done|]. by destruct (cancelSeen pre).
  - intros name. rewrite statusMapAfter_lookup. by destruct (lastStatus name pre).
Qed.

Lemma statuses_logged_on_failure_witness :
  let eng := {| uninstallErr := None;
                selects := [statusChan sampleError; statusChan sampleFixed; cancelTimeoutChan;
                            statusChan sampleSuccess; statusChanClosed] |} in
  loggedStatuses (effects (uninstallComponents UninstallComponents eng 600 1200))
  = [{[ "istio" := "Success"; "dex" := "Success" ]}].
Proof.
  destruct (statuses_logged_on_failure UninstallComponents
    {| uninstallErr := None;
       selects := [statusChan sampleError; statusChan sampleFixed; cancelTimeoutChan;
                   statusChan sampleSuccess; statusChanClosed] |}
    600 1200 [statusChan sampleError; statusChan sampleFixed; cancelTimeoutChan;
              statusChan sampleSuccess] statusChanClosed [] eq_refl eq_refl) as [H _].
  - repeat constructor.
  - reflexivity.
  - refine (eq_trans H _). vm_compute. reflexivity.
Defined.

Lemma UninstallLoop_returns phase ct sel :
  ∀ sm n t,
    is_Some (returned (UninstallLoop phase ct sel sm n t))
    ↔ Exists (λ c, keepsWaiting c = false) sel.
Proof.
  induction sel as [|c sel IH]; intros sm n t.
  - simpl. split; [by intros [? ?]|by intros ?%Exists_nil].
  - rewrite Exists_cons. destruct c as [cmp| | |]; simpl.
    + rewrite IH. split; [auto|]. by intros [?|?].
    + split; [auto|]. intros _. destruct (n >? 0); [|destruct t]; by eexists.
    + rewrite IH. split; [auto|]. by intros [?|?].
    + split; [auto|]. intros _. by eexists.
Qed.

(** X4. A call whose engine has started returns exactly when the select at
    some point takes the stream's close or the hard-quit timer; as long as it
    is only given status events and the soft-cancel timer it keeps waiting,
    whatever their number and whatever errors were reported.  A call whose
    engine fails to start always returns. *)
Theorem returns_iff_closed_or_quit phase eng ct qt :
  let r := uninstallComponents phase eng ct qt in
  match uninstallErr eng with
  | Some err => returned r = Some (Some err)
  | None => is_Some (returned r) ↔ Exists (λ c, keepsWaiting c = false) (selects eng)
  end.
Proof.
  intros r. subst r. destruct (uninstallErr eng) as [err|] eqn:Herr.
  - unfold uninstallComponents. by rewrite Herr.
  - destruct (uninstallComponents_started phase eng ct qt Herr) as (_ & -> & _).
    apply UninstallLoop_returns.
Qed.

End SupervisorMoreFacts.

(** ** More on the orchestrator *)

Section OrchestratorMoreFacts.
Import Orchestrator OrchestratorSpec OrchestratorMore.

(** X5. Nothing is uninstalled when the configuration or the list of
    namespaces cannot be had: a failing [getConfig] ends the call with its
    error before anything at all is done, and a failing [mp.Namespaces()] ends
    it with its error after the start line alone; neither phase is run and no
    teardown is called. *)
Theorem nothing_started_without_config cfg w :
  (∀ err, returned (StartKymaUninstallation (Some err) cfg w) = Some (Some err) ∧
          steps (StartKymaUninstallation (Some err) cfg w) = []) ∧
  (∀ err, (mpNamespaces w).2 = Some err →
          returned (StartKymaUninstallation None cfg w) = Some (Some err) ∧
          steps (StartKymaUninstallation None cfg w)
          = [effect (Log Info "Kyma uninstallation started" []); effect cancelFunc] ∧
          existsb isCall (steps (StartKymaUninstallation None cfg w)) = false).
Proof.
  split; [done|]. intros err Hns. unfold StartKymaUninstallation, startKymaUninstallation.
  by rewrite Hns.
Qed.

Lemma nothing_started_without_config_witness :
  returned (StartKymaUninstallation None tenMinutes noMetadataWorld) = Some (Some metadataDown) ∧
  existsb isCall (steps (StartKymaUninstallation None tenMinutes noMetadataWorld)) = false.
Proof.
  destruct (nothing_started_without_config tenMinutes noMetadataWorld) as [_ H].
  destruct (H metadataDown eq_refl) as (H1 & _ & H2). split; [exact H1 | exact H2].
Defined.

(** X6. A run in which both phases end cleanly: the components phase is
    called with the configured budgets, then the prerequisites phase, then
    the teardown, in this order and each once; the teardown is given the
    namespaces of the metadata provider followed by kyma-installer, which is
    added whether or not it is among them; and the run returns what the
    teardown returns, or does not return if the teardown does not. *)
Theorem clean_run_ends_in_teardown cfg w :
  (mpNamespaces w).2 = None →
  let r1 := Supervisor.uninstallComponents UninstallComponents (componentsEng w)
              (CancelTimeout cfg) (QuitTimeout cfg) in
  let ct := calculateDuration (startTime w) (endTime w) (CancelTimeout cfg) in
  let qt := calculateDuration (startTime w) (endTime w) (QuitTimeout cfg) in
  let r2 := Supervisor.uninstallComponents UninstallPreRequisites (prerequisitesEng w) ct qt in
  let namespaces := (mpNamespaces w).1 ++ ["kyma-installer"] in
  let final := Teardown.deleteKymaNamespaces (cluster w) (retryAttempts cfg) (schedule w)
                 namespaces in
  Supervisor.returned r1 = Some None →
  Supervisor.returned r2 = Some None →
  returned (startKymaUninstallation cfg w) = Teardown.result final ∧
  filter (λ st, isCall st = true) (steps (startKymaUninstallation cfg w))
  = [uninstallComponentsCall UninstallComponents (CancelTimeout cfg) (QuitTimeout cfg) r1;
     uninstallComponentsCall UninstallPreRequisites ct qt r2;
     deleteKymaNamespacesCall namespaces final] ∧
  length namespaces = S (length (mpNamespaces w).1) ∧
  list.last namespaces = Some "kyma-installer".
Proof.
  intros Hns r1 ct qt r2 namespaces final H1 H2.
  unfold startKymaUninstallation. rewrite Hns. fold r1. rewrite H1. fold ct qt r2.
  rewrite H2. fold namespaces final. repeat split.
  - by destruct (Teardown.result final).
  - by destruct (Teardown.result final).
  - subst namespaces. rewrite length_app. simpl. lia.
  - subst namespaces. by rewrite last_snoc.
Qed.

Lemma clean_run_ends_in_teardown_witness :
  returned (startKymaUninstallation tenMinutes cleanWorld) = Some None.
Proof.
  destruct (clean_run_ends_in_teardown tenMinutes cleanWorld eq_refl eq_refl eq_refl) as [H _].
  rewrite H. vm_compute. reflexivity.
Defined.

(** X7. The deferred [cancel()]: every run that returns, with or without an
    error, cancels the context as its very last step and at no other point
    of its own; a run that does not return (a phase or the teardown never
    comes back) has not cancelled it. *)
Theorem cancel_deferred_to_return cfg w :
  let run := startKymaUninstallation cfg w in
  match returned run with
  | Some _ =>
      ∃ before, steps run = before ++ [effect cancelFunc] ∧
                existsb isCancelStep before = false
  | None => existsb isCancelStep (steps run) = false
  end.
Proof.
  intros run. subst run. unfold startKymaUninstallation.
  destruct (mpNamespaces w).2; [by eexists|].
  destruct (Supervisor.returned _) as [[err|]|]; [by eexists| |done].
  destruct (Supervisor.returned _) as [[err|]|]; [by eexists| |done].
  destruct (Teardown.result _); [by eexists|done].
Qed.

End OrchestratorMoreFacts.

(** ** More on the teardown coordinator *)

Section TeardownMoreFacts.
Import Teardown TeardownSpec TeardownMore.

Variable c : Cluster.
Variable attempts : nat.

Ltac fields_step :=
  cbn [caller workers wg closer crashed trace received
       setCaller setWorkers setWg setCloser crash record receive
       position namespace todo exited spawn proceed finish].
Ltac fields :=
  fields_step;
  repeat (progress (rewrite ?wgDone_caller, ?wgDone_workers, ?wgDone_closer,
                      ?wgDone_trace, ?wgDone_received); fields_step).

(** X8. Once a call has returned nothing of it is left behind: every worker
    has exited, the closer has closed both channels, and no goroutine of the
    call can take a further step, so the state stays as it is under every
    continuation. *)
Theorem nothing_outlives_the_call nss sched errWrapped :
  let s := deleteKymaNamespaces c attempts sched nss in
  result s = Some errWrapped →
  closer s = closedFinishedCh ∧
  Forall (λ wk, exited wk = true) (workers s) ∧
  (∀ ch, step c attempts ch s = None) ∧
  ∀ sched', run c attempts sched' s = s.
Proof.
  intros s Hres.
  assert (Hr : reachable c attempts nss s) by by exists sched.
  pose proof (returned_all_finished c attempts nss s errWrapped Hr Hres) as Hfin.
  destruct (reachable_SyncInv c attempts nss s Hr) as (_ & Hcl & _).
  unfold result in Hres. destruct (caller s) eqn:Hpc; try done.
  assert (Hstep : ∀ ch, step c attempts ch s = None).
  { intros ch. unfold step. destruct (crashed s); [done|]. destruct ch.
    - unfold stepCaller. by rewrite Hpc.
    - unfold stepWorker. destruct (workers s !! w) as [wk|] eqn:Hw; [|done].
      rewrite Forall_lookup in Hfin. destruct (Hfin w wk Hw) as [-> _]. done.
    - unfold stepRecvError. by rewrite Hpc.
    - by rewrite Hpc.
    - by rewrite Hpc.
    - unfold stepCloser. by rewrite Hcl. }
  split; [done|]. split; [|split; [done|]].
  - eapply Forall_impl; [exact Hfin|]. by intros wk [? _].
  - induction sched' as [|ch sched' IH]; [done|]. simpl. by rewrite Hstep.
Qed.

Lemma Transition_Unharmed nss s s' :
  NoNil c attempts nss → SyncInv s → SpawnInv c attempts nss s →
  Transition c attempts s s' → Unharmed s → Unharmed s'.
Proof.
  intros Hnn Hsync Hsp H (Hc & Hp). unfold Unharmed.
  destruct H; fields; try done.
  - destruct (Hnn i ns (SpawnInv_lookup c attempts _ _ _ _ _ Hsp H0)) as [_ Hnp].
    split; [done|]. apply Forall_app. split; [done|]. repeat constructor.
    apply Hnp. unfold precheck. by rewrite H1.
  - destruct Hsync as (Hwg & _). rewrite H0 in Hwg. cbn [length] in Hwg.
    rewrite wgDone_crashed by (cbn; lia). done.
  - destruct (Hnn i ns (SpawnInv_lookup c attempts _ _ _ _ _ Hsp H0)) as [Hnp _].
    unfold precheck in Hnp. by rewrite H1 in Hnp.
  - destruct (SyncInv_active_open s w wk Hsync H0 H1) as [Hpos _].
    rewrite wgDone_crashed by (cbn; lia). fields.
    split; [done|]. apply Forall_insert; [done|]. done.
  - split; [done|]. apply Forall_insert; [done|]. cbn.
    rewrite Forall_lookup in Hp. specialize (Hp w wk H0). by rewrite H2 in Hp.
  - destruct (SyncInv_active_open s w wk Hsync H0 H1) as [_ Hopen]. congruence.
  - rewrite Forall_lookup in Hp. specialize (Hp w wk H0). by rewrite H2 in Hp.
  - split; [done|]. apply Forall_insert; [done|]. cbn.
    rewrite Forall_lookup in Hp. specialize (Hp w wk H1). by rewrite H3 in Hp.
Qed.

(** X9. The synchronisation itself never panics.  If no list pointer handed
    back by the cluster client is nil, then under every schedule, and also
    when a pre-check is stuck sending, the process is never brought down: the
    WaitGroup counter never drops below zero, and no worker ever sends on the
    closed errorCh. *)
Theorem synchronisation_never_panics nss sched :
  NoNil c attempts nss →
  let s := deleteKymaNamespaces c attempts sched nss in
  crashed s = false ∧ 0 ≤ wg s ∧
  Forall (λ wk, exited wk = false → errorChClosed s = false) (workers s).
Proof.
  intros Hnn s. subst s. unfold deleteKymaNamespaces.
  assert (H : SyncInv (run c attempts sched (start nss)) ∧
              SpawnInv c attempts nss (run c attempts sched (start nss)) ∧
              Unharmed (run c attempts sched (start nss))).
  { apply (run_invariant c attempts
             (λ s, SyncInv s ∧ SpawnInv c attempts nss s ∧ Unharmed s)).
    - intros s1 s2 Ht (Hsync & Hsp & Hu). split; [|split].
      + by eapply Transition_SyncInv.
      + by eapply Transition_SpawnInv.
      + by eapply Transition_Unharmed.
    - split; [apply start_SyncInv|]. split; [by exists []|]. by split. }
  destruct H as (Hsync & _ & Hc & _). split; [done|]. split.
  - destruct Hsync as (Hwg & _). destruct (caller _); lia.
  - apply Forall_lookup. intros w wk Hw He.
    by destruct (SyncInv_active_open _ w wk Hsync Hw He).
Qed.

(** *** What is done in the name of a namespace *)

(** X10. What the trace holds in the name of the namespace at position [k] is
    at every moment an initial part of the effects of its worker body, in the
    order of the body; it is empty as long as, and whenever, the namespace has
    not passed its pre-check; and once the call has returned it is the whole
    of the body's effects, for every namespace that passed.  So in the trace
    of a returned call the finalizer clearing of kyma-system precedes its
    namespace delete, and every spawned worker has logged its last line. *)
Theorem worker_effects_in_order nss sched k ns :
  nss !! k = Some ns →
  let s := deleteKymaNamespaces c attempts sched nss in
  ofWorker k (trace s) `prefix_of` effectsOf (worker c k ns) ∧
  (precheck c attempts k ns ≠ passed → ofWorker k (trace s) = []) ∧
  (is_Some (result s) → precheck c attempts k ns = passed →
     ofWorker k (trace s) = effectsOf (worker c k ns)).
Proof.
  intros Hk s.
  assert (Hr : reachable c attempts nss s) by by exists sched.
  pose proof (reachable_WorkInv c attempts nss s Hr) as Hw.
  destruct (reachable_TraceInv c attempts nss s Hr) as [Htr _].
  assert (Hcases : (∃ wk, wk ∈ workers s ∧ position wk = k ∧ namespace wk = ns) ∨
                   k ∉ (position <$> workers s)).
  { destruct (decide (k ∈ position <$> workers s)) as [Hin|]; [left|by right].
    apply list_elem_of_fmap in Hin as (wk & -> & Hin). exists wk. repeat split; [done|].
    destruct (reachable_worker_passed c attempts nss s wk Hr Hin) as [Hl _]. congruence. }
  assert (Habsent : k ∉ (position <$> workers s) → ofWorker k (trace s) = []).
  { intros Hno. apply ofWorker_absent. intros e Hin. by apply Hno, (Htr k e). }
  split; [|split].
  - destruct Hcases as [(wk & Hin & <- & <-)|Hno].
    + unfold WorkInv in Hw. rewrite Forall_forall in Hw. rewrite (Hw wk Hin).
      by apply prefix_app_r.
    + rewrite (Habsent Hno). apply prefix_nil.
  - intros Hnp. destruct Hcases as [(wk & Hin & <- & <-)|Hno]; [|by apply Habsent].
    by destruct (reachable_worker_passed c attempts nss s wk Hr Hin) as [_ ?].
  - intros [errWrapped Hres] Hp.
    pose proof (returned_all_finished c attempts nss s errWrapped Hr Hres) as Hfin.
    destruct (returned_received c attempts nss s errWrapped Hr Hres) as (Hsp & _ & _).
    assert (Hin : (k, ns) ∈ key <$> workers s).
    { rewrite Hsp. apply (spawned_elem c attempts nss 0 k ns); done. }
    apply list_elem_of_fmap in Hin as (wk & [= -> ->] & Hin).
    unfold WorkInv in Hw. rewrite Forall_forall in Hw, Hfin.
    rewrite (Hw wk Hin). destruct (Hfin wk Hin) as [_ ->]. by rewrite app_nil_r.
Qed.

(** *** The pre-check *)

Lemma firstRunning_nil ns ps :
  firstRunning ns ps = returnsNil ↔ Forall (λ pod, podPhase pod ≠ PodRunning) ps.
Proof.
  induction ps as [|pod ps IH]; simpl; [by split; [constructor|]|].
  rewrite Forall_cons. destruct (String.eqb (podPhase pod) PodRunning) eqn:E.
  - apply String.eqb_eq in E. split; [done|]. by intros [? _].
  - apply String.eqb_neq in E. rewrite IH. tauto.
Qed.

Lemma firstRunning_err ns ps :
  (∃ err, firstRunning ns ps = returnsErr err) ↔ Exists (λ pod, podPhase pod = PodRunning) ps.
Proof.
  induction ps as [|pod ps IH]; simpl.
  - split; [by intros [? ?]|by intros ?%Exists_nil].
  - rewrite Exists_cons. destruct (String.eqb (podPhase pod) PodRunning) eqn:E.
    + apply String.eqb_eq in E. split; [auto|eauto].
    + apply String.eqb_neq in E. rewrite IH. tauto.
Qed.

Lemma closure_nil i ns n : (closure c i ns n).2 = returnsNil ↔ quietAt c i n.
Proof.
  unfold closure, quietAt. simpl. destruct (listErr (podsList c i n)).
  - split; [done|]. by intros [? _].
  - destruct (items (podsList c i n)) as [ps|].
    + rewrite firstRunning_nil. split; [eauto|]. by intros (_ & ps' & [= <-] & ?).
    + split; [done|]. by intros (_ & ps' & ? & _).
Qed.

Lemma closure_err i ns n : (∃ err, (closure c i ns n).2 = returnsErr err) ↔ runningAt c i n.
Proof.
  unfold closure, runningAt. simpl. destruct (listErr (podsList c i n)).
  - split; [by intros [? ?]|]. by intros [? _].
  - destruct (items (podsList c i n)) as [ps|].
    + rewrite firstRunning_err. split; [eauto|]. by intros (_ & ps' & [= <-] & ?).
    + split; [by intros [? ?]|]. by intros (_ & ps' & ? & _).
Qed.

Lemma retryDo_passed (f : nat → list Effect * ClosureResult) remaining :
  ∀ n0,
    (retryDo f remaining n0).2 = passed
    ↔ ∃ n, (n0 ≤ n < n0 + remaining)%nat ∧ (f n).2 = returnsNil ∧
           ∀ m, (n0 ≤ m < n)%nat → ∃ err, (f m).2 = returnsErr err.
Proof.
  induction remaining as [|remaining IH]; intros n0.
  - simpl. split; [done|]. intros (n & Hn & _). lia.
  - simpl. specialize (IH (S n0)).
    destruct (f n0) as [effs res] eqn:Hf.
    destruct res as [|err|err|].
    + simpl. split; [|done]. intros _. exists n0. rewrite Hf. repeat split; [lia..|].
      intros m Hm. lia.
    + destruct (retryDo f remaining (S n0)) as [effs' r]. simpl in *. rewrite IH. split.
      * intros (n & Hn & Hnil & Hbefore). exists n. repeat split; [lia..|done|].
        intros m Hm. destruct (decide (m = n0)) as [->|]; [rewrite Hf; eauto|].
        apply Hbefore. lia.
      * intros (n & Hn & Hnil & Hbefore).
        assert (n ≠ n0) by (intros ->; by rewrite Hf in Hnil).
        exists n. repeat split; [lia..|done|]. intros m Hm. apply Hbefore. lia.
    + simpl. split; [done|]. intros (n & Hn & Hnil & Hbefore).
      destruct (decide (n = n0)) as [->|]; [by rewrite Hf in Hnil|].
      destruct (Hbefore n0 ltac:(lia)) as [e He]. by rewrite Hf in He.
    + simpl. split; [done|]. intros (n & Hn & Hnil & Hbefore).
      destruct (decide (n = n0)) as [->|]; [by rewrite Hf in Hnil|].
      destruct (Hbefore n0 ltac:(lia)) as [e He]. by rewrite Hf in He.
Qed.

Lemma retryDo_calls (f : nat → list Effect * ClosureResult) remaining :
  (∀ n, length (f n).1 = 1%nat) →
  ∀ n0, (length (retryDo f remaining n0).1 ≤ remaining)%nat.
Proof.
  intros Hone. induction remaining as [|remaining IH]; intros n0; [done|].
  simpl. specialize (IH (S n0)). specialize (Hone n0).
  destruct (f n0) as [effs res]. simpl in Hone.
  destruct res; simpl; try lia.
  destruct (retryDo f remaining (S n0)) as [effs' r]. simpl in *.
  rewrite length_app. lia.
Qed.

(** X11. A namespace passes its pre-check exactly when some attempt within the
    retry policy lists its pods without error and finds none of them Running
    (pods in any other phase, Pending, Succeeded or Failed, do not hold it
    up), every attempt before having listed them with one Running.  The
    pre-check never lists the pods more often than the policy has
    attempts. *)
Theorem precheck_passes_iff i ns :
  (precheck c attempts i ns = passed
   ↔ ∃ n, (n < attempts)%nat ∧ quietAt c i n ∧ ∀ m, (m < n)%nat → runningAt c i m) ∧
  (length (retryDo (closure c i ns) attempts 0).1 ≤ attempts)%nat.
Proof.
  split.
  - unfold precheck. rewrite retryDo_passed. split.
    + intros (n & Hn & Hnil & Hbefore). exists n. split; [lia|].
      split; [by apply (closure_nil i ns)|].
      intros m Hm. apply (closure_err i ns). apply Hbefore. lia.
    + intros (n & Hn & Hq & Hbefore). exists n. split; [lia|].
      split; [by apply closure_nil|].
      intros m Hm. apply closure_err. apply Hbefore. lia.
  - by apply retryDo_calls.
Qed.

(** *** No namespaces *)

Lemma Transition_empty s s' :
  SpawnInv c attempts [] s → Transition c attempts s s' →
  workers s = [] ∧ trace s = [] → workers s' = [] ∧ trace s' = [].
Proof.
  intros Hsp H [Hw Ht].
  assert (Hnone : ∀ i ns rest, caller s ≠ rangeNamespaces i (ns :: rest)).
  { intros i ns rest Hpc. unfold SpawnInv in Hsp. rewrite Hpc in Hsp.
    destruct Hsp as (seen & Heq & _). by destruct seen. }
  destruct H; fields; try done; try (by destruct (Hnone _ _ _ H0));
    try (by rewrite Hw in *).
Qed.

(** X12. Called with no namespace at all, the coordinator spawns no worker and
    makes no call to the cluster, whatever the schedule; when it returns it
    returns nil, and it can always go on to return. *)
Theorem no_namespaces_nothing_done sched :
  let s := deleteKymaNamespaces c attempts sched [] in
  workers s = [] ∧ trace s = [] ∧
  (∀ errWrapped, result s = Some errWrapped → errWrapped = None) ∧
  ∃ sched', result (deleteKymaNamespaces c attempts (sched ++ sched') []) = Some None.
Proof.
  intros s.
  assert (Hr : ∀ sched0, reachable c attempts [] (deleteKymaNamespaces c attempts sched0 []))
    by (intros sched0; by exists sched0).
  assert (Hempty : ∀ sched0, workers (deleteKymaNamespaces c attempts sched0 []) = [] ∧
                             trace (deleteKymaNamespaces c attempts sched0 []) = []).
  { intros sched0. unfold deleteKymaNamespaces.
    cut (SpawnInv c attempts [] (run c attempts sched0 (start [])) ∧
         (workers (run c attempts sched0 (start [])) = [] ∧
          trace (run c attempts sched0 (start [])) = [])); [tauto|].
    apply (run_invariant c attempts
             (λ s, SpawnInv c attempts [] s ∧ (workers s = [] ∧ trace s = []))).
    - intros s1 s2 Ht [Hsp He]. split;
        [by eapply Transition_SpawnInv | by eapply Transition_empty].
    - split; [by exists []|done]. }
  assert (Hnil : ∀ sched0 errWrapped,
            result (deleteKymaNamespaces c attempts sched0 []) = Some errWrapped →
            errWrapped = None).
  { intros sched0 errWrapped Hres.
    destruct (returned_received c attempts [] _ errWrapped (Hr sched0) Hres) as (_ & Hperm & ->).
    destruct (Hempty sched0) as [Hw _]. rewrite Hw in Hperm.
    apply combined_None. by apply Permutation_nil_r. }
  destruct (Hempty sched) as [Hw Ht].
  split; [done|]. split; [done|]. split; [by apply Hnil|].
  destruct (benign_returns c attempts [] sched) as [sched' Hres]; [by intros i ns ?|].
  exists sched'.
  destruct (result (deleteKymaNamespaces c attempts (sched ++ sched') [])) as [errWrapped|] eqn:E;
    [|done].
  by rewrite (Hnil (sched ++ sched') errWrapped E).
Qed.

End TeardownMoreFacts.

Section TeardownMoreSamples.
Import Teardown TeardownSpec TeardownMore.

Lemma nothing_outlives_the_call_witness :
  result (deleteKymaNamespaces clusterXY 1 scheduleXY abc)
  = Some (Some (Wrap (statusError false "Y") "X")) ∧
  closer (deleteKymaNamespaces clusterXY 1 scheduleXY abc) = closedFinishedCh ∧
  run clusterXY 1 [runCaller; recvFinished; runWorker 0; runCloser]
    (deleteKymaNamespaces clusterXY 1 scheduleXY abc)
  = deleteKymaNamespaces clusterXY 1 scheduleXY abc.
Proof.
  assert (H : result (deleteKymaNamespaces clusterXY 1 scheduleXY abc)
              = Some (Some (Wrap (statusError false "Y") "X"))) by (vm_compute; reflexivity).
  split; [exact H|].
  destruct (nothing_outlives_the_call clusterXY 1 abc scheduleXY _ H) as (Hc & _ & _ & Hrun).
  split; [exact Hc|apply Hrun].
Defined.

Lemma clusterXY_NoNil : NoNil clusterXY 1 abc.
Proof.
  intros i ns Hi.
  destruct i as [|[|[|i]]]; try done; injection Hi as <-; split; done.
Defined.

Lemma synchronisation_never_panics_witness :
  crashed (deleteKymaNamespaces clusterXY 1 [runCaller; runWorker 0; runCloser; recvError 0] abc)
  = false.
Proof.
  destruct (synchronisation_never_panics clusterXY 1 abc
              [runCaller; runWorker 0; runCloser; recvError 0] clusterXY_NoNil) as [H _].
  exact H.
Defined.

Lemma worker_effects_in_order_witness :
  ofWorker 1 (trace (deleteKymaNamespaces clusterXY 1 scheduleXY abc))
  = effectsOf (worker clusterXY 1 "b") ∧
  ofWorker 1 (trace (deleteKymaNamespaces livePodCluster 3 scheduleXY abc)) = [].
Proof.
  destruct (worker_effects_in_order clusterXY 1 abc scheduleXY 1 "b" eq_refl) as (_ & _ & H).
  destruct (worker_effects_in_order livePodCluster 3 abc scheduleXY 1 "b" eq_refl) as (_ & H' & _).
  split.
  - apply H; [vm_compute; eauto | reflexivity].
  - apply H'. vm_compute. discriminate.
Defined.

Lemma precheck_passes_iff_witness :
  precheck settlingCluster 3 0 "kyma-system" = passed ∧
  precheck settlingCluster 2 0 "kyma-system" = exhausted.
Proof.
  split; [|reflexivity].
  apply (precheck_passes_iff settlingCluster 3 0 "kyma-system").
  exists 2%nat. split; [lia|]. split.
  - split; [reflexivity|]. eexists. split; [reflexivity|]. repeat constructor. discriminate.
  - intros m Hm. split; [reflexivity|].
    destruct m as [|[|m]]; [| |lia];
      (eexists; split; [reflexivity|]; apply Exists_cons_tl, Exists_cons_hd; reflexivity).
Defined.

End TeardownMoreSamples.


(** ** [NewDeletion] *)

Section ConstructionFacts.
Import Construction.

#[local] Ltac stopped :=
  let H := fresh in
  intros H; repeat (apply elem_of_cons in H as [H|H]; [discriminate|]);
  by apply elem_of_nil in H.

(** X13. [NewDeletion] returns the error of the first step that fails and
    makes no call after it; with no failure it makes all its calls and
    returns a [Deletion].  The overrides interceptors are registered exactly
    when the validation and the four client constructions succeed, so also
    when the metadata provider then fails and no [Deletion] is returned. *)
Theorem NewDeletion_first_failure (a : Answers) :
  match firstFailure (checks a) with
  | Some (call, err) =>
      (NewDeletion a).2 = Some err ∧ last (NewDeletion a).1 = Some call
  | None => NewDeletion a = (allCalls, None)
  end ∧
  (NewDeletion a).1 `prefix_of` allCalls ∧
  (registerOverridesInterceptors ∈ (NewDeletion a).1 ↔
     validateDeletion a = None ∧ restConfig a = None ∧ kubeClient a = None ∧
     scclient a = None ∧ dClient a = None).
Proof.
  destruct a as [v r k sc d mp]. unfold NewDeletion, checks, allCalls. cbn.
  destruct v; cbn; [split; [done|split; [by eexists|split; [stopped|by intros (?&?)]]]|].
  destruct r; cbn; [split; [done|split; [by eexists|split; [stopped|by intros (?&?&?)]]]|].
  destruct k; cbn; [split; [done|split; [by eexists|split; [stopped|by intros (?&?&?&?)]]]|].
  destruct sc; cbn; [split; [done|split; [by eexists|split; [stopped|by intros (?&?&?&?&?)]]]|].
  destruct d; cbn; [split; [done|split; [by eexists|split; [stopped|by intros (?&?&?&?&?)]]]|].
  destruct mp; cbn; (split; [done|split; [by exists []|split; [done|intros _]]]);
    do 5 apply list_elem_of_further; apply list_elem_of_here.
Qed.

End ConstructionFacts.

(** ** The Terraform client *)

Section TerraformFacts.
Import Terraform TerraformSpec.

(** *** Variables *)

Lemma Var_Vars name value p :
  Vars (Var name value p) = Some (<[name := value]> (default ∅ (Vars p))).
Proof.
  unfold Var. destruct (Vars p) as [m|]; simpl; [|done].
  case_decide as Hsize; [|done].
  apply map_size_empty_iff in Hsize. by subst.
Qed.

Lemma BindVarsIn_rest order p :
  Code (BindVarsIn order p) = Code p ∧
  Providers (BindVarsIn order p) = Providers p ∧
  Provisioners (BindVarsIn order p) = Provisioners p.
Proof.
  revert p. induction order as [|[n v] order IH]; intros p; [done|].
  unfold BindVarsIn in *. simpl. destruct (IH (Var n v p)) as (-> & -> & ->). done.
Qed.

Lemma BindVarsIn_Vars order p :
  order ≠ [] →
  Vars (BindVarsIn order p)
  = Some (foldl (λ m nv, <[nv.1 := nv.2]> m) (default ∅ (Vars p)) order).
Proof.
  intros Hne. destruct order as [|[n v] order]; [done|]. clear Hne.
  unfold BindVarsIn. simpl.
  assert (Vars (Var n v p) = Some (<[n := v]> (default ∅ (Vars p)))) as Hv
    by apply Var_Vars.
  revert Hv. generalize (Var n v p) (<[n := v]> (default ∅ (Vars p))).
  induction order as [|[n' v'] order IH]; intros q m Hq; [done|].
  simpl. apply IH. rewrite Var_Vars, Hq. done.
Qed.

Lemma foldl_insert_union (order : list (string * Value)) (m : gmap string Value) :
  NoDup order.*1 →
  foldl (λ m nv, <[nv.1 := nv.2]> m) m order = list_to_map order ∪ m.
Proof.
  revert m. induction order as [|[n v] order IH]; intros m Hnd; simpl.
  - by rewrite (left_id ∅ (∪)).
  - apply NoDup_cons in Hnd as [Hn Hnd]. rewrite IH by done.
    rewrite <- insert_union_l. symmetry. apply insert_union_r.
    by apply not_elem_of_list_to_map_1.
Qed.

(** X14. [BindVars] gives the same variables whatever order the range over
    [vars] takes: the bound variables, which replace those of the same name,
    and the platform's other variables; nothing else of the platform
    changes.  Binding no variable leaves [Vars] as it is, nil included. *)
Theorem BindVars_any_order (vars : option (gmap string Value))
    (order : list (string * Value)) (p : Platform) :
  order ≡ₚ map_to_list (default ∅ vars) →
  Vars (BindVarsIn order p)
  = (if decide (default ∅ vars = ∅) then Vars p
     else Some (default ∅ vars ∪ default ∅ (Vars p))) ∧
  Vars (BindVarsIn order p) = Vars (BindVars vars p) ∧
  Code (BindVarsIn order p) = Code p ∧
  Providers (BindVarsIn order p) = Providers p ∧
  Provisioners (BindVarsIn order p) = Provisioners p.
Proof.
  intros Hperm.
  assert (∀ order', order' ≡ₚ map_to_list (default ∅ vars) →
            Vars (BindVarsIn order' p)
            = (if decide (default ∅ vars = ∅) then Vars p
               else Some (default ∅ vars ∪ default ∅ (Vars p)))) as Hany.
  { clear order Hperm. intros order Hperm. case_decide as Hempty.
    - rewrite Hempty, map_to_list_empty in Hperm.
      apply Permutation_nil_r in Hperm. by subst.
    - assert (NoDup order.*1) as Hnd.
      { rewrite Hperm. apply NoDup_fst_map_to_list. }
      rewrite BindVarsIn_Vars.
      + rewrite foldl_insert_union by done. f_equal. f_equal.
        rewrite (list_to_map_proper order (map_to_list (default ∅ vars))) by done.
        apply list_to_map_to_list.
      + intros ->. apply Permutation_nil_l in Hperm. symmetry in Hperm.
        by apply map_to_list_empty_iff in Hperm. }
  split; [by apply Hany|]. split; [|apply BindVarsIn_rest].
  rewrite (Hany order Hperm). unfold BindVars. by rewrite (Hany _ (reflexivity _)).
Qed.

Lemma BindVars_any_order_witness :
  let vars : gmap string Value := <["zone" := VString "b"]> {[ "nodes" := VNumber 3 ]} in
  let order := [("zone", VString "b"); ("nodes", VNumber 3)] in
  let p := Var "zone" (VString "a") (Var "project" (VString "kyma") (NewPlatform "code")) in
  order ≡ₚ map_to_list vars ∧
  Vars (BindVarsIn order p)
  = Some (<["zone" := VString "b"]> (<["nodes" := VNumber 3]> {[ "project" := VString "kyma" ]})).
Proof.
  intros vars order p.
  assert (order ≡ₚ map_to_list (default ∅ (Some vars))) as Hperm.
  { subst vars order. simpl. rewrite map_to_list_insert by done.
    by rewrite map_to_list_singleton. }
  split; [exact Hperm|].
  destruct (BindVars_any_order (Some vars) order p Hperm) as [-> _].
  vm_compute. reflexivity.
Defined.

(** *** Building a platform *)

Lemma buildAll_cons b bs p : buildAll (b :: bs) p = build b p ≫= buildAll bs.
Proof.
  unfold buildAll. simpl. destruct (build b p) as [q|]; simpl; [done|].
  induction bs as [|b' bs IH]; [done|]. simpl. exact IH.
Qed.

Lemma build_maps b p q :
  build b p = Some q →
  Code q = Code p ∧
  (is_Some (Providers q) ↔ is_Some (Providers p)) ∧
  (is_Some (Provisioners q) ↔ is_Some (Provisioners p)).
Proof.
  destruct b as [n pr|n pr|n v|order]; simpl.
  - unfold AddProvider. destruct (Providers p) eqn:Hp; [|done].
    intros [= <-]. simpl. split; [done|]. split; [|done]. split; by eexists.
  - unfold AddProvisioner. destruct (Provisioners p) eqn:Hp; [|done].
    intros [= <-]. simpl. split; [done|]. split; [done|]. split; by eexists.
  - intros [= <-]. done.
  - intros [= <-]. destruct (BindVarsIn_rest order p) as (-> & -> & ->). done.
Qed.

Lemma build_is_Some b p :
  is_Some (build b p) ↔
  (is_Some (Providers p) ∨ addsAProvider b = false) ∧
  (is_Some (Provisioners p) ∨ addsAProvisioner b = false).
Proof.
  destruct b as [n pr|n pr|n v|order]; simpl.
  - unfold AddProvider. destruct (Providers p); split.
    + intros _. split; [left; by eexists|by right].
    + intros _. by eexists.
    + by intros [? ?].
    + intros [[[? ?]|?] _]; done.
  - unfold AddProvisioner. destruct (Provisioners p); split.
    + intros _. split; [by right|left; by eexists].
    + intros _. by eexists.
    + by intros [? ?].
    + intros [_ [[? ?]|?]]; done.
  - split; [intros _; split; by right|intros _; by eexists].
  - split; [intros _; split; by right|intros _; by eexists].
Qed.

Lemma buildAll_is_Some bs p :
  is_Some (buildAll bs p) ↔
  (is_Some (Providers p) ∨ forallb (λ b, negb (addsAProvider b)) bs = true) ∧
  (is_Some (Provisioners p) ∨ forallb (λ b, negb (addsAProvisioner b)) bs = true).
Proof.
  revert p. induction bs as [|b bs IH]; intros p.
  - split; [intros _; split; by right|intros _; by eexists].
  - rewrite buildAll_cons. simpl. rewrite !andb_true_iff, !negb_true_iff.
    destruct (build b p) as [q|] eqn:Hb; simpl.
    + rewrite IH. destruct (build_maps _ _ _ Hb) as (_ & -> & ->).
      assert (is_Some (build b p)) as Hsome by by eexists.
      apply build_is_Some in Hsome. tauto.
    + assert (¬ is_Some (build b p)) as Hnone by (rewrite Hb; by intros [? ?]).
      rewrite build_is_Some in Hnone. split; [by intros [? ?]|]. tauto.
Qed.

Lemma buildAll_Code bs p q : buildAll bs p = Some q → Code q = Code p.
Proof.
  revert p. induction bs as [|b bs IH]; intros p.
  - by intros [= <-].
  - rewrite buildAll_cons. destruct (build b p) as [p'|] eqn:Hb; [|done]. simpl.
    intros Hq. rewrite (IH _ Hq). by destruct (build_maps _ _ _ Hb) as (-> & _).
Qed.

Lemma buildAll_keeps_provider name provider bs p q :
  buildAll bs p = Some q →
  getProviderResolver p !! name = Some provider →
  forallb (λ b, negb (addsProvider name b)) bs = true →
  getProviderResolver q !! name = Some provider.
Proof.
  revert p. induction bs as [|b bs IH]; intros p.
  - by intros [= <-].
  - rewrite buildAll_cons. destruct (build b p) as [p'|] eqn:Hb; [|done]. simpl.
    rewrite andb_true_iff, negb_true_iff. intros Hq Hp [Hb' Hbs].
    apply (IH p'); [done| |done]. clear IH Hq Hbs.
    destruct b as [n pr|n pr|n v|order]; simpl in *.
    + unfold AddProvider in Hb. unfold getProviderResolver in *.
      destruct (Providers p) as [m|]; [|done]. injection Hb as <-. simpl in *.
      apply bool_decide_eq_false in Hb'. by rewrite lookup_insert_ne.
    + unfold AddProvisioner in Hb. destruct (Provisioners p); [|done].
      by injection Hb as <-.
    + by injection Hb as <-.
    + injection Hb as <-. unfold getProviderResolver in *.
      by destruct (BindVarsIn_rest order p) as (_ & -> & _).
Qed.

(** X15. A chain of [AddProvider], [AddProvisioner], [Var] and [BindVars]
    calls panics exactly when it adds a provider to a platform whose
    [Providers] map is nil or a provisioner to one whose [Provisioners] map
    is nil; [Var] and [BindVars] never panic, on a nil [Vars] either. *)
Theorem builder_panics_iff (bs : list Build) (p : Platform) :
  buildAll bs p = None ↔
  (Providers p = None ∧ existsb addsAProvider bs = true) ∨
  (Provisioners p = None ∧ existsb addsAProvisioner bs = true).
Proof.
  assert (∀ f, existsb f bs = true ↔ forallb (λ b, negb (f b)) bs ≠ true) as Hex.
  { intros f. induction bs as [|b bs IH]; simpl; [done|].
    rewrite orb_true_iff, andb_true_iff, IH.
    destruct (f b); simpl; intuition congruence. }
  rewrite !Hex, eq_None_not_Some, buildAll_is_Some, <- !not_eq_None_Some.
  destruct (Providers p), (Provisioners p);
    destruct (forallb (λ b, negb (addsAProvider b)) bs),
             (forallb (λ b, negb (addsAProvisioner b)) bs);
    intuition congruence.
Qed.

(** X16. On a platform made by [NewPlatform] no chain of builder calls
    panics; the code stays the one given, and the default [null] provider is
    still resolved under its name unless a provider was added under that
    name. *)
Theorem NewPlatform_builds (code : string) (bs : list Build) :
  ∃ p, buildAll bs (NewPlatform code) = Some p ∧
       Code p = code ∧
       (forallb (λ b, negb (addsProvider "null" b)) bs = true →
        getProviderResolver p !! "null" = Some NullProvider).
Proof.
  destruct (buildAll bs (NewPlatform code)) as [p|] eqn:Hp.
  - exists p. split; [done|]. split; [by rewrite (buildAll_Code _ _ _ Hp)|].
    intros Hbs. by apply (buildAll_keeps_provider _ _ _ _ _ Hp).
  - assert (is_Some (buildAll bs (NewPlatform code))) as [? Hsome].
    { apply buildAll_is_Some. split; left; by eexists. }
    congruence.
Qed.

(** *** [module], [Apply] and [Plan] *)

Lemma module_no_code p w :
  Code p = "" → module p w = ([], Some (errorString "no code to apply")).
Proof. unfold module. by intros ->. Qed.

Lemma module_ctx_free p w : forallb (λ call, negb (isCtxCall call)) (module p w).1 = true.
Proof.
  unfold module. destruct (Nat.eqb _ _); [done|].
  destruct (tempDir w) as [dir [e|]]; [done|]. simpl.
  destruct (create w); [done|].
  destruct (copy w); [done|]. destruct (newTreeModule w); [done|].
  destruct (load w); [done|]. done.
Qed.

(** X17. Once [module] has made its temporary directory it removes it,
    once and as its last step, whatever fails in between; the file
    [main.tf], if it could be created, is closed once, right before that. *)
Theorem module_cleans_up (p : Platform) (w : World) :
  Code p ≠ "" →
  (tempDir w).2 = None →
  let dir := (tempDir w).1 in
  let calls := (module p w).1 in
  last calls = Some (RemoveAll dir) ∧
  removals calls = [dir] ∧
  match create w with
  | None =>
      closings calls = [Join dir "main.tf"] ∧
      calls !! (length calls - 2)%nat = Some (Close (Join dir "main.tf"))
  | Some err => closings calls = [] ∧ (module p w).2 = Some err
  end.
Proof.
  intros Hcode Htemp. unfold module.
  destruct (Code p) as [|a code] eqn:Hc; [done|]. clear Hcode.
  change (Nat.eqb (String.length (String a code)) 0) with false. cbv iota.
  destruct (tempDir w) as [dir o]. simpl in Htemp. subst o. cbv beta iota zeta. simpl fst.
  destruct (create w); [done|].
  destruct (copy w); [done|]. destruct (newTreeModule w); [done|].
  destruct (load w); [done|]. done.
Qed.

Lemma module_cleans_up_witness :
  removals (module TerraformSpec.samplePlatform TerraformSpec.quietWorld).1
  = ["/tmp/.hydroform123"].
Proof.
  assert (Code samplePlatform ≠ "") as Hcode by discriminate.
  destruct (module_cleans_up samplePlatform quietWorld Hcode eq_refl) as (_ & H & _).
  exact H.
Defined.

Lemma newContext_calls p st d w :
  ∃ ctx, (newContext p st d w).1 = (module p w).1 ++ ctx ∧
         (newContext p st d w).2
         = match (module p w).2 with Some e => Some e | None => newContextErr w end ∧
         ctx = match (module p w).2 with
               | Some _ => []
               | None => [NewContext d st (Vars p) (getProviderResolver p)
                            (getProvisioners (perIteration w) p)]
               end.
Proof.
  unfold newContext. destruct (module p w) as [calls [e|]]; simpl.
  - exists []. by rewrite app_nil_r.
  - by eexists.
Qed.

(** X18. [Apply] gets to applying exactly when the module, the context, the
    refresh and the plan all succeed; it then returns the context's state
    together with whatever error applying gave, so the new state also when
    applying failed.  In every other case it returns the state it was given
    and the error met, and has not applied anything. *)
Theorem Apply_returns (p : Platform) (st : State) (d : bool) (w : World) :
  let calls := (Apply p st d w).1 in
  (ApplyCall ∈ calls ↔
     (module p w).2 = None ∧ newContextErr w = None ∧ refresh w = None ∧
     (plan w).2 = None) ∧
  ((ApplyCall ∈ calls ∧ last calls = Some StateCall ∧
    (Apply p st d w).2 = (stateAfter w, apply w)) ∨
   ((ApplyCall ∉ calls) ∧ ∃ e, (Apply p st d w).2 = (st, Some e))).
Proof.
  assert (∀ l : list Call,
            forallb (λ call, negb (isCtxCall call)) l = true → ApplyCall ∉ l) as Hfree.
  { intros l Hl Hin. rewrite forallb_forall in Hl.
    apply list_elem_of_In, Hl in Hin. done. }
  pose proof (module_ctx_free p w) as Hm. apply Hfree in Hm.
  unfold Apply. destruct (newContext_calls p st d w) as (ctx & Hcalls & Herr & Hctx).
  destruct (newContext p st d w) as [calls err]. simpl in Hcalls, Herr. subst calls err.
  destruct (module p w) as [mcalls [e|]]; simpl in *; subst ctx.
  { rewrite app_nil_r. split; [split; [done|by intros [? _]]|]. right. split; [done|by eexists]. }
  destruct (newContextErr w) as [e|]; simpl.
  { split; [split; [|by intros (_&?&_)]|right; split; [|by eexists]];
      rewrite elem_of_app, list_elem_of_singleton; intros [?|?]; done. }
  destruct (refresh w) as [e|]; simpl.
  { split; [split; [|by intros (_&_&?&_)]|right; split; [|by eexists]];
      rewrite !elem_of_app, !list_elem_of_singleton; intros [[?|?]|?]; done. }
  destruct (plan w) as [pl [e|]]; simpl.
  { split; [split; [|by intros (_&_&_&?)]|right; split; [|by eexists]];
      rewrite !elem_of_app, list_elem_of_singleton, !elem_of_cons, elem_of_nil;
      intros [[?|?]|[?|[?|?]]]; done. }
  assert (ApplyCall ∈ (mcalls ++ [NewContext d st (Vars p) (getProviderResolver p)
                                    (getProvisioners (perIteration w) p)])
                      ++ [Refresh; PlanCall; ApplyCall; StateCall]) as Hin.
  { apply elem_of_app. right. do 2 apply list_elem_of_further. apply list_elem_of_here. }
  split; [done|]. left. split; [done|]. split; [|done].
  by rewrite !last_app.
Qed.

(** X19. [Plan] does what [Apply] does up to the plan and never applies: if
    it returns a plan, [Apply] in the same circumstances goes on to apply
    and read the state; if it fails, [Apply] fails with the same error after
    the same calls and returns the state it was given. *)
Theorem Plan_is_Apply_up_to_the_plan (p : Platform) (st : State) (d : bool) (w : World) :
  forallb (λ call, negb (isApply call)) (Plan p st d w).1 = true ∧
  match (Plan p st d w).2 with
  | (Some pl, None) =>
      pl = (plan w).1 ∧
      Apply p st d w
      = ((Plan p st d w).1 ++ [ApplyCall; StateCall], (stateAfter w, apply w))
  | (None, Some e) => Apply p st d w = ((Plan p st d w).1, (st, Some e))
  | _ => False
  end.
Proof.
  assert (∀ l : list Call,
            forallb (λ call, negb (isCtxCall call)) l = true →
            forallb (λ call, negb (isApply call)) l = true) as Hfree.
  { intros l. rewrite !forallb_forall. intros Hl call Hin. apply Hl in Hin.
    by destruct call. }
  pose proof (module_ctx_free p w) as Hm. apply Hfree in Hm.
  unfold Apply, Plan. destruct (newContext_calls p st d w) as (ctx & Hcalls & Herr & Hctx).
  destruct (newContext p st d w) as [calls err]. simpl in Hcalls, Herr. subst calls err.
  destruct (module p w) as [mcalls [e|]]; simpl in *; subst ctx.
  { by rewrite app_nil_r. }
  destruct (newContextErr w) as [e|]; simpl.
  { by rewrite forallb_app, Hm. }
  destruct (refresh w) as [e|]; simpl.
  { by rewrite !forallb_app, Hm. }
  destruct (plan w) as [pl [e|]]; simpl.
  { by rewrite !forallb_app, Hm. }
  rewrite !forallb_app, Hm. split; [done|]. split; [done|].
  by rewrite <- !app_assoc.
Qed.

(** X20. [Apply] touches the file system only in [module], before it makes
    the Terraform context: its calls are those of [module] followed by
    calls on the context only, and by none if [module] failed.  With no code
    it makes no call at all and returns the state it was given. *)
Theorem Apply_files_before_context (p : Platform) (st : State) (d : bool) (w : World) :
  (∃ ctx, (Apply p st d w).1 = (module p w).1 ++ ctx ∧
          forallb isCtxCall ctx = true ∧
          forallb (λ call, negb (isCtxCall call)) (module p w).1 = true ∧
          match (module p w).2 with
          | Some e => ctx = [] ∧ (Apply p st d w).2 = (st, Some e)
          | None => ∃ rest, ctx = NewContext d st (Vars p) (getProviderResolver p)
                                    (getProvisioners (perIteration w) p) :: rest
          end) ∧
  (Code p = "" → Apply p st d w = ([], (st, Some (errorString "no code to apply")))).
Proof.
  split.
  - pose proof (module_ctx_free p w) as Hm.
    unfold Apply. destruct (newContext_calls p st d w) as (ctx & Hcalls & Herr & Hctx).
    destruct (newContext p st d w) as [calls err]. simpl in Hcalls, Herr. subst calls err.
    destruct (module p w) as [mcalls [e|]]; simpl in *; subst ctx.
    { exists []. by rewrite app_nil_r. }
    destruct (newContextErr w) as [e|]; simpl.
    { eexists. split; [done|]. split; [done|]. split; [done|]. by eexists. }
    destruct (refresh w) as [e|]; simpl.
    { eexists. rewrite <- app_assoc. split; [done|]. split; [done|]. split; [done|].
      by eexists. }
    destruct (plan w) as [pl [e|]]; simpl.
    { eexists. rewrite <- app_assoc. split; [done|]. split; [done|]. split; [done|].
      by eexists. }
    eexists. rewrite <- app_assoc. split; [done|]. split; [done|]. split; [done|].
    by eexists.
  - intros Hcode. unfold Apply, newContext. by rewrite (module_no_code p w Hcode).
Qed.

(** *** The provisioner factories *)

Lemma callFactory_own (order : list (string * ResourceProvisioner)) (i : nat)
    (fs : Factories) (name : string) :
  NoDup order.*1 →
  (∀ n cell, closures fs !! n = Some cell → (cell < i)%nat) →
  callFactory (rangeProvisioners true i order fs) name
  = match list_to_map (M := gmap string ResourceProvisioner) order !! name with
    | Some provisioner => Some provisioner
    | None => callFactory fs name
    end.
Proof.
  revert i fs. induction order as [|[n v] order IH]; intros i fs Hnd Hlt; simpl.
  - by rewrite lookup_empty.
  - apply NoDup_cons in Hnd as [Hn Hnd]. rewrite IH; [|done|].
    + destruct (decide (n = name)) as [->|Hne].
      * rewrite lookup_insert_eq, (not_elem_of_list_to_map_1 _ _ Hn).
        unfold callFactory. cbn [closures cells].
        rewrite lookup_insert_eq. simpl. by rewrite lookup_insert_eq.
      * rewrite lookup_insert_ne by done.
        destruct (list_to_map order !! name); [done|].
        unfold callFactory. cbn [closures cells]. rewrite lookup_insert_ne by done.
        destruct (closures fs !! name) as [cell|] eqn:Hc; [|done]. simpl.
        apply Hlt in Hc. rewrite lookup_insert_ne by lia. done.
    + simpl. intros n' cell. destruct (decide (n = n')) as [->|Hne].
      * rewrite lookup_insert_eq. intros [= <-]. lia.
      * rewrite lookup_insert_ne by done. intros Hc. apply Hlt in Hc. lia.
Qed.

Lemma callFactory_shared (order : list (string * ResourceProvisioner)) (i : nat)
    (fs : Factories) (name : string) :
  order ≠ [] →
  (∀ n cell, closures fs !! n = Some cell → cell = O) →
  callFactory (rangeProvisioners false i order fs) name
  = if decide (name ∈ order.*1 ∨ is_Some (closures fs !! name))
    then snd <$> last order else None.
Proof.
  revert i fs. induction order as [|[n v] order IH]; intros i fs Hne Hzero; [done|].
  clear Hne. destruct order as [|[n' v'] order].
  - simpl. unfold callFactory. cbn [closures cells].
    destruct (decide (n = name)) as [->|Hne].
    + rewrite lookup_insert_eq. simpl. rewrite lookup_insert_eq.
      rewrite decide_True; [done|]. left. apply list_elem_of_here.
    + rewrite lookup_insert_ne by done.
      destruct (closures fs !! name) as [cell|] eqn:Hc; simpl.
      * rewrite (Hzero _ _ Hc), lookup_insert_eq. rewrite decide_True; [done|].
        right. by eexists.
      * rewrite decide_False; [done|]. intros [Hin|[? ?]]; [|done].
        apply list_elem_of_singleton in Hin. done.
  - change (rangeProvisioners false i ((n, v) :: (n', v') :: order) fs)
      with (rangeProvisioners false (S i) ((n', v') :: order)
              {| closures := <[n := O]> (closures fs); cells := <[O := v]> (cells fs) |}).
    rewrite IH; [|done|].
    + change (last ((n, v) :: (n', v') :: order)) with (last ((n', v') :: order)).
      simpl closures. apply decide_ext.
      rewrite (fmap_cons fst (n, v)), (elem_of_cons _ name). simpl fst.
      destruct (decide (n = name)) as [->|Hne].
      * rewrite lookup_insert_eq. split; [intros _; left; by left|intros _; right; by eexists].
      * rewrite lookup_insert_ne by done. split.
        -- intros [?|?]; [left; by right|by right].
        -- intros [[?|?]|?]; [done|by left|by right].
    + simpl. intros n0 cell. destruct (decide (n = n0)) as [->|Hne].
      * rewrite lookup_insert_eq. by intros [= <-].
      * rewrite lookup_insert_ne by done. apply Hzero.
Qed.

(** X21. What the factories made by [getProvisioners] return depends on the
    loop variable they hold.  If every iteration of the range has its own
    variable, the factory under a name returns the provisioner registered
    under that name.  If the loop has one variable, every factory returns
    the provisioner the range visited last, whatever its name. *)
Theorem factories_hold_the_loop_variable (m : gmap string ResourceProvisioner)
    (order : list (string * ResourceProvisioner)) (perIteration : bool) (name : string) :
  order ≡ₚ map_to_list m →
  callFactory (getProvisionersIn perIteration order) name
  = if perIteration then m !! name
    else m !! name ≫= λ _, snd <$> last order.
Proof.
  intros Hperm.
  assert (NoDup order.*1) as Hnd.
  { rewrite Hperm. apply NoDup_fst_map_to_list. }
  assert (list_to_map order = m) as Hm.
  { rewrite (list_to_map_proper order (map_to_list m)) by done.
    apply list_to_map_to_list. }
  unfold getProvisionersIn. destruct perIteration.
  - rewrite callFactory_own; [|done|by intros n cell; simpl; rewrite lookup_empty].
    rewrite Hm. by destruct (m !! name).
  - destruct order as [|x order].
    + simpl in Hm. subst m. by rewrite lookup_empty.
    + rewrite callFactory_shared; [|done|by intros n cell; simpl; rewrite lookup_empty].
      simpl closures. rewrite lookup_empty. subst m.
      destruct (list_to_map (x :: order) !! name) as [v|] eqn:Hl; simpl.
      * rewrite decide_True; [done|]. left. change (name ∈ (x :: order).*1).
        apply elem_of_list_to_map_2 in Hl. apply list_elem_of_fmap. by exists (name, v).
      * rewrite decide_False; [done|]. intros [Hin|[? ?]]; [|done].
        apply not_elem_of_list_to_map in Hl. done.
Qed.

Lemma factories_hold_the_loop_variable_witness :
  let m : gmap string ResourceProvisioner :=
    <["file" := Provisioner 1]> {[ "local-exec" := Provisioner 2 ]} in
  let order := [("file", Provisioner 1); ("local-exec", Provisioner 2)] in
  order ≡ₚ map_to_list m ∧
  callFactory (getProvisionersIn false order) "file" = Some (Provisioner 2) ∧
  callFactory (getProvisionersIn true order) "file" = Some (Provisioner 1).
Proof.
  intros m order.
  assert (order ≡ₚ map_to_list m) as Hperm.
  { subst m order. rewrite map_to_list_insert by done.
    by rewrite map_to_list_singleton. }
  split; [exact Hperm|]. split.
  - rewrite (factories_hold_the_loop_variable m order false "file" Hperm). reflexivity.
  - rewrite (factories_hold_the_loop_variable m order true "file" Hperm). reflexivity.
Defined.

End TerraformFacts.
